(** * Cross-dataset concept alignment pipeline: model and properties

    Shallow embedding of three pieces of the repository:

    - the reconciliation loop of the [audit-merge-concepts] edge function
      (version 2), [Module Merge];
    - the reply parsing of the [audit-extract-concepts] and
      [audit-merge-concepts] edge functions, [Module Reply];
    - the orchestrating hook [useAuditPipeline] / [runPipeline],
      [Module Pipeline];
    - one round of the [audit-merge-concepts] edge function around its
      reconciliation loop: model routing, model call and the events of
      the stream, [Module Merger];
    - the [ai-create-standards] edge function, [Module Standards];
    - the checks of the [decompose-requirements] edge function,
      [Module Decompose].

    Each model is followed, in the second half of the file, by the
    properties proved of it. *)

From stdpp Require Import gmap strings list fin_maps pretty sorting.
From Stdlib Require Import Ascii ZArith Lia.

Local Open Scope string_scope.
Local Open Scope list_scope.

(* ===================================================================== *)
(** ** The merge reconciliation (audit-merge-concepts, v2)                *)
(* ===================================================================== *)

Module Merge.

(** [interface UnifiedConcept].  The id lists are declared mandatory but
    the code guards every use with [c.d1Ids || []] / [c.d1Ids?.length || 0]
    (the orchestrator indeed sends concepts with only one of the two), so
    they are optional here. *)
Record UnifiedConcept := {
  label : string;
  description : string;
  d1Ids : option (list string);
  d2Ids : option (list string);
  elementLabels : option (list string);
}.

(** One element of [parsed.merges]. *)
Record MergeGroup := {
  sourceConcepts : option (list string);
  mergedLabel : string;
  mergedDescription : string;
}.

(** [interface MergeLogEntry { from; to }]. *)
Record MergeLogEntry := {
  from : list string;
  to : string;
}.

(** [x || []] on an optional array. *)
Definition orEmpty {A} (o : option (list A)) : list A := default [] o.

(** [[...new Set(xs)]]: a JavaScript [Set] keeps insertion order and
    ignores the insertion of a value it already holds. *)
Definition Set_add (s : list string) (x : string) : list string :=
  if decide (x ∈ s) then s else s ++ [x].

Definition Set_from (xs : list string) : list string :=
  foldl Set_add [] xs.

(** [concepts.reduce((sum, c) => sum + (c.d1Ids?.length || 0), 0)]. *)
Definition countD1 (cs : list UnifiedConcept) : nat :=
  foldl (fun sum c => sum + length (orEmpty (d1Ids c))) 0 cs.

Definition countD2 (cs : list UnifiedConcept) : nat :=
  foldl (fun sum c => sum + length (orEmpty (d2Ids c))) 0 cs.

Section Reconciliation.

(** [String.prototype.toLowerCase].  The reconciliation only uses it to
    compute lookup keys, so it is a parameter of the model; the examples
    instantiate it with the ASCII case mapping [toLowerCase_ascii]. *)
Variable toLowerCase : string -> string.

(** The key under which a concept is filed: [c.label.toLowerCase()]. *)
Definition key (c : UnifiedConcept) : string := toLowerCase (label c).

(** [[
    const conceptByLabel = new Map<string, UnifiedConcept>();
    for (const c of concepts) conceptByLabel.set(c.label.toLowerCase(), c);
    ]] *)
Definition conceptByLabel (concepts : list UnifiedConcept)
  : gmap string UnifiedConcept :=
  foldl (fun m c => <[key c := c]> m) ∅ concepts.

(** State of the inner loop over [m.sourceConcepts]:
    [validSources], [validSourceLabels], [mergedLabels]. *)
Record Resolved := {
  validSources : list UnifiedConcept;
  validSourceLabels : list string;
  marked : gset string;
}.

(** Body of [for (const label of (m.sourceConcepts || []))]. *)
Definition resolve_label (byLabel : gmap string UnifiedConcept)
    (st : Resolved) (lbl : string) : Resolved :=
  let k := toLowerCase lbl in
  if decide (k ∈ marked st) then st                 (* SKIP: already merged *)
  else match byLabel !! k with
       | Some found =>
           {| validSources := validSources st ++ [found];
              validSourceLabels := validSourceLabels st ++ [label found];
              marked := {[k]} ∪ marked st |}
       | None => st                                 (* NOT FOUND *)
       end.

Definition resolve (byLabel : gmap string UnifiedConcept)
    (mergedLabels : gset string) (labels : list string) : Resolved :=
  foldl (resolve_label byLabel)
        {| validSources := []; validSourceLabels := [];
           marked := mergedLabels |}
        labels.

(** The concept pushed when a group has two or more valid sources. *)
Definition mergedConcept (m : MergeGroup) (srcs : list UnifiedConcept)
  : UnifiedConcept :=
  {| label := mergedLabel m;
     description := mergedDescription m;
     d1Ids := Some (Set_from (flat_map (fun c => orEmpty (d1Ids c)) srcs));
     d2Ids := Some (Set_from (flat_map (fun c => orEmpty (d2Ids c)) srcs));
     elementLabels :=
       Some (Set_from (flat_map (fun c => orEmpty (elementLabels c)) srcs)) |}.

(** State of the outer loop: [mergedLabels], [outputConcepts], [mergeLog]. *)
Record State := {
  mergedLabels : gset string;
  outputConcepts : list UnifiedConcept;
  mergeLog : list MergeLogEntry;
}.

Definition init : State :=
  {| mergedLabels := ∅; outputConcepts := []; mergeLog := [] |}.

(** Body of [for (const m of (parsed.merges || []))]. *)
Definition process_merge (byLabel : gmap string UnifiedConcept)
    (st : State) (m : MergeGroup) : State :=
  let r := resolve byLabel (mergedLabels st) (orEmpty (sourceConcepts m)) in
  if bool_decide (2 <= length (validSources r)) then
    {| mergedLabels := marked r;
       outputConcepts := outputConcepts st ++ [mergedConcept m (validSources r)];
       mergeLog := mergeLog st ++
                   [{| from := validSourceLabels r; to := mergedLabel m |}] |}
  else if bool_decide (length (validSources r) = 1) then
    match validSources r with
    | first :: _ =>                       (* validSources[0]: unmark it *)
        {| mergedLabels := marked r ∖ {[key first]};
           outputConcepts := outputConcepts st;
           mergeLog := mergeLog st |}
    | [] => {| mergedLabels := marked r;
               outputConcepts := outputConcepts st;
               mergeLog := mergeLog st |}
    end
  else
    {| mergedLabels := marked r;
       outputConcepts := outputConcepts st;
       mergeLog := mergeLog st |}.

Definition process_merges (concepts : list UnifiedConcept)
    (merges : list MergeGroup) : State :=
  foldl (process_merge (conceptByLabel concepts)) init merges.

(** [for (const c of concepts) if (!mergedLabels.has(c.label.toLowerCase()))
      outputConcepts.push(c)] *)
Definition passThrough (ml : gset string) (concepts : list UnifiedConcept)
  : list UnifiedConcept :=
  filter (fun c => key c ∉ ml) concepts.

(** The whole reconciliation, from the request's [concepts] and
    [parsed.merges] to the response's [concepts] and [mergeLog]. *)
Definition reconcile (concepts : list UnifiedConcept)
    (merges : option (list MergeGroup))
  : list UnifiedConcept * list MergeLogEntry :=
  let st := process_merges concepts (orEmpty merges) in
  (outputConcepts st ++ passThrough (mergedLabels st) concepts, mergeLog st).

End Reconciliation.

(** ASCII instance of [toLowerCase] used by the examples. *)
Definition lower_ascii (a : ascii) : ascii :=
  let n := nat_of_ascii a in
  if bool_decide (65 <= n <= 90) then ascii_of_nat (n + 32) else a.

Fixpoint toLowerCase_ascii (s : string) : string :=
  match s with
  | EmptyString => EmptyString
  | String a r => String (lower_ascii a) (toLowerCase_ascii r)
  end.

(** Concept constructors for the examples: a D1-only and a D2-only concept
    as the orchestrator sends them, and a concept with both sides. *)
Definition d1Concept (l : string) (ids : list string) : UnifiedConcept :=
  {| label := l; description := EmptyString; d1Ids := Some ids; d2Ids := None;
     elementLabels := None |}.

Definition d2Concept (l : string) (ids : list string) : UnifiedConcept :=
  {| label := l; description := EmptyString; d1Ids := None; d2Ids := Some ids;
     elementLabels := None |}.

Definition group (ls : list string) (l : string) : MergeGroup :=
  {| sourceConcepts := Some ls; mergedLabel := l; mergedDescription := EmptyString |}.

End Merge.

(* ===================================================================== *)
(** ** Parsing the model reply (audit-extract-concepts,                   *)
(**    audit-merge-concepts)                                              *)
(* ===================================================================== *)

Module Reply.

Local Open Scope Z_scope.

#[local] Set Warnings "-register-all".

(** A parsed JSON value.  A number keeps the text it was written with;
    members of an object are kept in the order of the text. *)
Inductive json :=
| JNull
| JBool (b : bool)
| JNumber (lexeme : string)
| JString (s : string)
| JArray (items : list json)
| JObject (members : list (string * json)).

(** What a [throw] carries to the enclosing [catch]: the built-in
    [SyntaxError] of [JSON.parse], a built-in [TypeError], or
    [new Error(message)]. *)
Inductive Thrown :=
| SyntaxError
| TypeError
| Error (message : string).

(** [s.indexOf(c)] and [s.lastIndexOf(c)] for a one-character [c]:
    the position of the first, of the last, occurrence, or [-1].
    The characters searched for are ASCII, so positions counted in bytes
    and in UTF-16 units cut the text at the same places. *)
Fixpoint indexOf (c : ascii) (s : string) : Z :=
  match s with
  | EmptyString => -1
  | String a r =>
      if Ascii.eqb a c then 0
      else let i := indexOf c r in if i =? -1 then -1 else i + 1
  end.

Fixpoint lastIndexOf (c : ascii) (s : string) : Z :=
  match s with
  | EmptyString => -1
  | String a r =>
      let i := lastIndexOf c r in
      if i =? -1 then (if Ascii.eqb a c then 0 else -1) else i + 1
  end.

(** [s.slice(b, e)] for [0 <= b <= e], the only way the code calls it. *)
Definition slice (s : string) (b e : Z) : string :=
  String.substring (Z.to_nat b) (Z.to_nat (e - b)) s.

(** [s.includes(c)]. *)
Fixpoint includes (c : ascii) (s : string) : bool :=
  match s with
  | EmptyString => false
  | String a r => Ascii.eqb a c || includes c r
  end.

Section Parsing.

(** [JSON.parse], with [None] for a thrown [SyntaxError].  The recovery
    logic is independent of the grammar, so the parser is a parameter;
    [JSON_parse] below is an instance for the examples. *)
Variable parse : string -> option json.

(** audit-extract-concepts:
    [[
    try { parsed = JSON.parse(rawText); }
    catch (parseErr) {
      const firstBrace = rawText.indexOf("{");
      const lastBrace = rawText.lastIndexOf("}");
      if (firstBrace !== -1 && lastBrace > firstBrace) {
        parsed = JSON.parse(rawText.slice(firstBrace, lastBrace + 1));
      } else {
        throw new Error(`Failed to parse JSON from LLM response`);
      }
    }
    ]] *)
Definition extractor_parse (rawText : string) : Thrown + json :=
  match parse rawText with
  | Some parsed => inr parsed
  | None =>
      let firstBrace := indexOf "{" rawText in
      let lastBrace := lastIndexOf "}" rawText in
      if bool_decide (firstBrace <> -1) && bool_decide (lastBrace > firstBrace)
      then match parse (slice rawText firstBrace (lastBrace + 1)) with
           | Some parsed => inr parsed
           | None => inl SyntaxError
           end
      else inl (Error "Failed to parse JSON from LLM response")
  end.

(** audit-merge-concepts: the same steps with another message. *)
Definition merger_parse (rawText : string) : Thrown + json :=
  match parse rawText with
  | Some parsed => inr parsed
  | None =>
      let firstBrace := indexOf "{" rawText in
      let lastBrace := lastIndexOf "}" rawText in
      if bool_decide (firstBrace <> -1) && bool_decide (lastBrace > firstBrace)
      then match parse (slice rawText firstBrace (lastBrace + 1)) with
           | Some parsed => inr parsed
           | None => inl SyntaxError
           end
      else inl (Error "Could not parse JSON from LLM response")
  end.

(** Property lookup [o.name] on a parsed object: the last member of that
    name, as [JSON.parse] lets a later duplicate overwrite an earlier one. *)
Fixpoint member (name : string) (ms : list (string * json)) : option json :=
  match ms with
  | [] => None
  | (k, v) :: r =>
      match member name r with
      | Some w => Some w
      | None => if String.eqb k name then Some v else None
      end
  end.

(** A number text denotes zero when its digits before the exponent are
    all ['0'] (exponent underflow of a non-zero text is not modelled). *)
Fixpoint zero_digits (s : string) : bool :=
  match s with
  | EmptyString => true
  | String a r =>
      if Ascii.eqb a "e" || Ascii.eqb a "E" then true
      else if Ascii.eqb a "-" || Ascii.eqb a "." || Ascii.eqb a "0"
           then zero_digits r
           else false
  end.

(** JavaScript truthiness of a parsed value. *)
Definition truthy (v : json) : bool :=
  match v with
  | JNull => false
  | JBool b => b
  | JNumber lexeme => negb (zero_digits lexeme)
  | JString s => negb (String.eqb s EmptyString)
  | JArray _ | JObject _ => true
  end.

(** [parsed.concepts || []].  Reading a property of [null] throws; a value
    that is not an object has no such property. *)
Definition concepts_of (parsed : json) : Thrown + json :=
  match parsed with
  | JNull => inl TypeError
  | JObject ms =>
      match member "concepts" ms with
      | Some v => if truthy v then inr v else inr (JArray [])
      | None => inr (JArray [])
      end
  | _ => inr (JArray [])
  end.

(** The callback of the blackboard entry,
    [c => `- ${c.label}: ${c.elementIds.length} elements`], succeeds on [c]
    when [c.label] and [c.elementIds.length] can be read. *)
Definition loggable (c : json) : bool :=
  match c with
  | JObject ms =>
      match member "elementIds" ms with
      | Some JNull | None => false
      | Some _ => true
      end
  | _ => false            (* [null.label], or [undefined.length] *)
  end.

(** [concepts.map(...)]: only an array has [map]. *)
Definition log_concepts (concepts : json) : Thrown + list json :=
  match concepts with
  | JArray items => if forallb loggable items then inr items else inl TypeError
  | _ => inl TypeError
  end.

(** The reply of the model as the extractor's [fetch] sees it. *)
Inductive ModelReply :=
| HttpFailure (status : Z)                 (* [!response.ok] *)
| BodyNotJson                              (* [response.json()] rejects *)
| Candidate (text : option string).
  (* [result.candidates?.[0]?.content?.parts?.[0]?.text], if any *)

(** The HTTP response of the extractor. *)
Inductive ExtractResponse :=
| Success (concepts : list json)           (* 200, [{ success: true, concepts, ... }] *)
| Failure (error : Thrown).                (* 500, [{ success: false, error }] *)

(** [text || "{}"]. *)
Definition rawText_of (text : option string) : string :=
  match text with
  | Some t => if String.eqb t EmptyString then "{}" else t
  | None => "{}"
  end.

(** The body of the [try] block from the model call on.  The two logging
    RPCs that follow resolve to [{ data, error }] and are not read, so they
    do not show here. *)
Definition extract_try (reply : ModelReply) : Thrown + list json :=
  match reply with
  | HttpFailure status => inl (Error ("Gemini API error: " +:+ pretty status))
  | BodyNotJson => inl SyntaxError
  | Candidate text =>
      match extractor_parse (rawText_of text) with
      | inl e => inl e
      | inr parsed =>
          match concepts_of parsed with
          | inl e => inl e
          | inr concepts => log_concepts concepts
          end
      end
  end.

(** [serve] of audit-extract-concepts: the [catch] turns whatever was
    thrown into the 500 response. *)
Definition extract_concepts (reply : ModelReply) : ExtractResponse :=
  match extract_try reply with
  | inr concepts => Success concepts
  | inl e => Failure e
  end.

End Parsing.

(** *** An instance of the parser, for the examples

    A reader for the JSON grammar (ECMA-404): literals, numbers, strings
    with the one-letter escapes, arrays and objects, white space between
    tokens.  [\uXXXX] escapes are left out (such a text is refused). *)

Inductive token :=
| TLBrace | TRBrace | TLBracket | TRBracket | TColon | TComma
| TTrue | TFalse | TNull
| TString (s : string)
| TNumber (lexeme : string).

Definition is_space (c : ascii) : bool :=
  Ascii.eqb c " " || Ascii.eqb c "009" || Ascii.eqb c "010" || Ascii.eqb c "013".

Definition is_digit (c : ascii) : bool :=
  let n := nat_of_ascii c in
  bool_decide (48 <= n)%nat && bool_decide (n <= 57)%nat.

Definition unescape (c : ascii) : option ascii :=
  if Ascii.eqb c "034" then Some "034"%char
  else if Ascii.eqb c "092" then Some "092"%char
  else if Ascii.eqb c "/" then Some "/"%char
  else if Ascii.eqb c "b" then Some "008"%char
  else if Ascii.eqb c "f" then Some "012"%char
  else if Ascii.eqb c "n" then Some "010"%char
  else if Ascii.eqb c "r" then Some "013"%char
  else if Ascii.eqb c "t" then Some "009"%char
  else None.

(** The text after an opening quote: the decoded contents up to the
    closing quote, and what follows it. *)
Fixpoint lex_string (s acc : string) : option (string * string) :=
  match s with
  | EmptyString => None
  | String c r =>
      if Ascii.eqb c "034" then Some (acc, r)
      else if Ascii.eqb c "092" then
        match r with
        | String e r' =>
            match unescape e with
            | Some ch => lex_string r' (acc +:+ String ch EmptyString)
            | None => None
            end
        | EmptyString => None
        end
      else if bool_decide (nat_of_ascii c < 32)%nat then None
      else lex_string r (acc +:+ String c EmptyString)
  end.

Definition number_char (c : ascii) : bool :=
  is_digit c || Ascii.eqb c "-" || Ascii.eqb c "+" || Ascii.eqb c "."
  || Ascii.eqb c "e" || Ascii.eqb c "E".

Fixpoint span_number (s : string) : string * string :=
  match s with
  | EmptyString => (EmptyString, EmptyString)
  | String c r =>
      if number_char c
      then let '(n, rest) := span_number r in (String c n, rest)
      else (EmptyString, s)
  end.

Fixpoint skip_digits (s : string) : string :=
  match s with
  | String c r => if is_digit c then skip_digits r else s
  | EmptyString => s
  end.

Definition valid_exponent (s : string) : bool :=
  match s with
  | EmptyString => true
  | String e r =>
      (Ascii.eqb e "e" || Ascii.eqb e "E") &&
      let r' := match r with
                | String sg r1 =>
                    if Ascii.eqb sg "+" || Ascii.eqb sg "-" then r1 else r
                | EmptyString => r
                end in
      match r' with
      | String d r2 => is_digit d && String.eqb (skip_digits r2) EmptyString
      | EmptyString => false
      end
  end.

Definition valid_fraction (s : string) : bool :=
  match s with
  | String "." (String d r) => is_digit d && valid_exponent (skip_digits r)
  | String "." EmptyString => false
  | _ => valid_exponent s
  end.

(** An optional minus sign; then a single zero, or a non-zero digit
    followed by digits; then optionally a point and digits; then
    optionally an exponent. *)
Definition valid_number (s : string) : bool :=
  let s1 := match s with
            | String "-" r => r
            | _ => s
            end in
  match s1 with
  | String "0" r => valid_fraction r
  | String d r => is_digit d && valid_fraction (skip_digits r)
  | EmptyString => false
  end.

Fixpoint strip_prefix (p s : string) : option string :=
  match p, s with
  | EmptyString, _ => Some s
  | String a p', String b s' => if Ascii.eqb a b then strip_prefix p' s' else None
  | String _ _, EmptyString => None
  end.

Fixpoint lex (fuel : nat) (s : string) : option (list token) :=
  match fuel with
  | O => None
  | S fuel =>
      match s with
      | EmptyString => Some []
      | String c r =>
          if is_space c then lex fuel r
          else if Ascii.eqb c "{" then cons TLBrace <$> lex fuel r
          else if Ascii.eqb c "}" then cons TRBrace <$> lex fuel r
          else if Ascii.eqb c "[" then cons TLBracket <$> lex fuel r
          else if Ascii.eqb c "]" then cons TRBracket <$> lex fuel r
          else if Ascii.eqb c ":" then cons TColon <$> lex fuel r
          else if Ascii.eqb c "," then cons TComma <$> lex fuel r
          else if Ascii.eqb c "034" then
            match lex_string r EmptyString with
            | Some (str, rest) => cons (TString str) <$> lex fuel rest
            | None => None
            end
          else if Ascii.eqb c "t" then
            rest ← strip_prefix "rue" r; cons TTrue <$> lex fuel rest
          else if Ascii.eqb c "f" then
            rest ← strip_prefix "alse" r; cons TFalse <$> lex fuel rest
          else if Ascii.eqb c "n" then
            rest ← strip_prefix "ull" r; cons TNull <$> lex fuel rest
          else
            let '(lexeme, rest) := span_number s in
            if valid_number lexeme then cons (TNumber lexeme) <$> lex fuel rest
            else None
      end
  end.

Fixpoint parse_value (fuel : nat) (ts : list token) : option (json * list token) :=
  match fuel with
  | O => None
  | S fuel =>
      match ts with
      | TNull :: r => Some (JNull, r)
      | TTrue :: r => Some (JBool true, r)
      | TFalse :: r => Some (JBool false, r)
      | TNumber n :: r => Some (JNumber n, r)
      | TString str :: r => Some (JString str, r)
      | TLBracket :: TRBracket :: r => Some (JArray [], r)
      | TLBracket :: r => parse_elements fuel r []
      | TLBrace :: TRBrace :: r => Some (JObject [], r)
      | TLBrace :: r => parse_members fuel r []
      | _ => None
      end
  end
with parse_elements (fuel : nat) (ts : list token) (acc : list json)
  : option (json * list token) :=
  match fuel with
  | O => None
  | S fuel =>
      match parse_value fuel ts with
      | Some (v, TComma :: r) => parse_elements fuel r (acc ++ [v])
      | Some (v, TRBracket :: r) => Some (JArray (acc ++ [v]), r)
      | _ => None
      end
  end
with parse_members (fuel : nat) (ts : list token) (acc : list (string * json))
  : option (json * list token) :=
  match fuel with
  | O => None
  | S fuel =>
      match ts with
      | TString k :: TColon :: r =>
          match parse_value fuel r with
          | Some (v, TComma :: r') => parse_members fuel r' (acc ++ [(k, v)])
          | Some (v, TRBrace :: r') => Some (JObject (acc ++ [(k, v)]), r')
          | _ => None
          end
      | _ => None
      end
  end.

(** Every step of the two readers consumes a character or a token, so
    the lengths are fuel enough. *)
Definition JSON_parse (text : string) : option json :=
  match lex (S (String.length text)) text with
  | Some ts =>
      match parse_value (S (List.length ts)) ts with
      | Some (v, []) => Some v
      | _ => None
      end
  | None => None
  end.

End Reply.

(* ===================================================================== *)
(** ** The orchestrator (useAuditPipeline / runPipeline)                  *)
(* ===================================================================== *)

Module Pipeline.

Local Open Scope Z_scope.

(** [type PipelinePhase]. *)
Inductive PipelinePhase :=
| idle | creating_nodes | extracting_d1 | extracting_d2 | merging_concepts
| building_graph | building_tesseract | generating_venn | completed | error.

(** [interface PipelineProgress]. *)
Record PipelineProgress := {
  phase : PipelinePhase;
  message : string;
  progress : Z;
  d1ConceptCount : option nat;
  d2ConceptCount : option nat;
  mergedCount : option nat;
  tesseractCurrent : option nat;
  tesseractTotal : option nat;
}.

Definition report (ph : PipelinePhase) (msg : string) (pr : Z) : PipelineProgress :=
  {| phase := ph; message := msg; progress := pr;
     d1ConceptCount := None; d2ConceptCount := None; mergedCount := None;
     tesseractCurrent := None; tesseractTotal := None |}.

(** [interface Concept], [interface MergedConcept], [interface Element],
    [interface PipelineInput]. *)
Record Concept := {
  label : string;
  description : string;
  elementIds : list string;
}.

Record MergedConcept := {
  mergedLabel : string;
  mergedDescription : string;
  d1ConceptLabels : list string;
  d2ConceptLabels : list string;
  d1Ids : list string;
  d2Ids : list string;
}.

Record Element := {
  id : string;
  element_label : string;            (* [label] *)
  content : string;
  category : option string;
}.

Record PipelineInput := {
  sessionId : string;
  projectId : string;
  shareToken : string;
  d1Elements : list Element;
  d2Elements : list Element;
}.

(** *** The outside world *)

(** What a [supabase.rpc(...)] call resolves to: [{ data, error }]. *)
Record RpcResult (A : Type) := {
  rpc_data : option A;
  rpc_error : option string;
}.
Arguments rpc_data {A} _.
Arguments rpc_error {A} _.

(** A row of [audit_graph_nodes] as the RPCs return it. *)
Record NodeRow := {
  node_id : string;                            (* [id] *)
  node_type : string;
  source_element_ids : option (list string);
}.

(** [p_metadata] of a node. *)
Inductive Metadata :=
| meta_category (category : string)
| meta_merged (d1Count d2Count : nat)
| meta_gap
| meta_orphan.

(** Arguments of [upsert_audit_graph_node_with_token] (session and token,
    the same in every call of a run, are left out). *)
Record NodeArgs := {
  p_label : string;
  p_description : string;
  p_node_type : string;
  p_source_dataset : string;
  p_source_element_ids : list string;
  p_color : string;
  p_size : Z;
  p_metadata : Metadata;
}.

(** Arguments of [insert_audit_graph_edge_with_token]; [p_label] repeats
    the edge type and [p_weight] is always 1. *)
Record EdgeArgs := {
  p_source_node_id : string;
  p_target_node_id : string;
  p_edge_type : string;
  p_edge_label : string;
}.

(** An HTTP response: [ok], [status], and what [await response.json()]
    gives, a rejection message or the decoded body. *)
Record HttpResponse (A : Type) := {
  ok : bool;
  status : Z;
  json : string + A;
}.
Arguments ok {A} _.
Arguments status {A} _.
Arguments json {A} _.

(** Body of an audit-extract-concepts response. *)
Record ExtractResult := {
  success : bool;
  extract_error : option string;               (* [error] *)
  concepts : option (list Concept);
}.

(** An unmerged concept as the merge response lists it ([c: any]). *)
Record UnmergedConcept := {
  u_label : string;
  u_description : string;
  u_d1Ids : option (list string);
  u_d2Ids : option (list string);
}.

(** Body of the audit-merge-concepts response the hook expects. *)
Record MergeResult := {
  merge_success : bool;
  merge_error : option string;
  mergedConcepts : option (list MergedConcept);
  unmergedD1Concepts : option (list UnmergedConcept);
  unmergedD2Concepts : option (list UnmergedConcept);
}.

(** Body of the audit-build-tesseract response; a cell is opaque here. *)
Record TesseractResult := {
  cells : option (list string);
}.

(** What the run observes of the world.  Every reply is indexed by the
    number of external calls made before it, so the same call may be
    answered differently at different times; [abortRef] is the value of
    [abortRef.current] when read at that point. *)
Record Env := {
  upsert_node_reply : nat -> RpcResult NodeRow;
  insert_edge_reply : nat -> RpcResult unit;
  get_nodes_reply : nat -> RpcResult (list NodeRow);
  extract_replies :
    nat -> string + (HttpResponse ExtractResult * HttpResponse ExtractResult);
  merge_reply : nat -> string + HttpResponse MergeResult;
  tesseract_reply : nat -> string + HttpResponse (option TesseractResult);
  venn_reply : nat -> string + unit;
  abortRef : nat -> bool;
}.

(** Everything the run does that can be seen from outside, in order:
    React state updates, [console.error] lines, RPCs with their results,
    and requests to the edge functions.  ([console.log] lines, which only
    narrate progress, are left out.) *)
Inductive Event :=
| setIsRunning (b : bool)
| setError (e : option string)
| setProgress (p : PipelineProgress)
| console_error (line : string)
| upsert_audit_graph_node (args : NodeArgs) (result : RpcResult NodeRow)
| insert_audit_graph_edge (args : EdgeArgs) (result : RpcResult unit)
| get_audit_graph_nodes (result : RpcResult (list NodeRow))
| update_audit_session (p_status : string) (p_phase : option string)
| fetch (endpoint : string).

(** *** A state and exception monad for the [async] body *)

Record State := {
  trace : list Event;
  calls : nat;
}.

(** A computation either throws a message or returns, and leaves a state. *)
Definition M (A : Type) : Type := State -> (string + A) * State.

Definition ret {A} (a : A) : M A := fun s => (inr a, s).

Definition bind {A B} (m : M A) (k : A -> M B) : M B :=
  fun s => match m s with
           | (inl e, s') => (inl e, s')
           | (inr a, s') => k a s'
           end.

Definition throw {A} (msg : string) : M A := fun s => (inl msg, s).

Definition emit (e : Event) : M unit :=
  fun s => (inr tt, {| trace := trace s ++ [e]; calls := calls s |}).

(** An external call: the world's reply at this point, recorded by [ev]. *)
Definition call {A} (reply : nat -> A) (ev : A -> list Event) : M A :=
  fun s => let r := reply (calls s) in
           (inr r, {| trace := trace s ++ ev r; calls := S (calls s) |}).

Notation "'let*' x ':=' m 'in' k" := (bind m (fun x => k))
  (at level 10, x pattern, m at level 100, k at level 200).
Notation "m ';;' k" := (bind m (fun _ => k))
  (at level 100, k at level 200, right associativity).

(** [for (const x of xs) { body }]. *)
Fixpoint for_each {A} (xs : list A) (body : A -> M unit) : M unit :=
  match xs with
  | [] => ret tt
  | x :: r => body x ;; for_each r body
  end.

(** *** The run *)

Section Run.

Variable env : Env.
Variable input : PipelineInput.

(** [if (abortRef.current) throw new Error("Aborted")]. *)
Definition check_abort : M unit :=
  fun s => if abortRef env (calls s) then throw "Aborted" s else ret tt s.

(** The [let] variables declared ahead of the [try], and [tesseractCells]. *)
Record Vars := {
  d1Concepts_ : list Concept;
  d2Concepts_ : list Concept;
  mergedConcepts_ : list MergedConcept;
  unmergedD1Concepts_ : list Concept;
  unmergedD2Concepts_ : list Concept;
  tesseractCells_ : list string;
}.

Definition initial_vars : Vars :=
  {| d1Concepts_ := []; d2Concepts_ := []; mergedConcepts_ := [];
     unmergedD1Concepts_ := []; unmergedD2Concepts_ := [];
     tesseractCells_ := [] |}.

(** [element.category || "unknown"]: an absent or empty category. *)
Definition category_of (e : Element) : string :=
  match category e with
  | Some c => if String.eqb c EmptyString then "unknown" else c
  | None => "unknown"
  end.

(** The first 500 characters of [element.content], or of the empty string
    when there is no content. *)
Definition description_of (e : Element) : string :=
  String.substring 0 500 (content e).

(** One turn of the element loops of phase 0: upsert, and log a failure. *)
Definition create_element_node (node_type dataset color line : string)
    (e : Element) : M unit :=
  let args :=
    {| p_label := element_label e;
       p_description := description_of e;
       p_node_type := node_type;
       p_source_dataset := dataset;
       p_source_element_ids := [id e];
       p_color := color;
       p_size := 15;
       p_metadata := meta_category (category_of e) |} in
  let* r := call (upsert_node_reply env)
                 (fun r => [upsert_audit_graph_node args r]) in
  match rpc_error r with
  | Some _ => emit (console_error line)
  | None => ret tt
  end.

(** PHASE 0: create D1 and D2 nodes immediately. *)
Definition phase0 (v : Vars) : M Vars :=
  emit (setProgress
          (report creating_nodes
             ("Creating " +:+ pretty (List.length (d1Elements input)) +:+
              " D1 and " +:+ pretty (List.length (d2Elements input)) +:+
              " D2 nodes...") 5)) ;;
  for_each (d1Elements input)
    (create_element_node "d1_element" "dataset1" "#3b82f6"
       "[Pipeline] Error creating D1 node:") ;;
  for_each (d2Elements input)
    (create_element_node "d2_element" "dataset2" "#22c55e"
       "[Pipeline] Error creating D2 node:") ;;
  emit (update_audit_session "running" (Some "extracting_concepts")) ;;
  check_abort ;;
  ret v.

(** Reading one extraction response: status, body, [success] flag. *)
Definition read_extraction (side : string) (r : HttpResponse ExtractResult)
  : M (list Concept) :=
  if negb (ok r) then
    emit (console_error ("[Pipeline] " +:+ side +:+ " extraction failed:")) ;;
    throw (side +:+ " concept extraction failed: " +:+ pretty (status r))
  else
    match json r with
    | inl rejected => throw rejected
    | inr result =>
        if negb (success result) then
          throw (side +:+ " extraction error: " +:+
                 default "undefined" (extract_error result))
        else ret (default [] (concepts result))
    end.

(** PHASE 1: extract D1 and D2 concepts in parallel ([Promise.all] of the
    two requests: one rejection rejects the pair). *)
Definition phase1 (v : Vars) : M Vars :=
  emit (setProgress
          (report extracting_d1
             ("Extracting concepts from " +:+
              pretty (List.length (d1Elements input)) +:+ " D1 and " +:+
              pretty (List.length (d2Elements input)) +:+ " D2 elements...") 15)) ;;
  let* both := call (extract_replies env)
                    (fun _ => [fetch "audit-extract-concepts";
                               fetch "audit-extract-concepts"]) in
  match both with
  | inl rejected => throw rejected
  | inr (d1Response, d2Response) =>
      let* d1Concepts := read_extraction "D1" d1Response in
      let* d2Concepts := read_extraction "D2" d2Response in
      emit (setProgress
              {| phase := merging_concepts;
                 message := "Merging " +:+ pretty (List.length d1Concepts) +:+
                            " D1 and " +:+ pretty (List.length d2Concepts) +:+
                            " D2 concepts...";
                 progress := 35;
                 d1ConceptCount := Some (List.length d1Concepts);
                 d2ConceptCount := Some (List.length d2Concepts);
                 mergedCount := None; tesseractCurrent := None;
                 tesseractTotal := None |}) ;;
      check_abort ;;
      ret {| d1Concepts_ := d1Concepts; d2Concepts_ := d2Concepts;
             mergedConcepts_ := mergedConcepts_ v;
             unmergedD1Concepts_ := unmergedD1Concepts_ v;
             unmergedD2Concepts_ := unmergedD2Concepts_ v;
             tesseractCells_ := tesseractCells_ v |}
  end.

(** PHASE 2: merge concepts. *)
Definition phase2 (v : Vars) : M Vars :=
  let* fetched := call (merge_reply env)
                       (fun _ => [fetch "audit-merge-concepts"]) in
  match fetched with
  | inl rejected => throw rejected
  | inr mergeResponse =>
      if negb (ok mergeResponse) then
        emit (console_error "[Pipeline] Merge failed:") ;;
        throw ("Merge concepts failed: " +:+ pretty (status mergeResponse))
      else
        match json mergeResponse with
        | inl rejected => throw rejected
        | inr mergeResult =>
            if negb (merge_success mergeResult) then
              throw ("Merge error: " +:+
                     default "undefined" (merge_error mergeResult))
            else
              let merged := default [] (mergedConcepts mergeResult) in
              let unmergedD1 :=
                (fun c => {| label := u_label c; description := u_description c;
                             elementIds := default [] (u_d1Ids c) |})
                  <$> default [] (unmergedD1Concepts mergeResult) in
              let unmergedD2 :=
                (fun c => {| label := u_label c; description := u_description c;
                             elementIds := default [] (u_d2Ids c) |})
                  <$> default [] (unmergedD2Concepts mergeResult) in
              emit (setProgress
                      {| phase := building_graph;
                         message := "Creating " +:+ pretty (List.length merged) +:+
                                    " merged concept nodes and edges...";
                         progress := 50;
                         d1ConceptCount := None; d2ConceptCount := None;
                         mergedCount := Some (List.length merged);
                         tesseractCurrent := None; tesseractTotal := None |}) ;;
              check_abort ;;
              ret {| d1Concepts_ := d1Concepts_ v; d2Concepts_ := d2Concepts_ v;
                     mergedConcepts_ := merged;
                     unmergedD1Concepts_ := unmergedD1;
                     unmergedD2Concepts_ := unmergedD2;
                     tesseractCells_ := tesseractCells_ v |}
        end
  end.

(** [allNodes?.find((n) => n.source_element_ids?.includes(elementId))]. *)
Definition find_node (allNodes : option (list NodeRow)) (elementId : string)
  : option NodeRow :=
  match allNodes with
  | Some nodes =>
      List.find (fun n => match source_element_ids n with
                          | Some ids => bool_decide (elementId ∈ ids)
                          | None => false
                          end) nodes
  | None => None
  end.

(** The loop that links the element nodes of [ids] to a concept node; the
    source has it four times, with ["defines"] for ids of Dataset 1 and
    ["implements"] for ids of Dataset 2. *)
Definition create_edges (allNodes : option (list NodeRow))
    (edge_type : string) (target : NodeRow) (ids : list string) : M unit :=
  for_each ids (fun elementId =>
    match find_node allNodes elementId with
    | Some elementNode =>
        let args := {| p_source_node_id := node_id elementNode;
                       p_target_node_id := node_id target;
                       p_edge_type := edge_type;
                       p_edge_label := edge_type |} in
        let* _ := call (insert_edge_reply env)
                       (fun r => [insert_audit_graph_edge args r]) in
        ret tt
    | None => ret tt
    end).

(** [if (conceptNode?.id) { ... }]: the upsert gave a row with an id. *)
Definition when_created (r : RpcResult NodeRow) (k : NodeRow -> M unit) : M unit :=
  match rpc_data r with
  | Some node => if String.eqb (node_id node) EmptyString then ret tt else k node
  | None => ret tt
  end.

Definition create_merged_node (allNodes : option (list NodeRow))
    (concept : MergedConcept) : M unit :=
  let args :=
    {| p_label := mergedLabel concept;
       p_description := mergedDescription concept;
       p_node_type := "concept";
       p_source_dataset := "both";
       p_source_element_ids := d1Ids concept ++ d2Ids concept;
       p_color := "#a855f7";
       p_size := 25;
       p_metadata := meta_merged (List.length (d1Ids concept))
                                 (List.length (d2Ids concept)) |} in
  let* r := call (upsert_node_reply env)
                 (fun r => [upsert_audit_graph_node args r]) in
  when_created r (fun conceptNode =>
    create_edges allNodes "defines" conceptNode (d1Ids concept) ;;
    create_edges allNodes "implements" conceptNode (d2Ids concept)).

Definition create_unmerged_node (allNodes : option (list NodeRow))
    (dataset color : string) (meta : Metadata) (edge_type : string)
    (concept : Concept) : M unit :=
  let args :=
    {| p_label := label concept;
       p_description := description concept;
       p_node_type := "concept";
       p_source_dataset := dataset;
       p_source_element_ids := elementIds concept;
       p_color := color;
       p_size := 22;
       p_metadata := meta |} in
  let* r := call (upsert_node_reply env)
                 (fun r => [upsert_audit_graph_node args r]) in
  when_created r (fun node =>
    create_edges allNodes edge_type node (elementIds concept)).

(** The node query and the three loops over the concepts. *)
Definition build_graph (v : Vars) : M unit :=
  let* got := call (get_nodes_reply env)
                   (fun r => [get_audit_graph_nodes r]) in
  let allNodes := rpc_data got in
  for_each (mergedConcepts_ v) (create_merged_node allNodes) ;;
  for_each (unmergedD1Concepts_ v)
    (create_unmerged_node allNodes "dataset1" "#ef4444" meta_gap "defines") ;;
  for_each (unmergedD2Concepts_ v)
    (create_unmerged_node allNodes "dataset2" "#f59e0b" meta_orphan "implements").

(** PHASE 2.5: build graph nodes for concepts and create edges. *)
Definition phase2_5 (v : Vars) : M Vars :=
  build_graph v ;;
  emit (setProgress
          {| phase := building_tesseract;
             message := "Analyzing " +:+
                        pretty (List.length (mergedConcepts_ v)) +:+
                        " merged concepts for alignment...";
             progress := 65;
             d1ConceptCount := None; d2ConceptCount := None;
             mergedCount := None; tesseractCurrent := None;
             tesseractTotal := Some (List.length (mergedConcepts_ v)) |}) ;;
  check_abort ;;
  ret v.

(** PHASE 3: build tesseract; a response that is not [ok] is tolerated. *)
Definition phase3 (v : Vars) : M Vars :=
  let* fetched := call (tesseract_reply env)
                       (fun _ => [fetch "audit-build-tesseract"]) in
  match fetched with
  | inl rejected => throw rejected
  | inr tesseractResponse =>
      let* tesseractCells :=
        if ok tesseractResponse then
          match json tesseractResponse with
          | inl rejected => throw rejected
          | inr tesseractResult =>
              ret (default [] (tesseractResult ≫= cells))
          end
        else
          emit (console_error "[Pipeline] Tesseract failed, continuing...") ;;
          ret []
      in
      emit (setProgress
              (report generating_venn "Generating final Venn analysis..." 85)) ;;
      check_abort ;;
      ret {| d1Concepts_ := d1Concepts_ v; d2Concepts_ := d2Concepts_ v;
             mergedConcepts_ := mergedConcepts_ v;
             unmergedD1Concepts_ := unmergedD1Concepts_ v;
             unmergedD2Concepts_ := unmergedD2Concepts_ v;
             tesseractCells_ := tesseractCells |}
  end.

(** PHASE 4: generate Venn, then mark the session completed. *)
Definition phase4 (v : Vars) : M Vars :=
  let* fetched := call (venn_reply env)
                       (fun _ => [fetch "audit-generate-venn"]) in
  match fetched with
  | inl rejected => throw rejected
  | inr _ =>
      emit (update_audit_session "completed" (Some "completed")) ;;
      emit (setProgress (report completed "Audit pipeline complete!" 100)) ;;
      ret v
  end.

(** The stages of the [try] block, in order. *)
Definition stages : list (Vars -> M Vars) :=
  [phase0; phase1; phase2; phase2_5; phase3; phase4].

(** Statements in sequence: a stage that throws ends the block. *)
Fixpoint run_stages (ss : list (Vars -> M Vars)) (v : Vars) : M Vars :=
  match ss with
  | [] => ret v
  | stage :: rest => let* v' := stage v in run_stages rest v'
  end.

(** The [catch] block. *)
Definition on_error (errMsg : string) : M unit :=
  emit (console_error "[Pipeline] Error:") ;;
  emit (setError (Some errMsg)) ;;
  emit (setProgress (report error errMsg 0)) ;;
  emit (update_audit_session "failed" None).

(** [setIsRunning(true); setError(null); abortRef.current = false]. *)
Definition start : State :=
  {| trace := [setIsRunning true; setError None]; calls := 0 |}.

(** [runPipeline]: what the run does, start to finish. *)
Definition runPipeline : list Event :=
  let after :=
    match run_stages stages initial_vars start with
    | (inr _, s) => s
    | (inl errMsg, s) => (on_error errMsg s).2
    end in
  trace after ++ [setIsRunning false].

End Run.

End Pipeline.

(* ===================================================================== *)
(** ** One round of the merge function (audit-merge-concepts, v2)         *)
(* ===================================================================== *)

Module Merger.

Import Merge Reply.

Local Open Scope Z_scope.

Inductive ApiType := anthropic | gemini | xai.

Record ModelConfig := {
  apiType : ApiType;
  modelName : string;
  apiKeyEnv : string;
}.

(** [s.startsWith(p)]. *)
Definition startsWith (s p : string) : bool := String.prefix p s.

(** [function getModelConfig(selectedModel)]. *)
Definition getModelConfig (selectedModel : string) : ModelConfig :=
  if startsWith selectedModel "claude" then
    {| apiType := anthropic; modelName := selectedModel;
       apiKeyEnv := "ANTHROPIC_API_KEY" |}
  else if startsWith selectedModel "gemini" then
    {| apiType := gemini; modelName := selectedModel;
       apiKeyEnv := "GEMINI_API_KEY" |}
  else if startsWith selectedModel "grok" then
    {| apiType := xai; modelName := selectedModel; apiKeyEnv := "XAI_API_KEY" |}
  else
    {| apiType := gemini; modelName := "gemini-2.5-flash";
       apiKeyEnv := "GEMINI_API_KEY" |}.

(** [interface ProjectSettings]. *)
Record ProjectSettings := {
  selected_model : option string;
  max_tokens : option Z;
}.

(** [project?.selected_model || "gemini-2.5-flash"]. *)
Definition selectedModel_of (project : option ProjectSettings) : string :=
  match project ≫= selected_model with
  | Some m => if String.eqb m EmptyString then "gemini-2.5-flash" else m
  | None => "gemini-2.5-flash"
  end.

(** [project?.max_tokens || 16384]. *)
Definition maxTokens_of (project : option ProjectSettings) : Z :=
  match project ≫= max_tokens with
  | Some n => if n =? 0 then 16384 else n
  | None => 16384
  end.

(** What [callLLM] sees of the provider's HTTP response: [ok], [status],
    the text of an error body, and for a good response the value at the
    provider's text path of the decoded body, [None] when
    [response.json()] rejects. *)
Record LlmResponse := {
  llm_ok : bool;
  llm_status : Z;
  llm_errorText : string;
  llm_body : option (option string);
}.

(** The provider's name in the error message of its branch. *)
Definition provider_name (t : ApiType) : string :=
  match t with
  | anthropic => "Anthropic"
  | gemini => "Gemini"
  | xai => "xAI"
  end.

(** [async function callLLM(prompt, config, maxTokens)].  The three
    branches differ in the request they build, in the provider's name and
    in the path of the text; [reply] is what [fetch] resolves to, or what
    it rejects with. *)
Definition callLLM (getenv : string -> option string) (config : ModelConfig)
    (reply : Thrown + LlmResponse) : Thrown + string :=
  let missing := Error ("API key not configured: " +:+ apiKeyEnv config) in
  match getenv (apiKeyEnv config) with
  | None => inl missing
  | Some apiKey =>
      if String.eqb apiKey EmptyString then inl missing
      else match reply with
           | inl rejected => inl rejected
           | inr response =>
               if negb (llm_ok response) then
                 inl (Error (provider_name (apiType config) +:+ " API error: " +:+
                             pretty (llm_status response) +:+ " - " +:+
                             String.substring 0 300 (llm_errorText response)))
               else match llm_body response with
                    | None => inl SyntaxError
                    | Some text => inr (rawText_of text)
                    end
           end
  end.

(** [interface MergeResponse]. *)
Record MergeResponse := {
  res_concepts : list UnifiedConcept;          (* [concepts] *)
  res_mergeLog : list MergeLogEntry;           (* [mergeLog] *)
  inputCount : nat;
  outputCount : nat;
  d1ElementCount : nat;
  d2ElementCount : nat;
}.

(** What [sendSSE] writes to the stream. *)
Inductive SSE :=
| progress (message : string) (percent : Z)
| result (response : MergeResponse)
| done
| error (thrown : Thrown).

Section Round.

Variable toLowerCase : string -> string.

(** [JSON.parse], as in [Reply]. *)
Variable parse : string -> option json.

(** The parsed reply read at its declared type
    [{ merges: Array<{ sourceConcepts; mergedLabel; mergedDescription }> }]:
    the groups of [parsed.merges], if any, or what reading them throws. *)
Variable merges_of : json -> Thrown + option (list MergeGroup).

(** [Deno.env.get]. *)
Variable getenv : string -> option string.

(** The [async] body of [serve], from the decoded request and the project
    row to the events of the stream.  The stream is taken to stay open;
    the activity entry written before the result is not part of it. *)
Definition serve (project : option ProjectSettings)
    (concepts : list UnifiedConcept) (round totalRounds : Z)
    (reply : Thrown + LlmResponse) : list SSE :=
  let selectedModel := selectedModel_of project in
  let modelConfig := getModelConfig selectedModel in
  let inputD1Count := countD1 concepts in
  let inputD2Count := countD2 concepts in
  progress ("Round " +:+ pretty round +:+ "/" +:+ pretty totalRounds +:+
            ": Analyzing " +:+ pretty (List.length concepts) +:+
            " concepts...") 10 ::
  progress ("Calling " +:+ selectedModel +:+ "...") 30 ::
  match callLLM getenv modelConfig reply with
  | inl e => [error e]
  | inr rawText =>
      progress "Processing merge instructions..." 60 ::
      match merger_parse parse rawText with
      | inl e => [error e]
      | inr parsed =>
          match merges_of parsed with
          | inl e => [error e]
          | inr merges =>
              let out := reconcile toLowerCase concepts merges in
              let outputD1Count := countD1 out.1 in
              let outputD2Count := countD2 out.1 in
              [progress "Merge complete" 90;
               result {| res_concepts := out.1;
                         res_mergeLog := out.2;
                         inputCount := List.length concepts;
                         outputCount := List.length out.1;
                         d1ElementCount := outputD1Count;
                         d2ElementCount := outputD2Count |};
               done]
          end
      end
  end.

End Round.

(** The typed view of a reply of the declared shape, for the examples.
    A reply outside that shape is answered with [TypeError], which the
    code does for part of them only. *)
Definition label_of (j : json) : Thrown + string :=
  match j with
  | JString s => inr s
  | _ => inl TypeError
  end.

Fixpoint labels_of (items : list json) : Thrown + list string :=
  match items with
  | [] => inr []
  | j :: r =>
      match label_of j, labels_of r with
      | inr l, inr ls => inr (l :: ls)
      | inl e, _ | _, inl e => inl e
      end
  end.

Definition group_of (j : json) : Thrown + MergeGroup :=
  match j with
  | JObject ms =>
      match member "sourceConcepts" ms, member "mergedLabel" ms,
            member "mergedDescription" ms with
      | Some (JArray items), Some (JString l), Some (JString d) =>
          match labels_of items with
          | inr ls => inr {| sourceConcepts := Some ls; mergedLabel := l;
                             mergedDescription := d |}
          | inl e => inl e
          end
      | _, _, _ => inl TypeError
      end
  | _ => inl TypeError
  end.

Fixpoint groups_of (items : list json) : Thrown + list MergeGroup :=
  match items with
  | [] => inr []
  | j :: r =>
      match group_of j, groups_of r with
      | inr g, inr gs => inr (g :: gs)
      | inl e, _ | _, inl e => inl e
      end
  end.

Definition typed_merges (parsed : json) : Thrown + option (list MergeGroup) :=
  match parsed with
  | JObject ms =>
      match member "merges" ms with
      | None => inr None
      | Some (JArray items) =>
          match groups_of items with
          | inr gs => inr (Some gs)
          | inl e => inl e
          end
      | Some _ => inl TypeError
      end
  | _ => inl TypeError
  end.

End Merger.

(* ===================================================================== *)
(** ** Creating standards from a model reply (ai-create-standards)        *)
(* ===================================================================== *)

Module Standards.

Import Reply.

Local Open Scope Z_scope.

#[local] Set Warnings "-register-all".

(** *** Cleaning the reply *)

(** [s.replace(/pat\n?/g, '')] for a literal [pat]: the text is scanned
    from the left; where [pat] matches, the match and a newline that
    follows it are dropped and scanning resumes after them.  [skip]
    counts the characters of the current match still to be dropped. *)
Fixpoint remove_all (pat : string) (skip : nat) (s : string) : string :=
  match s with
  | EmptyString => EmptyString
  | String c r =>
      match skip with
      | S k => remove_all pat k r
      | O =>
          match strip_prefix pat s with
          | Some rest =>
              let newline :=
                match rest with
                | String "010" _ => 1%nat
                | _ => 0%nat
                end in
              remove_all pat (String.length pat - 1 + newline) r
          | None => String c (remove_all pat 0 r)
          end
      end
  end.

(** [generatedText.replace(/```json\n?/g, '').replace(/```\n?/g, '')]. *)
Definition strip_fences (generatedText : string) : string :=
  remove_all "```" 0 (remove_all "```json" 0 generatedText).

(** *** The standards of the reply and the rows written *)

(** One entry of the reply ([standard: any]) read at the shape the prompt
    asks for: [null], or a value with optional [code], [title],
    [description], [content], and [children] when that is an array. *)
Record StandardFields := {
  code : option string;
  title : option string;
  description : option string;
  content : option string;
}.

Inductive Standard :=
| SNull
| SNode (fields : StandardFields) (children : option (list Standard)).

(** The row given to [.insert(...)]; [category_id] is the request's in
    every call. *)
Record InsertArgs := {
  row_code : option string;
  row_title : option string;
  row_description : option string;
  row_content : option string;
  parent_id : option string;
  order_index : nat;
}.

(** [x || null] on an optional text. *)
Definition orNull (x : option string) : option string :=
  match x with
  | Some t => if String.eqb t EmptyString then None else Some t
  | None => None
  end.

(** What the run does that can be seen from outside. *)
Inductive Event :=
| select_standards                        (* the query for existing standards *)
| ai_request                              (* the request to the AI gateway *)
| insert_standard (args : InsertArgs) (reply : string + string).
  (* [{ data, error }] of an insert: the error, or the id of the new row *)

(** The database: the answer to the insert made as the [n]-th call. *)
Record Env := {
  insert_reply : nat -> InsertArgs -> string + string;
}.

Record State := {
  createdCount : nat;
  trace : list Event;
  calls : nat;
}.

Definition M (A : Type) : Type := State -> (Thrown + A) * State.

Definition ret {A} (a : A) : M A := fun s => (inr a, s).

Definition bind {A B} (m : M A) (k : A -> M B) : M B :=
  fun s => match m s with
           | (inl e, s') => (inl e, s')
           | (inr a, s') => k a s'
           end.

Definition throw {A} (e : Thrown) : M A := fun s => (inl e, s).

Notation "m ';;' k" := (bind m (fun _ => k))
  (at level 100, k at level 200, right associativity).

(** [for (const x of xs) await body(x)]. *)
Definition for_each {A} (body : A -> M unit) : list A -> M unit :=
  fix go (xs : list A) : M unit :=
    match xs with
    | [] => ret tt
    | x :: r => body x ;; go r
    end.

Section Inserting.

Variable env : Env.

(** The insert itself, with [order_index: createdCount]. *)
Definition insert (fields : StandardFields) (parentId : option string)
  : M (string + string) :=
  fun s =>
    let args := {| row_code := code fields;
                   row_title := title fields;
                   row_description := orNull (description fields);
                   row_content := orNull (content fields);
                   parent_id := parentId;
                   order_index := createdCount s |} in
    let r := insert_reply env (calls s) args in
    (inr r, {| createdCount := createdCount s;
               trace := trace s ++ [insert_standard args r];
               calls := S (calls s) |}).

(** [createdCount++]. *)
Definition count_created : M unit :=
  fun s => (inr tt, {| createdCount := S (createdCount s);
                       trace := trace s; calls := calls s |}).

(** [const insertStandard = async (standard, parentId = null) => ...].
    Reading [standard.code] of [null] throws. *)
Fixpoint insertStandard (standard : Standard) (parentId : option string)
  : M unit :=
  match standard with
  | SNull => throw TypeError
  | SNode fields children =>
      bind (insert fields parentId) (fun r =>
        match r with
        | inl insertError => ret tt                     (* [return null] *)
        | inr id =>
            count_created ;;
            match children with
            | Some cs => for_each (fun child => insertStandard child (Some id)) cs
            | None => ret tt
            end
        end)
  end.

(** [for (const standard of standardsData) await insertStandard(standard)]. *)
Definition insertAll (standardsData : list Standard) : M unit :=
  for_each (fun standard => insertStandard standard None) standardsData.

End Inserting.

(** *** The function *)

(** The body of the request, the secrets, the gateway's response. *)
Record Request := {
  input : option string;
  categoryId : option string;
}.

Record Secrets := {
  LOVABLE_API_KEY : option string;
  SUPABASE_URL : option string;
  SUPABASE_SERVICE_ROLE_KEY : option string;
}.

(** [aiResponse]: [ok], [status], and [aiData.choices[0].message.content]
    or what reading it throws. *)
Record AiResponse := {
  ai_ok : bool;
  ai_status : Z;
  ai_content : Thrown + string;
}.

(** The response of the function: 200 with [createdCount], or 500 with
    the message of what was thrown. *)
Inductive Response :=
| Created (count : nat)
| Failed (e : Thrown).

(** [!x] on an optional text. *)
Definition missing (x : option string) : bool :=
  match x with
  | Some t => String.eqb t EmptyString
  | None => true
  end.

Section Serving.

Variable env : Env.

(** [String.prototype.trim] and [JSON.parse], parameters as in [Reply]. *)
Variable trim : string -> string.
Variable parse : string -> option json.

(** One entry of the parsed array read as a [Standard]. *)
Variable standard_of : json -> Standard.

Definition serve (req : Request) (secrets : Secrets)
    (ai : Thrown + AiResponse) : Response * list Event :=
  if missing (input req) || missing (categoryId req) then
    (Failed (Error "Input text and category ID are required"), [])
  else if missing (LOVABLE_API_KEY secrets) then
    (Failed (Error "LOVABLE_API_KEY is not configured"), [])
  else if missing (SUPABASE_URL secrets)
          || missing (SUPABASE_SERVICE_ROLE_KEY secrets) then
    (Failed (Error "Supabase configuration missing"), [])
  else
    let asked := [select_standards; ai_request] in
    match ai with
    | inl rejected => (Failed rejected, asked)
    | inr aiResponse =>
        if negb (ai_ok aiResponse) then
          (Failed (Error
             (if ai_status aiResponse =? 429 then
                "Rate limit exceeded. Please try again later."
              else if ai_status aiResponse =? 402 then
                "Payment required. Please add credits to your Lovable AI workspace."
              else "AI gateway error: " +:+ pretty (ai_status aiResponse))),
           asked)
        else
          match ai_content aiResponse with
          | inl e => (Failed e, asked)
          | inr generatedText =>
              match parse (trim (strip_fences generatedText)) with
              | None =>
                  (Failed (Error "Failed to parse AI response as JSON"), asked)
              | Some (JArray standardsData) =>
                  match insertAll env (standard_of <$> standardsData)
                          {| createdCount := 0; trace := asked; calls := 0 |} with
                  | (inr _, s) => (Created (createdCount s), trace s)
                  | (inl e, s) => (Failed e, trace s)
                  end
              | Some _ => (Failed (Error "AI response is not an array"), asked)
              end
          end
    end.

End Serving.

(** An instance of [standard_of] for replies whose texts are strings. *)
Definition text_member (name : string) (ms : list (string * json))
  : option string :=
  match member name ms with
  | Some (JString t) => Some t
  | _ => None
  end.

Fixpoint standard_of_json (j : json) : Standard :=
  match j with
  | JNull => SNull
  | JObject ms =>
      SNode {| code := text_member "code" ms; title := text_member "title" ms;
               description := text_member "description" ms;
               content := text_member "content" ms |}
            (default None
               ((fix children (ms : list (string * json))
                   : option (option (list Standard)) :=
                   match ms with
                   | [] => None
                   | (k, v) :: r =>
                       match children r with
                       | Some found => Some found
                       | None =>
                           if String.eqb k "children" then
                             Some (match v with
                                   | JArray items =>
                                       Some (List.map standard_of_json items)
                                   | _ => None
                                   end)
                           else None
                       end
                   end) ms))
  | _ => SNode {| code := None; title := None; description := None;
                  content := None |} None
  end.

End Standards.

(* ===================================================================== *)
(** ** The checks of decompose-requirements before the model is called    *)
(* ===================================================================== *)

Module Decompose.

Import Reply.

Local Open Scope Z_scope.

(** [[0-9a-f]] under the [i] flag. *)
Definition is_hex (c : ascii) : bool :=
  let n := nat_of_ascii c in
  bool_decide (48 <= n <= 57)%nat || bool_decide (97 <= n <= 102)%nat
  || bool_decide (65 <= n <= 70)%nat.

(** [[0-9a-f]{n}] at the start of [s]: the rest of the text. *)
Fixpoint hex_run (n : nat) (s : string) : option string :=
  match n with
  | O => Some s
  | S k =>
      match s with
      | String c r => if is_hex c then hex_run k r else None
      | EmptyString => None
      end
  end.

(** [-] at the start of [s]. *)
Definition dash (s : string) : option string :=
  match s with
  | String c r => if Ascii.eqb c "-" then Some r else None
  | EmptyString => None
  end.

(** [uuidRegex.test(projectId)] for
    [/^[0-9a-f]{8}-[0-9a-f]{4}-[0-9a-f]{4}-[0-9a-f]{4}-[0-9a-f]{12}$/i]. *)
Definition uuidRegex_test (projectId : string) : bool :=
  let matched : option string :=
    s1 ← hex_run 8 projectId; s2 ← dash s1;
    s3 ← hex_run 4 s2; s4 ← dash s3;
    s5 ← hex_run 4 s4; s6 ← dash s5;
    s7 ← hex_run 4 s6; s8 ← dash s7;
    hex_run 12 s8 in
  match matched with
  | Some EmptyString => true
  | _ => false
  end.

(** [attachedContext]: whether [projectMetadata] is there, and the
    [length] of each list that is. *)
Record AttachedContext := {
  projectMetadata : bool;
  artifacts : option nat;
  requirements : option nat;
  standards : option nat;
  techStacks : option nat;
  canvasNodes : option nat;
  chatSessions : option nat;
  files : option nat;
}.

(** [xs?.length] as a condition. *)
Definition nonempty (len : option nat) : bool :=
  match len with
  | Some n => negb (n =? 0)%nat
  | None => false
  end.

(** [const hasAttachedContext = attachedContext && (...)], as a
    condition. *)
Definition hasAttachedContext (attachedContext : option AttachedContext) : bool :=
  match attachedContext with
  | Some c =>
      projectMetadata c || nonempty (artifacts c) || nonempty (requirements c)
      || nonempty (standards c) || nonempty (techStacks c)
      || nonempty (canvasNodes c) || nonempty (chatSessions c)
      || nonempty (files c)
  | None => false
  end.

(** The fields read from the body of the request. *)
Record Body := {
  text : option string;
  projectId : option string;
  shareToken : option string;
  attachedContext : option AttachedContext;
}.

(** [!x] on an optional text. *)
Definition missing (x : option string) : bool :=
  match x with
  | Some t => String.eqb t EmptyString
  | None => true
  end.

(** The statements of the [try] block up to the line that logs
    [text.length]: what they throw, or nothing.  [key] is the value of
    [LOVABLE_API_KEY] and [tokenError] the error, if any, that
    [set_share_token] answers with when it is called. *)
Definition checks (body : Body) (key : option string)
    (tokenError : option string) : Thrown + unit :=
  if missing (projectId body) then
    inl (Error "Missing required parameter: projectId")
  else if missing (text body) && negb (hasAttachedContext (attachedContext body)) then
    inl (Error "Please provide either text to decompose or project context")
  else if negb (uuidRegex_test (default EmptyString (projectId body))) then
    inl (Error ("Invalid projectId format. Received: " +:+
                default EmptyString (projectId body) +:+
                ". Expected a valid UUID."))
  else if missing key then
    inl (Error "LOVABLE_API_KEY is not configured")
  else if negb (missing (shareToken body)) && bool_decide (is_Some tokenError) then
    inl (Error "Invalid share token")
  else
    match text body with
    | None => inl TypeError                      (* [text.length] *)
    | Some _ => inr tt
    end.

(** The response of the function: what the rest of the [try] block
    answers, or the 500 response of the [catch]. *)
Inductive Response (A : Type) :=
| Answered (answer : A)
| Failed (e : Thrown).
Arguments Answered {A} _.
Arguments Failed {A} _.

Definition serve {A} (body : Body) (key : option string)
    (tokenError : option string) (rest : A) : Response A :=
  match checks body key tokenError with
  | inl e => Failed e
  | inr _ => Answered rest
  end.

End Decompose.

(* ===================================================================== *)
(** ** Properties of the merge reconciliation                             *)
(* ===================================================================== *)

Module MergeFacts.

Import Merge.

#[local] Set Warnings "-clear-no-such-hyp".

(** *** Basic facts about the building blocks *)

Section SetFacts.

Lemma elem_of_Set_fold (acc xs : list string) (x : string) :
  x ∈ foldl Set_add acc xs <-> x ∈ acc \/ x ∈ xs.
Proof.
  revert acc. induction xs as [|y xs IH]; intros acc; simpl.
  - rewrite elem_of_nil. tauto.
  - rewrite IH. unfold Set_add. rewrite elem_of_cons.
    destruct (decide (y ∈ acc)) as [Hin|Hout].
    + split; [tauto|]. intros [H|[->|H]]; auto.
    + rewrite elem_of_app, list_elem_of_singleton. tauto.
Qed.

Lemma elem_of_Set_from (xs : list string) (x : string) :
  x ∈ Set_from xs <-> x ∈ xs.
Proof.
  unfold Set_from. rewrite elem_of_Set_fold, elem_of_nil. tauto.
Qed.



Lemma Set_fold_keeps_NoDup (acc xs : list string) :
  NoDup acc -> NoDup (foldl Set_add acc xs).
Proof.
  revert acc. induction xs as [|y xs IH]; intros acc Hnd; simpl; [done|].
  apply IH. unfold Set_add. destruct (decide (y ∈ acc)); [done|].
  apply NoDup_app. split_and!; [done| |apply NoDup_singleton].
  intros z Hz ->%list_elem_of_singleton. done.
Qed.

Lemma Set_from_is_NoDup (xs : list string) : NoDup (Set_from xs).
Proof. apply Set_fold_keeps_NoDup, NoDup_nil_2. Qed.

End SetFacts.

(** The flattened id lists of a concept list, and the counts as lengths. *)
Definition ids1 (c : UnifiedConcept) : list string := orEmpty (d1Ids c).
Definition ids2 (c : UnifiedConcept) : list string := orEmpty (d2Ids c).

Lemma count_fold (f : UnifiedConcept -> list string) (cs : list UnifiedConcept)
    (n : nat) :
  foldl (fun sum c => sum + length (f c)) n cs = n + length (flat_map f cs).
Proof.
  revert n. induction cs as [|c cs IH]; intros n; simpl; [lia|].
  rewrite IH, length_app. lia.
Qed.

Lemma countD1_length cs : countD1 cs = length (flat_map ids1 cs).
Proof. unfold countD1. apply (count_fold ids1 cs 0). Qed.

Lemma countD2_length cs : countD2 cs = length (flat_map ids2 cs).
Proof. unfold countD2. apply (count_fold ids2 cs 0). Qed.

(** *** Disjointness of id lists within one generation of concepts *)

(** Two id lists share no element. *)
Definition ids_disjoint (a b : list string) : Prop :=
  forall x, x ∈ a -> x ∈ b -> False.

(** Any two concepts at distinct positions of [cs] have disjoint [f]-ids. *)
Definition pairwise_disjoint (f : UnifiedConcept -> list string)
    (cs : list UnifiedConcept) : Prop :=
  forall i j c c', i <> j -> cs !! i = Some c -> cs !! j = Some c' ->
                   ids_disjoint (f c) (f c').

(** The same, by recursion on the list: each concept is disjoint from all
    later ones. *)
Fixpoint separated (f : UnifiedConcept -> list string)
    (cs : list UnifiedConcept) : Prop :=
  match cs with
  | [] => True
  | c :: r => Forall (fun c' => ids_disjoint (f c) (f c')) r /\ separated f r
  end.

Section Separation.

Variable f : UnifiedConcept -> list string.

Lemma ids_disjoint_sym a b : ids_disjoint a b -> ids_disjoint b a.
Proof. intros H x Hb Ha. exact (H x Ha Hb). Qed.

Lemma pairwise_separated cs : pairwise_disjoint f cs -> separated f cs.
Proof.
  induction cs as [|c cs IH]; intros H; simpl; [done|]. split.
  - apply Forall_lookup. intros j c' Hj.
    apply (H 0 (S j)); [lia|done|done].
  - apply IH. intros i j a b Hij Hi Hj.
    apply (H (S i) (S j)); [lia|done|done].
Qed.

Lemma separated_pairwise cs : separated f cs -> pairwise_disjoint f cs.
Proof.
  induction cs as [|c cs IH]; intros Hs i j a b Hij Hi Hj.
  - by rewrite lookup_nil in Hi.
  - destruct Hs as [Hhd Htl]. rewrite Forall_lookup in Hhd.
    destruct i as [|i], j as [|j]; simpl in *; simplify_eq.
    + by apply (Hhd j).
    + apply ids_disjoint_sym. by apply (Hhd i).
    + apply (IH Htl i j); [lia|done|done].
Qed.

Lemma separated_app a b :
  separated f a -> separated f b ->
  (forall c c', c ∈ a -> c' ∈ b -> ids_disjoint (f c) (f c')) ->
  separated f (a ++ b).
Proof.
  induction a as [|c a IH]; intros Ha Hb Hab; simpl; [done|].
  destruct Ha as [Hhd Htl]. split.
  - apply Forall_app. split; [done|].
    apply Forall_forall. intros c' Hc'. apply Hab; [by left|done].
  - apply IH; [done|done|]. intros ? ? ? ?. apply Hab; [by right|done].
Qed.

Lemma separated_filter (P : UnifiedConcept -> Prop)
    `{forall c, Decision (P c)} cs :
  separated f cs -> separated f (filter P cs).
Proof.
  induction cs as [|c cs IH]; intros Hs; [done|]. destruct Hs as [Hhd Htl].
  rewrite filter_cons. destruct (decide (P c)); [|by apply IH].
  split; [|by apply IH].
  rewrite Forall_forall in Hhd. apply Forall_forall.
  intros c' [_ Hc']%list_elem_of_filter. by apply Hhd.
Qed.

Lemma separated_elem cs c c' :
  separated f cs -> c ∈ cs -> c' ∈ cs -> c <> c' -> ids_disjoint (f c) (f c').
Proof.
  induction cs as [|c0 cs IH]; intros Hs Hc Hc' Hne.
  - by apply elem_of_nil in Hc.
  - destruct Hs as [Hhd Htl]. rewrite Forall_forall in Hhd.
    apply elem_of_cons in Hc as [->|Hc], Hc' as [->|Hc'].
    + done.
    + by apply Hhd.
    + apply ids_disjoint_sym. by apply Hhd.
    + by apply IH.
Qed.

End Separation.

(** *** The lookup table, the inner loop and the outer loop *)

Section ReconciliationFacts.

Variable toLowerCase : string -> string.

Local Abbreviation key := (key toLowerCase).
Local Abbreviation conceptByLabel := (conceptByLabel toLowerCase).
Local Abbreviation resolve_label := (resolve_label toLowerCase).
Local Abbreviation resolve := (resolve toLowerCase).
Local Abbreviation process_merge := (process_merge toLowerCase).
Local Abbreviation process_merges := (process_merges toLowerCase).
Local Abbreviation passThrough := (passThrough toLowerCase).
Local Abbreviation reconcile := (reconcile toLowerCase).

(** Every entry of the table is a concept of [cs] filed under its key. *)
Definition well_keyed (cs : list UnifiedConcept)
    (B : gmap string UnifiedConcept) : Prop :=
  forall k c, B !! k = Some c -> c ∈ cs /\ key c = k.

Lemma table_fold_lookup cs (m : gmap string UnifiedConcept) k c :
  foldl (fun m c => <[key c := c]> m) m cs !! k = Some c ->
  (c ∈ cs /\ key c = k) \/ m !! k = Some c.
Proof.
  revert m. induction cs as [|c0 cs IH]; intros m; simpl; [auto|].
  intros [[Hin Hk]|Hm]%IH.
  - left. split; [by right|done].
  - destruct (decide (key c0 = k)) as [<-|Hne].
    + rewrite lookup_insert_eq in Hm. injection Hm as ->.
      left. split; [by left|done].
    + rewrite lookup_insert_ne in Hm by done. by right.
Qed.

Lemma conceptByLabel_well_keyed cs : well_keyed cs (conceptByLabel cs).
Proof.
  intros k c [H|H]%table_fold_lookup; [done|].
  by rewrite lookup_empty in H.
Qed.

Lemma table_fold_other cs (m : gmap string UnifiedConcept) k :
  k ∉ key <$> cs ->
  foldl (fun m c => <[key c := c]> m) m cs !! k = m !! k.
Proof.
  revert m. induction cs as [|c0 cs IH]; intros m Hk; simpl; [done|].
  rewrite fmap_cons, not_elem_of_cons in Hk. destruct Hk as [Hne Hk].
  rewrite IH by done. by rewrite lookup_insert_ne.
Qed.

(** With pairwise distinct keys the table finds every concept. *)
Lemma conceptByLabel_complete cs c :
  NoDup (key <$> cs) -> c ∈ cs -> conceptByLabel cs !! key c = Some c.
Proof.
  unfold Merge.conceptByLabel. generalize (∅ : gmap string UnifiedConcept).
  induction cs as [|c0 cs IH]; intros m Hnd Hin; simpl.
  - by apply elem_of_nil in Hin.
  - rewrite fmap_cons in Hnd. apply NoDup_cons in Hnd as [Hfresh Hnd].
    apply elem_of_cons in Hin as [->|Hin].
    + rewrite table_fold_other by done. apply lookup_insert_eq.
    + by apply IH.
Qed.

(** What the inner loop maintains, for a group started with the marks
    [ml] and the labels [labels]. *)
Record resolve_inv (B : gmap string UnifiedConcept) (ml : gset string)
    (r : Resolved) : Prop := {
  ri_marked : marked r = ml ∪ list_to_set (key <$> validSources r);
  ri_nodup : NoDup (key <$> validSources r);
  ri_fresh : forall c, c ∈ validSources r -> key c ∉ ml;
  ri_lookup : forall c, c ∈ validSources r -> B !! key c = Some c;
  ri_labels : validSourceLabels r = label <$> validSources r;
}.

Lemma resolve_label_inv cs B ml r lbl :
  well_keyed cs B -> resolve_inv B ml r ->
  resolve_inv B ml (resolve_label B r lbl).
Proof.
  intros HB [Hm Hnd Hfr Hlk Hlb]. unfold Merge.resolve_label.
  destruct (decide (toLowerCase lbl ∈ marked r)) as [Hin|Hout];
    [by constructor|].
  destruct (B !! toLowerCase lbl) as [found|] eqn:Hfound; [|by constructor].
  destruct (HB _ _ Hfound) as [_ Hkey].
  rewrite Hm in Hout. apply not_elem_of_union in Hout as [Hml Hvs].
  rewrite elem_of_list_to_set in Hvs.
  constructor; simpl.
  - rewrite Hm, fmap_app, list_to_set_app_L. simpl. rewrite Hkey. set_solver.
  - rewrite fmap_app. apply NoDup_app. split_and!; [done| |apply NoDup_singleton].
    simpl. intros k Hk ->%list_elem_of_singleton. by rewrite Hkey in Hk.
  - intros c [Hc| ->%list_elem_of_singleton]%elem_of_app; [by apply Hfr|].
    by rewrite Hkey.
  - intros c [Hc| ->%list_elem_of_singleton]%elem_of_app; [by apply Hlk|].
    by rewrite Hkey.
  - by rewrite fmap_app, Hlb.
Qed.

Lemma resolve_fold_inv cs B ml labels r :
  well_keyed cs B -> resolve_inv B ml r ->
  resolve_inv B ml (foldl (resolve_label B) r labels).
Proof.
  intros HB. revert r. induction labels as [|l labels IH]; intros r Hr;
    simpl; [done|].
  apply IH. by eapply resolve_label_inv.
Qed.

Lemma resolve_spec cs B ml labels :
  well_keyed cs B -> resolve_inv B ml (resolve B ml labels).
Proof.
  intros HB. eapply resolve_fold_inv; [done|].
  constructor; simpl; [set_solver|apply NoDup_nil_2|set_solver|set_solver|done].
Qed.

(** The inner loop only ever marks keys of labels the group lists. *)
Lemma resolve_fold_marked B r labels :
  marked (foldl (resolve_label B) r labels)
    ⊆ marked r ∪ list_to_set (toLowerCase <$> labels).
Proof.
  revert r. induction labels as [|l labels IH]; intros r; simpl;
    [set_solver|].
  etrans; [apply IH|]. unfold Merge.resolve_label.
  destruct (decide (toLowerCase l ∈ marked r)); [set_solver|].
  destruct (B !! toLowerCase l); simpl; set_solver.
Qed.

(** A group that resolves to fewer than two valid sources leaves the
    whole state of the outer loop as it found it. *)
Lemma process_merge_discard cs B st m :
  well_keyed cs B ->
  length (validSources (resolve B (mergedLabels st) (orEmpty (sourceConcepts m)))) < 2 ->
  process_merge B st m = st.
Proof.
  intros HB Hlen. unfold Merge.process_merge.
  pose proof (resolve_spec cs B (mergedLabels st)
                (orEmpty (sourceConcepts m)) HB) as [Hm _ Hfr _ _].
  set (r := resolve B (mergedLabels st) (orEmpty (sourceConcepts m))) in *.
  rewrite bool_decide_eq_false_2 by lia.
  destruct st as [ml out lg]; simpl in *.
  destruct (validSources r) as [|c [|c' vs]] eqn:Hvs; simpl in *; [| |lia].
  - f_equal. rewrite Hm. set_solver.
  - f_equal. rewrite Hm. simpl.
    assert (key c ∉ ml) by (apply Hfr; set_solver). set_solver.
Qed.

(** What the outer loop maintains.  [G] lists, group by group, the source
    concepts consumed by the merged concepts emitted so far. *)
Record process_inv (B : gmap string UnifiedConcept) (st : State)
    (G : list (list UnifiedConcept)) : Prop := {
  pi_marked : mergedLabels st = list_to_set (key <$> concat G);
  pi_nodup : NoDup (key <$> concat G);
  pi_lookup : forall c, c ∈ concat G -> B !! key c = Some c;
  pi_output : Forall2 (fun o g => exists m, o = mergedConcept m g)
                      (outputConcepts st) G;
  pi_log : Forall2 (fun e g => from e = label <$> g) (mergeLog st) G;
}.

Lemma process_inv_init B : process_inv B init [].
Proof.
  constructor; simpl;
    [done|apply NoDup_nil_2|set_solver|constructor|constructor].
Qed.

Lemma process_merge_inv cs B st G m :
  well_keyed cs B -> process_inv B st G ->
  exists G', process_inv B (process_merge B st m) G'.
Proof.
  intros HB Hinv.
  destruct (decide (length (validSources
              (resolve B (mergedLabels st) (orEmpty (sourceConcepts m)))) < 2))
    as [Hlt|Hge].
  - exists G. by rewrite (process_merge_discard cs).
  - pose proof (resolve_spec cs B (mergedLabels st)
                  (orEmpty (sourceConcepts m)) HB) as [Hm Hnd Hfr Hlk Hlb].
    destruct Hinv as [Pm Pnd Plk Pout Plog].
    unfold Merge.process_merge. rewrite bool_decide_eq_true_2 by lia.
    set (r := resolve B (mergedLabels st) (orEmpty (sourceConcepts m))) in *.
    exists (G ++ [validSources r]). constructor; simpl.
    + rewrite Hm, Pm, concat_app, fmap_app, list_to_set_app_L. simpl.
      by rewrite app_nil_r.
    + rewrite concat_app, fmap_app. simpl. rewrite app_nil_r.
      apply NoDup_app. split_and!; [done| |done].
      intros k Hk (c & -> & Hc)%list_elem_of_fmap.
      apply (Hfr c Hc). rewrite Pm. by apply elem_of_list_to_set.
    + intros c. rewrite concat_app, elem_of_app. simpl. rewrite app_nil_r.
      intros [?|?]; auto.
    + apply Forall2_app; [done|]. constructor; [by eexists|constructor].
    + apply Forall2_app; [done|]. constructor; [done|constructor].
Qed.

Lemma process_fold_inv cs B ms st G :
  well_keyed cs B -> process_inv B st G ->
  exists G', process_inv B (foldl (process_merge B) st ms) G'.
Proof.
  intros HB. revert st G. induction ms as [|m ms IH]; intros st G Hinv; simpl.
  - by exists G.
  - destruct (process_merge_inv cs B st G m HB Hinv) as [G' HG'].
    by apply (IH _ G').
Qed.

Lemma process_merges_inv cs ms :
  exists G, process_inv (conceptByLabel cs) (process_merges cs ms) G.
Proof.
  eapply process_fold_inv;
    [apply conceptByLabel_well_keyed|apply process_inv_init].
Qed.

(** The outer loop only marks keys of labels that some group lists. *)
Lemma process_fold_marked B ms st :
  mergedLabels (foldl (process_merge B) st ms)
    ⊆ mergedLabels st ∪
      list_to_set (toLowerCase <$> flat_map (fun m => orEmpty (sourceConcepts m)) ms).
Proof.
  revert st. induction ms as [|m ms IH]; intros st; simpl; [set_solver|].
  etrans; [apply IH|].
  rewrite fmap_app, list_to_set_app_L.
  assert (mergedLabels (process_merge B st m)
            ⊆ mergedLabels st ∪
              list_to_set (toLowerCase <$> orEmpty (sourceConcepts m))) as Hstep.
  { unfold Merge.process_merge, Merge.resolve.
    pose proof (resolve_fold_marked B
      {| validSources := []; validSourceLabels := [];
         marked := mergedLabels st |} (orEmpty (sourceConcepts m))) as Hsub.
    simpl in Hsub.
    repeat case_bool_decide; simpl; try done.
    destruct (validSources _); simpl; set_solver. }
  set_solver.
Qed.

(** *** Separation of the merged concepts *)

Lemma elem_of_concat {A} (x : A) (ls : list (list A)) :
  x ∈ concat ls <-> exists l, x ∈ l /\ l ∈ ls.
Proof.
  rewrite list_elem_of_In, in_concat. split.
  - intros (l & Hl & Hx). exists l. by rewrite !list_elem_of_In.
  - intros (l & Hx & Hl). exists l. by rewrite <- !list_elem_of_In.
Qed.

(** The ids of a merged concept come from its sources. *)
Definition from_sources (f : UnifiedConcept -> list string) : Prop :=
  forall m g x, x ∈ f (mergedConcept m g) -> exists c, c ∈ g /\ x ∈ f c.

Lemma ids1_from_sources : from_sources ids1.
Proof.
  intros m g x. unfold ids1 at 1. simpl.
  rewrite elem_of_Set_from, list_elem_of_In, in_flat_map.
  intros (c & Hc & Hx). exists c. by rewrite !list_elem_of_In.
Qed.

Lemma ids2_from_sources : from_sources ids2.
Proof.
  intros m g x. unfold ids2 at 1. simpl.
  rewrite elem_of_Set_from, list_elem_of_In, in_flat_map.
  intros (c & Hc & Hx). exists c. by rewrite !list_elem_of_In.
Qed.

Lemma merged_separated f cs B O G :
  from_sources f -> well_keyed cs B -> separated f cs ->
  NoDup (key <$> concat G) ->
  (forall c, c ∈ concat G -> B !! key c = Some c) ->
  Forall2 (fun o g => exists m, o = mergedConcept m g) O G ->
  separated f O.
Proof.
  intros Hf HB Hcs Hnd Hlk HO.
  induction HO as [|o g O G [m ->] HO IH]; simpl; [done|].
  simpl in Hnd, Hlk. rewrite fmap_app in Hnd.
  apply NoDup_app in Hnd as (Hg & Hgg & HG). split.
  - apply Forall_forall. intros o' Ho' x Hx Hx'.
    apply list_elem_of_lookup in Ho' as [i Hi].
    destruct (Forall2_lookup_l _ _ _ _ _ HO Hi) as (g' & Hg' & m' & ->).
    apply Hf in Hx as (c & Hc & Hxc). apply Hf in Hx' as (c' & Hc' & Hxc').
    assert (c' ∈ concat G) as HcG.
    { apply elem_of_concat. exists g'. split; [done|].
      apply list_elem_of_lookup. by exists i. }
    assert (c <> c') as Hne.
    { intros ->. apply (Hgg (key c')); by apply list_elem_of_fmap_2. }
    destruct (HB _ _ (Hlk c ltac:(set_solver))) as [Hin _].
    destruct (HB _ _ (Hlk c' ltac:(set_solver))) as [Hin' _].
    exact (separated_elem f cs c c' Hcs Hin Hin' Hne x Hxc Hxc').
  - apply IH; [done|]. intros c Hc. apply Hlk. set_solver.
Qed.

Lemma reconcile_separated f cs merges :
  from_sources f -> separated f cs -> separated f (reconcile cs merges).1.
Proof.
  intros Hf Hcs. unfold Merge.reconcile. simpl.
  destruct (process_merges_inv cs (orEmpty merges)) as [G [Pm Pnd Plk Pout _]].
  pose proof (conceptByLabel_well_keyed cs) as HB.
  apply separated_app.
  - by eapply merged_separated.
  - by apply separated_filter.
  - intros o p Ho Hp x Hx Hx'.
    apply list_elem_of_lookup in Ho as [i Hi].
    destruct (Forall2_lookup_l _ _ _ _ _ Pout Hi) as (g & Hg & m & ->).
    apply Hf in Hx as (c & Hc & Hxc).
    assert (c ∈ concat G) as HcG.
    { apply elem_of_concat. exists g. split; [done|].
      apply list_elem_of_lookup. by exists i. }
    apply list_elem_of_filter in Hp as [Hkey Hp].
    assert (c <> p) as Hne.
    { intros ->. apply Hkey. rewrite Pm. apply elem_of_list_to_set.
      by apply list_elem_of_fmap_2. }
    destruct (HB _ _ (Plk c HcG)) as [Hin _].
    exact (separated_elem f cs c p Hcs Hin Hp Hne x Hxc Hx').
Qed.

(** *** Conservation of the element ids *)

(** The id list of a merged concept is the [Set] of its sources' ids. *)
Definition merged_by_Set (f : UnifiedConcept -> list string) : Prop :=
  forall m g, f (mergedConcept m g) = Set_from (flat_map f g).


(** With distinct keys, the concepts consumed so far are exactly the
    marked concepts of the input. *)
Lemma consumed_marked cs st G :
  NoDup (key <$> cs) -> process_inv (conceptByLabel cs) st G ->
  concat G ≡ₚ filter (fun c => ~ (key c ∉ mergedLabels st)) cs.
Proof.
  intros Hnd [Pm Pnd Plk _ _].
  pose proof (conceptByLabel_well_keyed cs) as HB.
  apply NoDup_Permutation.
  - by apply NoDup_fmap_1 in Pnd.
  - apply NoDup_filter. by apply NoDup_fmap_1 in Hnd.
  - intros c. rewrite list_elem_of_filter. split.
    + intros Hc. destruct (HB _ _ (Plk c Hc)) as [Hin _]. split; [|done].
      intros Hout. apply Hout. rewrite Pm. apply elem_of_list_to_set.
      by apply list_elem_of_fmap_2.
    + intros [Hmk Hin]. apply dec_stable in Hmk.
      rewrite Pm, elem_of_list_to_set in Hmk.
      apply list_elem_of_fmap in Hmk as (c' & Hk & Hc').
      pose proof (Plk c' Hc') as Hlk. rewrite <- Hk in Hlk.
      rewrite (conceptByLabel_complete cs c Hnd Hin) in Hlk.
      by injection Hlk as ->.
Qed.


Lemma ids1_by_Set : merged_by_Set ids1.
Proof. done. Qed.

Lemma ids2_by_Set : merged_by_Set ids2.
Proof. done. Qed.

(** *** The merge log *)

Lemma log_labels (lg : list MergeLogEntry) (G : list (list UnifiedConcept)) :
  Forall2 (fun e g => from e = label <$> g) lg G ->
  toLowerCase <$> flat_map from lg = key <$> concat G.
Proof.
  induction 1 as [|e g lg G He _ IH]; simpl; [done|].
  rewrite !fmap_app, IH, He, <- list_fmap_compose. done.
Qed.

End ReconciliationFacts.

(** *** The claims about one merge pass *)

(** C10.  When the reply proposes no merges, [parsed.merges] being absent
    or the empty array, the reconciliation returns the input concepts
    themselves, in the same order, and an empty merge log. *)
Theorem no_merges_is_identity (toLowerCase : string -> string)
    (concepts : list UnifiedConcept) :
  reconcile toLowerCase concepts None = (concepts, []) /\
  reconcile toLowerCase concepts (Some []) = (concepts, []).
Proof.
  assert (passThrough toLowerCase ∅ concepts = concepts) as Hpass.
  { unfold passThrough. induction concepts as [|c cs IH]; [done|].
    rewrite filter_cons_True by set_solver. by rewrite IH. }
  unfold reconcile. simpl. by rewrite Hpass.
Qed.

(** C4.  If any two concepts at distinct positions of the input have
    disjoint d1Ids and disjoint d2Ids, then so have any two concepts at
    distinct positions of the output of the reconciliation, whatever merge
    groups the model proposed. *)
Theorem merge_preserves_disjointness (toLowerCase : string -> string)
    (concepts : list UnifiedConcept) (merges : option (list MergeGroup)) :
  pairwise_disjoint ids1 concepts ->
  pairwise_disjoint ids2 concepts ->
  pairwise_disjoint ids1 (reconcile toLowerCase concepts merges).1 /\
  pairwise_disjoint ids2 (reconcile toLowerCase concepts merges).1.
Proof.
  intros H1 H2. split; apply separated_pairwise, reconcile_separated;
    auto using ids1_from_sources, ids2_from_sources, pairwise_separated.
Qed.

(** Four concepts as in the scenario of the specification. *)
Definition scenario : list UnifiedConcept :=
  [d1Concept "Auth" ["A"; "B"]; d1Concept "Logging" ["C"];
   d2Concept "AuthImpl" ["X"]; d2Concept "Misc" ["Y"]].

Definition scenario_merges : option (list MergeGroup) :=
  Some [group ["Auth"; "AuthImpl"] "Authentication"].

Example scenario_result :
  reconcile toLowerCase_ascii scenario scenario_merges =
  ([{| label := "Authentication"; description := EmptyString;
       d1Ids := Some ["A"; "B"]; d2Ids := Some ["X"];
       elementLabels := Some [] |};
    d1Concept "Logging" ["C"]; d2Concept "Misc" ["Y"]],
   [{| from := ["Auth"; "AuthImpl"]; to := "Authentication" |}]).
Proof. vm_compute. reflexivity. Qed.

(** Closes a goal [pairwise_disjoint f cs] on a concrete list. *)
Ltac solve_ids_disjoint :=
  let x := fresh "x" in
  let Hx := fresh "Hx" in
  let Hx' := fresh "Hx" in
  intros x Hx Hx'; vm_compute in Hx, Hx';
  repeat (apply elem_of_cons in Hx as [->|Hx]);
  try (by apply elem_of_nil in Hx);
  repeat (apply elem_of_cons in Hx' as [Hx'|Hx']; [discriminate Hx'|]);
  by apply elem_of_nil in Hx'.

Ltac solve_pairwise :=
  apply separated_pairwise; simpl;
  repeat match goal with
         | |- _ /\ _ => split
         | |- True => exact I
         | |- Forall _ [] => apply Forall_nil
         | |- Forall _ (_ :: _) => apply Forall_cons
         | |- ids_disjoint _ _ => solve_ids_disjoint
         end.

Lemma merge_preserves_disjointness_witness :
  pairwise_disjoint ids1 scenario /\ pairwise_disjoint ids2 scenario /\
  pairwise_disjoint ids1 (reconcile toLowerCase_ascii scenario scenario_merges).1 /\
  pairwise_disjoint ids2 (reconcile toLowerCase_ascii scenario scenario_merges).1.
Proof.
  assert (pairwise_disjoint ids1 scenario) as H1 by solve_pairwise.
  assert (pairwise_disjoint ids2 scenario) as H2 by solve_pairwise.
  split; [exact H1|]. split; [exact H2|].
  exact (merge_preserves_disjointness toLowerCase_ascii scenario
           scenario_merges H1 H2).
Defined.




(** A second way to lose ids, left out of the amended claim: two input
    concepts whose labels agree up to case share one slot of the lookup
    table, and marking the key removes both from the pass-through. *)
Example same_label_loses_ids :
  let cs := [d1Concept "Security" ["a"]; d2Concept "security" ["p"];
             d2Concept "Tokens" ["q"]] in
  let out := (reconcile toLowerCase_ascii cs
                (Some [group ["Security"; "Tokens"] "Security"])).1 in
  (countD1 cs, countD2 cs) = (1, 2) /\ (countD1 out, countD2 out) = (0, 2).
Proof. vm_compute. done. Qed.



(** Four concepts and three proposals: the second proposal names a
    concept the first one took, the third names the one member the second
    was left with. *)
Definition chain : list UnifiedConcept :=
  [d1Concept "A" ["a"]; d1Concept "B" ["b"]; d1Concept "C" ["c"];
   d1Concept "D" ["d"]].

Definition chain_first : MergeGroup := group ["A"; "B"] "AB".
Definition chain_second : MergeGroup := group ["A"; "C"] "AC".
Definition chain_third : MergeGroup := group ["C"; "D"] "CD".

(** C2, as stated, fails in its last part: the second group resolves to the
    single member "C" and unmarks it, yet "C" does not reach the output
    unchanged, because the third group merges it. *)
Lemma singleton_member_merged_later :
  validSources
    (resolve toLowerCase_ascii (conceptByLabel toLowerCase_ascii chain)
       (mergedLabels (process_merges toLowerCase_ascii chain [chain_first]))
       (orEmpty (sourceConcepts chain_second)))
  = [d1Concept "C" ["c"]] /\
  d1Concept "C" ["c"]
    ∉ (reconcile toLowerCase_ascii chain
         (Some [chain_first; chain_second; chain_third])).1.
Proof.
  split; [vm_compute; reflexivity|].
  intros H. vm_compute in H.
  repeat (apply elem_of_cons in H as [H|H]; [discriminate H|]).
  by apply elem_of_nil in H.
Qed.

(** C2 (amended).  Let a group [m] be processed after the groups [before]
    and ahead of the groups [after].  (1) No valid member of [m] has a key
    marked by the earlier groups: a label already claimed is skipped.
    (2) Over the whole pass no lower-cased label occurs twice among the
    sources recorded in the merge log.  (3) If [m] resolves to fewer than
    two valid members, processing it leaves the marks, the emitted concepts
    and the merge log exactly as they were.  (4) If [m] resolves to exactly
    one valid member and no later group lists a label with that member's
    key, the member is in the output, unchanged. *)
Theorem first_wins_and_discard (toLowerCase : string -> string)
    (concepts : list UnifiedConcept)
    (before : list MergeGroup) (m : MergeGroup) (after : list MergeGroup) :
  let st := process_merges toLowerCase concepts before in
  let r := resolve toLowerCase (conceptByLabel toLowerCase concepts)
             (mergedLabels st) (orEmpty (sourceConcepts m)) in
  let result := reconcile toLowerCase concepts (Some (before ++ m :: after)) in
  (forall c, c ∈ validSources r -> key toLowerCase c ∉ mergedLabels st) /\
  NoDup (toLowerCase <$> flat_map from result.2) /\
  (length (validSources r) < 2 ->
   process_merges toLowerCase concepts (before ++ [m]) = st) /\
  (forall c, validSources r = [c] ->
     (forall l, l ∈ flat_map (fun m' => orEmpty (sourceConcepts m')) after ->
                toLowerCase l <> key toLowerCase c) ->
     c ∈ result.1).
Proof.
  intros st r result.
  pose proof (conceptByLabel_well_keyed toLowerCase concepts) as HB.
  pose proof (resolve_spec toLowerCase concepts _ (mergedLabels st)
                (orEmpty (sourceConcepts m)) HB) as [Hm Hnd Hfr Hlk Hlb].
  fold r in Hm, Hnd, Hfr, Hlk, Hlb.
  split_and!.
  - exact Hfr.
  - destruct (process_merges_inv toLowerCase concepts (before ++ m :: after))
      as [G [_ Pnd _ _ Plog]].
    subst result. unfold reconcile. simpl.
    by rewrite (log_labels toLowerCase _ G Plog).
  - intros Hlen. unfold process_merges. rewrite foldl_app. simpl.
    by apply (process_merge_discard toLowerCase concepts).
  - intros c Hc Hafter. subst result. unfold reconcile. simpl.
    apply elem_of_app. right. apply list_elem_of_filter.
    assert (c ∈ validSources r) as Hin by (rewrite Hc; set_solver).
    split; [|by destruct (HB _ _ (Hlk c Hin))].
    assert (process_merge toLowerCase (conceptByLabel toLowerCase concepts) st m
            = st) as Hdiscard.
    { apply (process_merge_discard toLowerCase concepts); [done|].
      change (length (validSources r) < 2). rewrite Hc. simpl. lia. }
    unfold process_merges. rewrite foldl_app. simpl.
    change (foldl (process_merge toLowerCase (conceptByLabel toLowerCase concepts))
              init before) with st.
    rewrite Hdiscard. intros Hmk. apply process_fold_marked in Hmk.
    apply elem_of_union in Hmk as [Hmk|Hmk]; [by apply (Hfr c Hin)|].
    apply elem_of_list_to_set, list_elem_of_fmap in Hmk as (l & Hl & Hin').
    by apply (Hafter l).
Qed.

Lemma first_wins_and_discard_witness :
  process_merges toLowerCase_ascii chain ([chain_first] ++ [chain_second])
  = process_merges toLowerCase_ascii chain [chain_first] /\
  d1Concept "C" ["c"]
    ∈ (reconcile toLowerCase_ascii chain
         (Some ([chain_first] ++ chain_second :: []))).1.
Proof.
  destruct (first_wins_and_discard toLowerCase_ascii chain
              [chain_first] chain_second []) as (_ & _ & Hdiscard & Hpass).
  split.
  - apply Hdiscard. vm_compute. lia.
  - apply Hpass; [vm_compute; reflexivity|].
    intros l Hl. simpl in Hl. by apply elem_of_nil in Hl.
Defined.

End MergeFacts.

(* ===================================================================== *)
(** ** Properties of the reply parsing                                    *)
(* ===================================================================== *)

Module ReplyFacts.

Import Reply.

Local Open Scope Z_scope.

(** *** Searching and slicing *)

Lemma indexOf_range c s : -1 <= indexOf c s.
Proof.
  induction s as [|a r IH]; simpl; [lia|].
  destruct (Ascii.eqb a c); [lia|]. destruct (Z.eqb_spec (indexOf c r) (-1)); lia.
Qed.

Lemma lastIndexOf_range c s : -1 <= lastIndexOf c s.
Proof.
  induction s as [|a r IH]; simpl; [lia|].
  destruct (Z.eqb_spec (lastIndexOf c r) (-1)); [|lia].
  destruct (Ascii.eqb a c); lia.
Qed.

Lemma lastIndexOf_absent c s : includes c s = false -> lastIndexOf c s = -1.
Proof.
  induction s as [|a r IH]; simpl; [done|].
  intros [Ha Hr]%orb_false_elim. by rewrite IH, Ha.
Qed.

(** The first occurrence, after a prefix that has none. *)
Lemma indexOf_after_prefix c prefix rest :
  includes c prefix = false ->
  indexOf c (prefix +:+ String c rest) = Z.of_nat (String.length prefix).
Proof.
  induction prefix as [|a p IH]; simpl.
  - intros _. by rewrite Ascii.eqb_refl.
  - intros [Ha Hp]%orb_false_elim. rewrite Ha, IH by done.
    destruct (Z.eqb_spec (Z.of_nat (String.length p)) (-1)); lia.
Qed.

(** The last occurrence, before a suffix that has none. *)
Lemma lastIndexOf_before_suffix c front suffix :
  includes c suffix = false ->
  lastIndexOf c (front +:+ String c suffix) = Z.of_nat (String.length front).
Proof.
  intros Hs. induction front as [|a p IH]; simpl.
  - by rewrite lastIndexOf_absent, Ascii.eqb_refl.
  - rewrite IH. destruct (Z.eqb_spec (Z.of_nat (String.length p)) (-1)); lia.
Qed.

Lemma substring_front n s t :
  String.substring 0 n (s +:+ t) =
  if bool_decide (n <= String.length s)%nat then String.substring 0 n s
  else s +:+ String.substring 0 (n - String.length s) t.
Proof.
  revert n. induction s as [|a s IH]; intros n; simpl.
  - case_bool_decide as Hn.
    + assert (n = 0%nat) as -> by lia. by destruct t.
    + by rewrite Nat.sub_0_r.
  - destruct n as [|n]; simpl; [done|]. rewrite IH.
    repeat case_bool_decide; try lia; done.
Qed.

Lemma substring_all s : String.substring 0 (String.length s) s = s.
Proof. induction s as [|a s IH]; simpl; [done|]. by rewrite IH. Qed.

Lemma substring_middle prefix j suffix :
  String.substring (String.length prefix) (String.length j)
    (prefix +:+ j +:+ suffix) = j.
Proof.
  induction prefix as [|a p IH]; [|done].
  change (String.substring 0 (String.length j) (j +:+ suffix) = j).
  rewrite (substring_front (String.length j) j suffix).
  rewrite bool_decide_eq_true_2 by lia. apply substring_all.
Qed.

Lemma length_append s t :
  String.length (s +:+ t) = (String.length s + String.length t)%nat.
Proof. induction s as [|a s IH]; simpl; [done|]. by f_equal. Qed.

Lemma append_assoc (s t u : string) : (s +:+ t) +:+ u = s +:+ (t +:+ u).
Proof.
  induction s as [|a s IH]; [done|].
  change (String a ((s +:+ t) +:+ u) = String a (s +:+ t +:+ u)).
  by rewrite IH.
Qed.

(** In [prefix { body } suffix], with no ['{'] in the prefix and no ['}']
    in the suffix, the text from the first ['{'] to the last ['}'] is
    [{ body }]. *)
Lemma brace_slice prefix body suffix :
  let j := String "{" (body +:+ "}") in
  let reply := prefix +:+ j +:+ suffix in
  includes "{" prefix = false -> includes "}" suffix = false ->
  indexOf "{" reply <> -1 /\
  lastIndexOf "}" reply > indexOf "{" reply /\
  slice reply (indexOf "{" reply) (lastIndexOf "}" reply + 1) = j.
Proof.
  intros j reply Hp Hs.
  assert (indexOf "{" reply = Z.of_nat (String.length prefix)) as Hfirst.
  { subst reply j. simpl. by apply indexOf_after_prefix. }
  assert (lastIndexOf "}" reply
          = Z.of_nat (String.length prefix + 1 + String.length body)) as Hlast.
  { subst reply j.
    replace (prefix +:+ String "{" (body +:+ "}") +:+ suffix)
      with ((prefix +:+ String "{" body) +:+ String "}" suffix).
    - rewrite lastIndexOf_before_suffix by done.
      rewrite length_append. simpl. f_equal. lia.
    - rewrite append_assoc. f_equal.
      change (String "{" (body +:+ String "}" suffix)
              = String "{" ((body +:+ "}") +:+ suffix)).
      by rewrite append_assoc. }
  rewrite Hfirst, Hlast. split_and!; [lia|lia|].
  unfold slice. rewrite Nat2Z.id.
  replace (Z.to_nat _) with (String.length j).
  - apply substring_middle.
  - subst j. simpl. rewrite length_append. simpl. lia.
Qed.

Lemma lastIndexOf_split c s :
  lastIndexOf c s <> -1 -> exists b r, s = b +:+ String c r.
Proof.
  induction s as [|a s IH]; simpl; [done|].
  destruct (Z.eqb_spec (lastIndexOf c s) (-1)) as [Hnone|Hsome].
  - destruct (Ascii.eqb_spec a c) as [->|]; [|done].
    intros _. by exists EmptyString, s.
  - intros _. destruct (IH Hsome) as (b & r & ->). by exists (String a b), r.
Qed.

(** When the guard of the recovery holds, the text has a ['{'] with a
    ['}'] somewhere after it. *)
Lemma guard_gives_brace_pair s :
  indexOf "{" s <> -1 -> lastIndexOf "}" s > indexOf "{" s ->
  exists a b c, s = a +:+ String "{" (b +:+ String "}" c).
Proof.
  induction s as [|x s IH]; simpl; [done|].
  destruct (Ascii.eqb_spec x "{") as [->|Hx].
  - intros _ Hlast. simpl in Hlast.
    destruct (Z.eqb_spec (lastIndexOf "}" s) (-1)) as [Hnone|Hsome]; [lia|].
    destruct (lastIndexOf_split _ _ Hsome) as (b & c & ->).
    by exists EmptyString, b, c.
  - pose proof (indexOf_range "{" s). pose proof (lastIndexOf_range "}" s).
    destruct (Z.eqb_spec (indexOf "{" s) (-1)) as [Hnone|Hsome]; [done|].
    intros _ Hlast.
    destruct (Z.eqb_spec (lastIndexOf "}" s) (-1)) as [Hl|Hl].
    + destruct (Ascii.eqb x "}"); lia.
    + destruct IH as (a & b & c & ->); [done|lia|].
      by exists (String x a), b, c.
Qed.

(** *** The claims about the parsers *)

(** The reply of the specification's example: prose and a markdown fence
    around [{"merges":[]}]. *)
Definition quoted (s : string) : string :=
  String "034" (s +:+ String "034" EmptyString).

Definition fence_open : string := "Sure, here you go:
```json
".

Definition fence_close : string := "
```".

Definition merges_body : string := quoted "merges" +:+ ":[]".

(** The instance on small texts: an escape is decoded, a leading zero and
    a trailing comma are refused. *)
Example JSON_parse_samples :
  JSON_parse (quoted "a\nb") = Some (JString (String "a" (String "010" "b"))) /\
  JSON_parse " [1, -2.5e3, true, null] "
    = Some (JArray [JNumber "1"; JNumber "-2.5e3"; JBool true; JNull]) /\
  JSON_parse "01" = None /\ JSON_parse "[1,]" = None /\
  JSON_parse "Sure: {}" = None.
Proof. vm_compute. done. Qed.

(** C5, as stated, fails: ["[{}]"] is the object text ["{}"] between a
    prefix without ['{'] and a suffix without ['}'], but it parses as it
    stands, to an array, so both parsers return that array and not the
    object that ["{}"] alone gives. *)
Lemma array_wrapped_reply_differs :
  JSON_parse "{}" = Some (JObject []) /\
  includes "{" "[" = false /\ includes "}" "]" = false /\
  extractor_parse JSON_parse ("[" +:+ "{}" +:+ "]")
    <> extractor_parse JSON_parse "{}" /\
  merger_parse JSON_parse ("[" +:+ "{}" +:+ "]")
    <> merger_parse JSON_parse "{}".
Proof. vm_compute. split_and!; done. Qed.

(** C5 (amended).  (1) For every reply [prefix + j + suffix] that does not
    parse as it stands, where [j] is an object text [{ body }] that
    parses, the prefix has no ['{'] and the suffix no ['}'], the
    extractor's and the merger's parsers return what they return for [j]
    alone.  (2) If a reply does not parse as it stands and has no ['{']
    followed by a ['}'], both parsers fail with their error. *)
Theorem brace_recovery (parse : string -> option json) :
  (forall prefix body suffix v,
     let j := String "{" (body +:+ "}") in
     let reply := prefix +:+ j +:+ suffix in
     parse j = Some v ->
     includes "{" prefix = false -> includes "}" suffix = false ->
     parse reply = None ->
     extractor_parse parse reply = extractor_parse parse j /\
     merger_parse parse reply = merger_parse parse j) /\
  (forall reply,
     parse reply = None ->
     ~ (exists a b c, reply = a +:+ String "{" (b +:+ String "}" c)) ->
     extractor_parse parse reply
       = inl (Error "Failed to parse JSON from LLM response") /\
     merger_parse parse reply
       = inl (Error "Could not parse JSON from LLM response")).
Proof.
  split.
  - intros prefix body suffix v j reply Hj Hp Hs Hreply.
    destruct (brace_slice prefix body suffix Hp Hs) as (Hfirst & Hlast & Hslice).
    fold j reply in Hfirst, Hlast, Hslice.
    unfold extractor_parse, merger_parse.
    rewrite Hreply, Hj, Hslice, Hj.
    by rewrite !bool_decide_eq_true_2.
  - intros reply Hreply Hnone.
    unfold extractor_parse, merger_parse. rewrite Hreply.
    destruct (decide (indexOf "{" reply <> -1)) as [Hfirst|Hfirst];
      [|by rewrite (bool_decide_eq_false_2 _ Hfirst)].
    destruct (decide (lastIndexOf "}" reply > indexOf "{" reply)) as [Hlast|Hlast];
      [|by rewrite (bool_decide_eq_false_2 _ Hlast), andb_false_r].
    destruct Hnone. by apply guard_gives_brace_pair.
Qed.

Lemma brace_recovery_witness :
  extractor_parse JSON_parse (fence_open +:+ String "{" (merges_body +:+ "}") +:+ fence_close)
    = extractor_parse JSON_parse (String "{" (merges_body +:+ "}")) /\
  merger_parse JSON_parse (fence_open +:+ String "{" (merges_body +:+ "}") +:+ fence_close)
    = merger_parse JSON_parse (String "{" (merges_body +:+ "}")) /\
  extractor_parse JSON_parse "no json here"
    = inl (Error "Failed to parse JSON from LLM response") /\
  merger_parse JSON_parse "no json here"
    = inl (Error "Could not parse JSON from LLM response").
Proof.
  destruct (brace_recovery JSON_parse) as [Hfenced Hbare].
  destruct (Hfenced fence_open merges_body fence_close
              (JObject [("merges", JArray [])])) as [He Hm];
    [vm_compute; reflexivity..|].
  destruct (Hbare "no json here") as [He' Hm']; [vm_compute; reflexivity| |].
  - intros (a & b & c & H).
    assert (includes "{" "no json here" = true) as Hin; [|vm_compute in Hin; done].
    rewrite H. clear H. induction a as [|x a IH]; simpl.
    + done.
    + by rewrite IH, orb_true_r.
  - exact (conj He (conj Hm (conj He' Hm'))).
Defined.

(** C3, as stated, fails: an empty reply text, like a missing one, is
    replaced by ["{}"], which parses to an object without concepts, and
    the extractor answers with success and an empty concept list. *)
Lemma empty_reply_gives_empty_success :
  extract_concepts JSON_parse (Candidate (Some EmptyString)) = Success [] /\
  extract_concepts JSON_parse (Candidate None) = Success [].
Proof. vm_compute. done. Qed.

(** A reply that parses, but not to an object with concepts, is answered
    the same way. *)
Example conceptless_reply_gives_empty_success :
  extract_concepts JSON_parse (Candidate (Some "[]")) = Success [] /\
  extract_concepts JSON_parse (Candidate (Some "42")) = Success [] /\
  extract_concepts JSON_parse (Candidate (Some "null")) = Failure TypeError.
Proof. vm_compute. done. Qed.

(** C3 (amended).  (1) For every non-empty reply text that does not parse
    as it stands and either has no ['{'] with a later ['}'] or does not
    parse between the first ['{'] and the last ['}'] either, the extractor
    returns the failure response and no successful one.  (2) A missing or
    empty reply text is replaced by ["{}"] and gives the successful
    response with an empty concept list. *)
Theorem unparseable_reply_fails (parse : string -> option json) :
  (forall text,
     text <> EmptyString ->
     parse text = None ->
     (indexOf "{" text = -1 \/
      lastIndexOf "}" text <= indexOf "{" text \/
      parse (slice text (indexOf "{" text) (lastIndexOf "}" text + 1)) = None) ->
     exists e, extract_concepts parse (Candidate (Some text)) = Failure e) /\
  (parse "{}" = Some (JObject []) ->
   extract_concepts parse (Candidate None) = Success [] /\
   extract_concepts parse (Candidate (Some EmptyString)) = Success []).
Proof.
  split.
  - intros text Hne Hparse Hrec.
    unfold extract_concepts, extract_try, extractor_parse, rawText_of.
    assert (String.eqb text EmptyString = false) as -> by by apply String.eqb_neq.
    rewrite Hparse.
    destruct Hrec as [Hfirst|[Hlast|Hinner]].
    + rewrite (bool_decide_eq_false_2 (indexOf "{" text <> -1)) by lia.
      by eexists.
    + rewrite (bool_decide_eq_false_2 (lastIndexOf "}" text > _)) by lia.
      rewrite andb_false_r. by eexists.
    + rewrite Hinner. destruct (_ && _); by eexists.
  - intros Hempty.
    unfold extract_concepts, extract_try, extractor_parse, rawText_of. simpl.
    by rewrite Hempty.
Qed.

Lemma unparseable_reply_fails_witness :
  (exists e, extract_concepts JSON_parse (Candidate (Some "no json here"))
             = Failure e) /\
  extract_concepts JSON_parse (Candidate None) = Success [].
Proof.
  destruct (unparseable_reply_fails JSON_parse) as [Hfail Hempty].
  split.
  - apply Hfail; [done|vm_compute; reflexivity|]. left. vm_compute. reflexivity.
  - apply Hempty. vm_compute. reflexivity.
Defined.

End ReplyFacts.

(* ===================================================================== *)
(** ** Properties of the orchestrator                                     *)
(* ===================================================================== *)

Module PipelineFacts.

Import Pipeline.

Local Open Scope Z_scope.

(** *** Sample worlds for the examples *)

Definition element (i l : string) : Element :=
  {| id := i; element_label := l; content := "text"; category := None |}.

Definition sample_input : PipelineInput :=
  {| sessionId := "session"; projectId := "project"; shareToken := "token";
     d1Elements := [element "r1" "Requirement 1"];
     d2Elements := [element "f1" "File 1"] |}.

Definition row (i ty : string) (ids : list string) : NodeRow :=
  {| node_id := i; node_type := ty; source_element_ids := Some ids |}.

Definition stored {A} (a : A) : RpcResult A :=
  {| rpc_data := Some a; rpc_error := None |}.

Definition refused {A} (why : string) : RpcResult A :=
  {| rpc_data := None; rpc_error := Some why |}.

Definition answered {A} (a : A) : HttpResponse A :=
  {| ok := true; status := 200; json := inr a |}.

Definition extracted (l : string) (ids : list string) : HttpResponse ExtractResult :=
  answered {| success := true; extract_error := None;
              concepts := Some [{| label := l; description := "about " +:+ l;
                                   elementIds := ids |}] |}.

Definition merged_both : MergeResult :=
  {| merge_success := true; merge_error := None;
     mergedConcepts :=
       Some [{| mergedLabel := "Login"; mergedDescription := "signing in";
                d1ConceptLabels := ["Auth"]; d2ConceptLabels := ["AuthImpl"];
                d1Ids := ["r1"]; d2Ids := ["f1"] |}];
     unmergedD1Concepts := Some []; unmergedD2Concepts := Some [] |}.

(** A world in which every call succeeds: the first two upserts store the
    element nodes, the node query returns them, and a later upsert stores
    a concept node named by the call's index. *)
Definition calm : Env :=
  {| upsert_node_reply := fun n =>
       match n with
       | 0%nat => stored (row "n-r1" "d1_element" ["r1"])
       | 1%nat => stored (row "n-f1" "d2_element" ["f1"])
       | _ => stored (row ("node-" +:+ pretty n) "concept" ["r1"; "f1"])
       end;
     insert_edge_reply := fun _ => stored tt;
     get_nodes_reply := fun _ => stored [row "n-r1" "d1_element" ["r1"];
                                         row "n-f1" "d2_element" ["f1"]];
     extract_replies := fun _ => inr (extracted "Auth" ["r1"],
                                      extracted "AuthImpl" ["f1"]);
     merge_reply := fun _ => inr (answered merged_both);
     tesseract_reply := fun _ => inr (answered (Some {| cells := Some [] |}));
     venn_reply := fun _ => inr tt;
     abortRef := fun _ => false |}.

(** The same world, but the D1 extraction answers 500. *)
Definition d1_down : Env :=
  {| upsert_node_reply := upsert_node_reply calm;
     insert_edge_reply := insert_edge_reply calm;
     get_nodes_reply := get_nodes_reply calm;
     extract_replies := fun _ =>
       inr ({| ok := false; status := 500; json := inl "no body" |},
            extracted "AuthImpl" ["f1"]);
     merge_reply := merge_reply calm;
     tesseract_reply := tesseract_reply calm;
     venn_reply := venn_reply calm;
     abortRef := abortRef calm |}.

(** The same world, but [abort()] was called before the first check. *)
Definition aborted_early : Env :=
  {| upsert_node_reply := upsert_node_reply calm;
     insert_edge_reply := insert_edge_reply calm;
     get_nodes_reply := get_nodes_reply calm;
     extract_replies := extract_replies calm;
     merge_reply := merge_reply calm;
     tesseract_reply := tesseract_reply calm;
     venn_reply := venn_reply calm;
     abortRef := fun _ => true |}.

(** The calm world, except that every edge write is refused. *)
Definition edges_refused : Env :=
  {| upsert_node_reply := upsert_node_reply calm;
     insert_edge_reply := fun _ => refused "write failed";
     get_nodes_reply := get_nodes_reply calm;
     extract_replies := extract_replies calm;
     merge_reply := merge_reply calm;
     tesseract_reply := tesseract_reply calm;
     venn_reply := venn_reply calm;
     abortRef := abortRef calm |}.

(** The calm world, except that the writes of concept nodes are refused
    (the two element nodes are written by the calls 0 and 1). *)
Definition concepts_refused : Env :=
  {| upsert_node_reply := fun n =>
       if bool_decide (n < 2)%nat then upsert_node_reply calm n
       else refused "write failed";
     insert_edge_reply := insert_edge_reply calm;
     get_nodes_reply := get_nodes_reply calm;
     extract_replies := extract_replies calm;
     merge_reply := merge_reply calm;
     tesseract_reply := tesseract_reply calm;
     venn_reply := venn_reply calm;
     abortRef := abortRef calm |}.

(** The calm world, except that the writes of element nodes are refused. *)
Definition elements_refused : Env :=
  {| upsert_node_reply := fun n =>
       if bool_decide (n < 2)%nat then refused "write failed"
       else upsert_node_reply calm n;
     insert_edge_reply := insert_edge_reply calm;
     get_nodes_reply := get_nodes_reply calm;
     extract_replies := extract_replies calm;
     merge_reply := merge_reply calm;
     tesseract_reply := tesseract_reply calm;
     venn_reply := venn_reply calm;
     abortRef := abortRef calm |}.

(** A second run over a session in which an earlier run left the concept
    node [old-concept] over the elements [r1] and [f1]: the node query
    returns it ahead of the element nodes.  Everything else is calm. *)
Definition rerun : Env :=
  {| upsert_node_reply := upsert_node_reply calm;
     insert_edge_reply := insert_edge_reply calm;
     get_nodes_reply := fun _ =>
       stored [row "old-concept" "concept" ["r1"; "f1"];
               row "n-r1" "d1_element" ["r1"];
               row "n-f1" "d2_element" ["f1"]];
     extract_replies := extract_replies calm;
     merge_reply := merge_reply calm;
     tesseract_reply := tesseract_reply calm;
     venn_reply := venn_reply calm;
     abortRef := abortRef calm |}.

(** *** Failure of a stage *)

Lemma run_stages_app (pre post : list (Vars -> M Vars)) (v : Vars) (s : State) :
  run_stages (pre ++ post) v s =
  match run_stages pre v s with
  | (inl e, s') => (inl e, s')
  | (inr v', s') => run_stages post v' s'
  end.
Proof.
  revert v s. induction pre as [|stage pre IH]; intros v s; simpl; [done|].
  unfold bind. destruct (stage v s) as [[e|v'] s']; [done|]. apply IH.
Qed.

(** The events of the [catch] block and of [finally]. *)
Definition failure_report (errMsg : string) : list Event :=
  [console_error "[Pipeline] Error:"; setError (Some errMsg);
   setProgress (report error errMsg 0);
   update_audit_session "failed" None;
   setIsRunning false].

(** C6.  Split the stages of the run into those before a stage, that
    stage, and the remaining ones.  If the stages before it complete and
    the stage throws [errMsg], the run consists of the events up to the
    throw followed by the error report alone: no remaining stage runs, the
    progress is set to phase [error] with message [errMsg], and the
    session is updated with status ["failed"]. *)
Theorem fatal_failure_ends_run (env : Env) (input : PipelineInput)
    (before : list (Vars -> M Vars)) (stage : Vars -> M Vars)
    (remaining : list (Vars -> M Vars))
    (v : Vars) (s1 s2 : State) (errMsg : string) :
  stages env input = before ++ stage :: remaining ->
  run_stages before initial_vars start = (inr v, s1) ->
  stage v s1 = (inl errMsg, s2) ->
  runPipeline env input = trace s2 ++ failure_report errMsg.
Proof.
  intros Hsplit Hbefore Hstage. unfold runPipeline.
  rewrite Hsplit, run_stages_app, Hbefore. simpl. unfold bind.
  rewrite Hstage. simpl. by rewrite <- !app_assoc.
Qed.

(** The causes the claim names do make their stage throw. *)
Lemma failed_extraction_throws env input v s r1 r2 :
  extract_replies env (calls s) = inr (r1, r2) ->
  ok r1 = false \/
  (ok r1 = true /\ (exists result, json r1 = inr result /\ success result = true)
   /\ ok r2 = false) ->
  exists errMsg s', phase1 env input v s = (inl errMsg, s').
Proof.
  intros Hreply Hfail. unfold phase1, bind, emit, call. simpl.
  rewrite Hreply. unfold read_extraction at 1.
  destruct Hfail as [->|(-> & (result & -> & ->) & Hr2)]; simpl.
  - by eexists _, _.
  - unfold read_extraction, bind, emit. rewrite Hr2. simpl. by eexists _, _.
Qed.

Lemma failed_merge_throws env v s r :
  merge_reply env (calls s) = inr r -> ok r = false ->
  exists s', phase2 env v s
             = (inl ("Merge concepts failed: " +:+ pretty (status r)), s').
Proof.
  intros Hreply Hok. unfold phase2, bind, call, emit. simpl.
  rewrite Hreply, Hok. simpl. by eexists.
Qed.

Lemma abort_throws env s :
  abortRef env (calls s) = true -> check_abort env s = (inl "Aborted", s).
Proof. intros H. unfold check_abort. by rewrite H. Qed.

Example abort_ends_run :
  runPipeline aborted_early sample_input
  = [setIsRunning true; setError None;
     setProgress (report creating_nodes "Creating 1 D1 and 1 D2 nodes..." 5);
     upsert_audit_graph_node
       {| p_label := "Requirement 1"; p_description := "text";
          p_node_type := "d1_element"; p_source_dataset := "dataset1";
          p_source_element_ids := ["r1"]; p_color := "#3b82f6"; p_size := 15;
          p_metadata := meta_category "unknown" |}
       (stored (row "n-r1" "d1_element" ["r1"]));
     upsert_audit_graph_node
       {| p_label := "File 1"; p_description := "text";
          p_node_type := "d2_element"; p_source_dataset := "dataset2";
          p_source_element_ids := ["f1"]; p_color := "#22c55e"; p_size := 15;
          p_metadata := meta_category "unknown" |}
       (stored (row "n-f1" "d2_element" ["f1"]));
     update_audit_session "running" (Some "extracting_concepts")]
    ++ failure_report "Aborted".
Proof. vm_compute. reflexivity. Qed.

Lemma fatal_failure_ends_run_witness :
  exists s2,
    phase1 d1_down sample_input initial_vars
      (phase0 d1_down sample_input initial_vars start).2
    = (inl "D1 concept extraction failed: 500", s2) /\
    runPipeline d1_down sample_input
    = trace s2 ++ failure_report "D1 concept extraction failed: 500".
Proof.
  eexists. split; [vm_compute; reflexivity|].
  apply (fatal_failure_ends_run d1_down sample_input
           [phase0 d1_down sample_input] (phase1 d1_down sample_input)
           [phase2 d1_down; phase2_5 d1_down; phase3 d1_down; phase4 d1_down]
           initial_vars
           (phase0 d1_down sample_input initial_vars start).2);
    vm_compute; reflexivity.
Defined.

(** *** Loops that never throw *)

(** [steady I m]: started in a state satisfying [I], the computation [m]
    returns, in a state satisfying [I]. *)
Definition steady {A} (I : State -> Prop) (m : M A) : Prop :=
  forall s, I s -> exists a s', m s = (inr a, s') /\ I s'.

Lemma steady_ret {A} I (a : A) : steady I (ret a).
Proof. intros s Hs. by exists a, s. Qed.

Lemma steady_bind {A B} I (m : M A) (k : A -> M B) :
  steady I m -> (forall a, steady I (k a)) -> steady I (bind m k).
Proof.
  intros Hm Hk s Hs. destruct (Hm s Hs) as (a & s' & Heq & Hs').
  unfold bind. rewrite Heq. by apply Hk.
Qed.

Lemma steady_emit (I : State -> Prop) e :
  (forall s, I s -> I {| trace := trace s ++ [e]; calls := calls s |}) ->
  steady I (emit e).
Proof. intros H s Hs. exists tt. eexists. split; [done|]. by apply H. Qed.

Lemma steady_call {A} (I : State -> Prop) (reply : nat -> A) ev :
  (forall s, I s ->
     I {| trace := trace s ++ ev (reply (calls s)); calls := S (calls s) |}) ->
  steady I (call reply ev).
Proof. intros H s Hs. eexists _, _. split; [done|]. by apply H. Qed.

Lemma steady_for_each {A} I (xs : list A) (body : A -> M unit) :
  (forall x, steady I (body x)) -> steady I (for_each xs body).
Proof.
  intros Hbody. induction xs as [|x xs IH]; simpl.
  - apply steady_ret.
  - apply steady_bind; [apply Hbody|]. intros []. apply IH.
Qed.

(** The events of node creation and, with the edge writes, of graph
    construction; [stable C I] says that appending events of class [C]
    cannot break [I]. *)
Definition node_event (e : Event) : Prop :=
  match e with
  | upsert_audit_graph_node _ _ | get_audit_graph_nodes _ | console_error _ => True
  | _ => False
  end.

Definition graph_event (e : Event) : Prop :=
  match e with
  | insert_audit_graph_edge _ _ => True
  | _ => node_event e
  end.

Definition stable (C : Event -> Prop) (I : State -> Prop) : Prop :=
  forall s evs n, I s -> Forall C evs ->
                  I {| trace := trace s ++ evs; calls := n |}.

Lemma stable_node_event I : stable graph_event I -> stable node_event I.
Proof.
  intros H s evs n Hs Hevs. apply H; [done|].
  eapply Forall_impl; [exact Hevs|]. by intros [].
Qed.

Section ElementLoops.

Variable env : Env.
Variable I : State -> Prop.
Hypothesis I_stable : stable node_event I.

Lemma steady_create_element_node ty ds color line e :
  steady I (create_element_node env ty ds color line e).
Proof.
  unfold create_element_node. apply steady_bind.
  - apply steady_call. intros s Hs. apply I_stable; [done|].
    by repeat constructor.
  - intros r. destruct (rpc_error r) as [why|]; [|apply steady_ret].
    apply steady_emit. intros s Hs. apply I_stable; [done|].
    by repeat constructor.
Qed.

(** The two element loops of phase 0. *)
Lemma steady_create_elements ty ds color line es :
  steady I (for_each es (create_element_node env ty ds color line)).
Proof. apply steady_for_each. intros e. apply steady_create_element_node. Qed.

End ElementLoops.

Section GraphLoops.

Variable env : Env.
Variable I : State -> Prop.
Hypothesis I_stable : stable graph_event I.

Lemma steady_create_edges allNodes ty target ids :
  steady I (create_edges env allNodes ty target ids).
Proof.
  unfold create_edges. apply steady_for_each. intros x.
  destruct (find_node allNodes x); [|apply steady_ret].
  apply steady_bind; [|intros; apply steady_ret].
  apply steady_call. intros s Hs. apply I_stable; [done|].
  by repeat constructor.
Qed.

Lemma steady_when_created r k :
  (forall node, steady I (k node)) -> steady I (when_created r k).
Proof.
  intros Hk. unfold when_created. destruct (rpc_data r); [|apply steady_ret].
  destruct (String.eqb _ _); [apply steady_ret|apply Hk].
Qed.

Lemma steady_create_merged_node allNodes c :
  steady I (create_merged_node env allNodes c).
Proof.
  unfold create_merged_node. apply steady_bind.
  - apply steady_call. intros s Hs. apply I_stable; [done|].
    by repeat constructor.
  - intros r. apply steady_when_created. intros node.
    apply steady_bind; [|intros]; apply steady_create_edges.
Qed.

Lemma steady_create_unmerged_node allNodes ds color meta ty c :
  steady I (create_unmerged_node env allNodes ds color meta ty c).
Proof.
  unfold create_unmerged_node. apply steady_bind.
  - apply steady_call. intros s Hs. apply I_stable; [done|].
    by repeat constructor.
  - intros r. apply steady_when_created. intros node.
    apply steady_create_edges.
Qed.

Lemma steady_build_graph v : steady I (build_graph env v).
Proof.
  unfold build_graph. apply steady_bind.
  - apply steady_call. intros s Hs. apply I_stable; [done|].
    by repeat constructor.
  - intros got. simpl.
    repeat (apply steady_bind; [|intros]);
      apply steady_for_each; intros c;
      auto using steady_create_merged_node, steady_create_unmerged_node.
Qed.

End GraphLoops.

(** *** The progress events of a run *)

(** Phase and percentage of the progress events of a trace, in order. *)
Definition announced (tr : list Event) : list (PipelinePhase * Z) :=
  omap (fun e => match e with
                 | setProgress p => Some (phase p, progress p)
                 | _ => None
                 end) tr.

(** The announcements of a run that completes. *)
Definition steps : list (PipelinePhase * Z) :=
  [(creating_nodes, 5); (extracting_d1, 15); (merging_concepts, 35);
   (building_graph, 50); (building_tesseract, 65); (generating_venn, 85);
   (completed, 100)].

(** The state has announced the first [k] steps and nothing else. *)
Definition at_step (k : nat) (s : State) : Prop :=
  announced (trace s) = take k steps.

Lemma announced_app tr evs : announced (tr ++ evs) = announced tr ++ announced evs.
Proof. apply omap_app. Qed.

Lemma announced_graph_events evs : Forall graph_event evs -> announced evs = [].
Proof.
  induction 1 as [|e evs He _ IH]; [done|].
  destruct e; simpl in *; try done.
Qed.

Lemma at_step_stable k : stable graph_event (at_step k).
Proof.
  intros s evs n Hs Hevs. unfold at_step in *. simpl.
  rewrite announced_app, (announced_graph_events evs) by done.
  by rewrite app_nil_r.
Qed.

(** What a stage leaves behind: [Q] when it returns, [E] when it throws. *)
Definition outcome {A} (r : (string + A) * State) (Q E : State -> Prop) : Prop :=
  match r with
  | (inr _, s') => Q s'
  | (inl _, s') => E s'
  end.

(** Unfolds the straight-line part of a stage and splits on the replies. *)
Ltac split_reply x :=
  lazymatch x with
  | context [match _ with _ => _ end] => fail
  | _ => destruct x eqn:?; simpl
  end.

Ltac run_stage :=
  unfold bind, emit, call, check_abort, throw, ret, read_extraction; simpl;
  repeat match goal with
         | |- context [match ?x with _ => _ end] => split_reply x
         end.

Ltac close_step :=
  unfold outcome, at_step in *; simpl in *;
  repeat match goal with
         | H : announced (trace _) = _ |- _ => rewrite ?announced_app, H; clear H
         end;
  simpl; auto.

Section Announcements.

Variable env : Env.
Variable input : PipelineInput.

Lemma phase0_announces v s :
  at_step 0 s -> outcome (phase0 env input v s) (at_step 1) (at_step 1).
Proof.
  intros Hs. unfold phase0, bind at 1, emit at 1.
  set (s1 := {| trace := _; calls := _ |}).
  assert (at_step 1 s1) as H1.
  { subst s1. unfold at_step in *. simpl. by rewrite announced_app, Hs. }
  clearbody s1. unfold bind at 1.
  pose proof (stable_node_event _ (at_step_stable 1)) as Hstable.
  destruct (steady_create_elements env _ Hstable "d1_element"
              "dataset1" "#3b82f6" "[Pipeline] Error creating D1 node:"
              (d1Elements input) s1 H1) as ([] & s2 & -> & H2).
  unfold bind at 1.
  destruct (steady_create_elements env _ Hstable "d2_element"
              "dataset2" "#22c55e" "[Pipeline] Error creating D2 node:"
              (d2Elements input) s2 H2) as ([] & s3 & -> & H3).
  run_stage; close_step.
Qed.

Lemma phase1_announces v s :
  at_step 1 s ->
  outcome (phase1 env input v s) (at_step 3)
          (fun s' => at_step 2 s' \/ at_step 3 s').
Proof. intros Hs. unfold phase1. run_stage; close_step. Qed.

Lemma phase2_announces v s :
  at_step 3 s ->
  outcome (phase2 env v s) (at_step 4)
          (fun s' => at_step 3 s' \/ at_step 4 s').
Proof. intros Hs. unfold phase2. run_stage; close_step. Qed.

Lemma phase2_5_announces v s :
  at_step 4 s -> outcome (phase2_5 env v s) (at_step 5) (at_step 5).
Proof.
  intros Hs. unfold phase2_5, bind at 1.
  destruct (steady_build_graph env _ (at_step_stable 4) v s Hs)
    as ([] & s1 & -> & H1).
  run_stage; close_step.
Qed.

Lemma phase3_announces v s :
  at_step 5 s ->
  outcome (phase3 env v s) (at_step 6)
          (fun s' => at_step 5 s' \/ at_step 6 s').
Proof. intros Hs. unfold phase3. run_stage; close_step. Qed.

Lemma phase4_announces v s :
  at_step 6 s -> outcome (phase4 env v s) (at_step 7) (at_step 6).
Proof. intros Hs. unfold phase4. run_stage; close_step. Qed.

End Announcements.

Lemma start_announces : at_step 0 start.
Proof. done. Qed.

Lemma run_announces env input :
  outcome (run_stages (stages env input) initial_vars start) (at_step 7)
          (fun s' => exists k, (1 <= k <= 6)%nat /\ at_step k s').
Proof.
  unfold stages. simpl. unfold bind.
  pose proof (phase0_announces env input initial_vars start start_announces) as H0.
  destruct (phase0 env input initial_vars start) as [[e|v0] s0]; simpl in H0;
    [exists 1%nat; split; [lia|done]|].
  pose proof (phase1_announces env input v0 s0 H0) as H1.
  destruct (phase1 env input v0 s0) as [[e|v1] s1]; simpl in H1;
    [destruct H1; [exists 2%nat|exists 3%nat]; (split; [lia|done])|].
  pose proof (phase2_announces env v1 s1 H1) as H2.
  destruct (phase2 env v1 s1) as [[e|v2] s2]; simpl in H2;
    [destruct H2; [exists 3%nat|exists 4%nat]; (split; [lia|done])|].
  pose proof (phase2_5_announces env v2 s2 H2) as H3.
  destruct (phase2_5 env v2 s2) as [[e|v3] s3]; simpl in H3;
    [exists 5%nat; split; [lia|done]|].
  pose proof (phase3_announces env v3 s3 H3) as H4.
  destruct (phase3 env v3 s3) as [[e|v4] s4]; simpl in H4;
    [destruct H4; [exists 5%nat|exists 6%nat]; (split; [lia|done])|].
  pose proof (phase4_announces env v4 s4 H4) as H5.
  destruct (phase4 env v4 s4) as [[e|v5] s5]; simpl in H5;
    [exists 6%nat; split; [lia|done]|].
  done.
Qed.

#[local] Instance PipelinePhase_eq_dec : EqDecision PipelinePhase.
Proof. solve_decision. Defined.

(** The percentages of the progress events that are not the error event. *)
Definition regular_progress (tr : list Event) : list Z :=
  snd <$> filter (fun a => a.1 <> error) (announced tr).

(** C9, as stated, fails: a run aborted at the first check announces 5 and
    then, with the error event, 0. *)
Lemma progress_drops_on_failure :
  snd <$> announced (runPipeline aborted_early sample_input) = [5; 0] /\
  ~ Sorted Z.le (snd <$> announced (runPipeline aborted_early sample_input)).
Proof.
  assert (snd <$> announced (runPipeline aborted_early sample_input) = [5; 0])
    as Heq by (vm_compute; reflexivity).
  split; [exact Heq|]. rewrite Heq. intros Hsorted.
  apply Sorted_inv in Hsorted as [_ Hhd]. apply HdRel_inv in Hhd. lia.
Qed.

(** C9 (amended).  The progress events of a run are, in order, those of
    the phases it entered: all of creating_nodes 5, extracting_d1 15,
    merging_concepts 35, building_graph 50, building_tesseract 65,
    generating_venn 85, completed 100 when the run completes; otherwise
    the first [k] of the first six, [k] at least one, followed by one
    event of phase error with progress 0.  Hence the percentages of the
    events other than the error event strictly increase. *)
Theorem progress_of_a_run (env : Env) (input : PipelineInput) :
  (announced (runPipeline env input) = steps \/
   exists k, (1 <= k <= 6)%nat /\
             announced (runPipeline env input) = take k steps ++ [(error, 0)]) /\
  StronglySorted Z.lt (regular_progress (runPipeline env input)).
Proof.
  assert (announced (runPipeline env input) = steps \/
          exists k, (1 <= k <= 6)%nat /\
            announced (runPipeline env input) = take k steps ++ [(error, 0)])
    as Hshape.
  { unfold runPipeline. pose proof (run_announces env input) as H.
    destruct (run_stages (stages env input) initial_vars start) as [[e|v] s];
      simpl in H.
    - right. destruct H as (k & Hk & Hs). exists k. split; [done|].
      unfold on_error, bind, emit. simpl.
      rewrite !announced_app, Hs. simpl. by rewrite !app_nil_r.
    - left. rewrite announced_app, H. done. }
  split; [exact Hshape|]. unfold regular_progress.
  destruct Hshape as [->|(k & Hk & ->)].
  - vm_compute. repeat constructor.
  - assert (k ∈ [1; 2; 3; 4; 5; 6]%nat) as Hin by (rewrite !elem_of_cons; lia).
    repeat (apply elem_of_cons in Hin as [->|Hin];
            [vm_compute; repeat constructor|]).
    by apply elem_of_nil in Hin.
Qed.

(** *** Graph writes that fail *)

(** A world in which nothing but graph writes can go wrong: no abort is
    requested and every edge function answers successfully, whenever it is
    called.  Nothing is assumed of the node and edge RPCs. *)
Record cooperative (env : Env) : Prop := {
  never_aborted : forall n, abortRef env n = false;
  extraction_succeeds : forall n, exists r1 r2 b1 b2,
    extract_replies env n = inr (r1, r2) /\
    ok r1 = true /\ json r1 = inr b1 /\ success b1 = true /\
    ok r2 = true /\ json r2 = inr b2 /\ success b2 = true;
  merge_succeeds : forall n, exists r b,
    merge_reply env n = inr r /\
    ok r = true /\ json r = inr b /\ merge_success b = true;
  tesseract_answers : forall n, exists r,
    tesseract_reply env n = inr r /\ (ok r = true -> exists b, json r = inr b);
  venn_answers : forall n, venn_reply env n = inr tt;
}.

(** Events that report a failed run. *)
Definition reports_failure (e : Event) : Prop :=
  match e with
  | update_audit_session st _ => st = "failed"%string
  | setProgress p => phase p = error
  | setError (Some _) => True
  | _ => False
  end.

Definition unfailed (s : State) : Prop :=
  Forall (fun e => ~ reports_failure e) (trace s).

Lemma unfailed_stable : stable graph_event unfailed.
Proof.
  intros s evs n Hs Hevs. unfold unfailed in *. simpl.
  apply Forall_app. split; [done|].
  eapply Forall_impl; [exact Hevs|].
  intros e He Hr. destruct e; simpl in *; done.
Qed.

Ltac no_failure_reported :=
  repeat (apply Forall_cons_2; [simpl; solve [done|intros [=]|intros []]|]);
  apply Forall_nil_2.

Ltac keep_unfailed :=
  unfold outcome, unfailed in *; simpl in *;
  repeat (apply Forall_app; split; [|no_failure_reported]);
  try done.

Section NotFatal.

Variable env : Env.
Variable input : PipelineInput.
Hypothesis Hcoop : cooperative env.

Lemma phase0_unfailed v s :
  unfailed s -> outcome (phase0 env input v s) unfailed (fun _ => False).
Proof.
  intros Hs. unfold phase0, bind at 1, emit at 1.
  set (s1 := {| trace := _; calls := _ |}).
  assert (unfailed s1) as H1 by (subst s1; keep_unfailed).
  clearbody s1. unfold bind at 1.
  pose proof (stable_node_event _ unfailed_stable) as Hstable.
  destruct (steady_create_elements env _ Hstable "d1_element"
              "dataset1" "#3b82f6" "[Pipeline] Error creating D1 node:"
              (d1Elements input) s1 H1) as ([] & s2 & -> & H2).
  unfold bind at 1.
  destruct (steady_create_elements env _ Hstable "d2_element"
              "dataset2" "#22c55e" "[Pipeline] Error creating D2 node:"
              (d2Elements input) s2 H2) as ([] & s3 & -> & H3).
  unfold bind, emit, check_abort, ret. simpl.
  rewrite (never_aborted env Hcoop). keep_unfailed.
Qed.

Lemma phase1_unfailed v s :
  unfailed s -> outcome (phase1 env input v s) unfailed (fun _ => False).
Proof.
  intros Hs. unfold phase1, bind, emit, call, read_extraction, check_abort, ret.
  simpl.
  destruct (extraction_succeeds env Hcoop (calls s))
    as (r1 & r2 & b1 & b2 & -> & -> & -> & -> & -> & -> & ->).
  simpl. rewrite (never_aborted env Hcoop). keep_unfailed.
Qed.

Lemma phase2_unfailed v s :
  unfailed s -> outcome (phase2 env v s) unfailed (fun _ => False).
Proof.
  intros Hs. unfold phase2, bind, emit, call, check_abort, ret. simpl.
  destruct (merge_succeeds env Hcoop (calls s)) as (r & b & -> & -> & -> & ->).
  simpl. rewrite (never_aborted env Hcoop). keep_unfailed.
Qed.

Lemma phase2_5_unfailed v s :
  unfailed s -> outcome (phase2_5 env v s) unfailed (fun _ => False).
Proof.
  intros Hs. unfold phase2_5, bind at 1.
  destruct (steady_build_graph env _ unfailed_stable v s Hs)
    as ([] & s1 & -> & H1).
  unfold bind, emit, check_abort, ret. simpl.
  rewrite (never_aborted env Hcoop). keep_unfailed.
Qed.

Lemma phase3_unfailed v s :
  unfailed s -> outcome (phase3 env v s) unfailed (fun _ => False).
Proof.
  intros Hs. unfold phase3, bind, emit, call, check_abort, ret. simpl.
  destruct (tesseract_answers env Hcoop (calls s)) as (r & -> & Hbody).
  destruct (ok r); simpl.
  - destruct Hbody as [b ->]; [done|]. simpl.
    rewrite (never_aborted env Hcoop). keep_unfailed.
  - rewrite (never_aborted env Hcoop). keep_unfailed.
Qed.

(** The last two events of a state are those of a completed run. *)
Definition finished (s : State) : Prop :=
  unfailed s /\
  exists tr, trace s = tr ++ [update_audit_session "completed" (Some "completed");
                              setProgress (report completed "Audit pipeline complete!" 100)].

Lemma phase4_unfailed v s :
  unfailed s -> outcome (phase4 env v s) finished (fun _ => False).
Proof.
  intros Hs. unfold phase4, bind, emit, call, ret. simpl.
  rewrite (venn_answers env Hcoop). simpl. split; [keep_unfailed|].
  eexists. by rewrite <- app_assoc.
Qed.

Lemma run_finishes :
  outcome (run_stages (stages env input) initial_vars start) finished
          (fun _ => False).
Proof.
  unfold stages. simpl. unfold bind.
  assert (unfailed start) as H by (unfold unfailed; simpl; no_failure_reported).
  pose proof (phase0_unfailed initial_vars start H) as H0.
  destruct (phase0 env input initial_vars start) as [[e|v0] s0]; [done|].
  pose proof (phase1_unfailed v0 s0 H0) as H1.
  destruct (phase1 env input v0 s0) as [[e|v1] s1]; [done|].
  pose proof (phase2_unfailed v1 s1 H1) as H2.
  destruct (phase2 env v1 s1) as [[e|v2] s2]; [done|].
  pose proof (phase2_5_unfailed v2 s2 H2) as H3.
  destruct (phase2_5 env v2 s2) as [[e|v3] s3]; [done|].
  pose proof (phase3_unfailed v3 s3 H3) as H4.
  destruct (phase3 env v3 s3) as [[e|v4] s4]; [done|].
  pose proof (phase4_unfailed v4 s4 H4) as H5.
  destruct (phase4 env v4 s4) as [[e|v5] s5]; [done|].
  exact H5.
Qed.

(** Whatever the node and edge writes of a run answer, they do not make
    it fail: in a cooperative world the run ends with the session marked
    completed, and no event reports a failure. *)
Lemma graph_write_failures_are_not_fatal :
  (exists tr, runPipeline env input =
              tr ++ [update_audit_session "completed" (Some "completed");
                     setProgress (report completed "Audit pipeline complete!" 100);
                     setIsRunning false]) /\
  Forall (fun e => ~ reports_failure e) (runPipeline env input).
Proof.
  unfold runPipeline. pose proof run_finishes as H.
  destruct (run_stages (stages env input) initial_vars start) as [[e|v] s];
    [done|].
  destruct H as [Hun [tr Htr]]. split.
  - exists tr. rewrite Htr. by rewrite <- app_assoc.
  - apply Forall_app. split; [done|]. no_failure_reported.
Qed.

End NotFatal.

Lemma calm_is_cooperative : cooperative calm.
Proof.
  constructor; intros n; simpl; [done| | | |done].
  - by eexists _, _, _, _.
  - by eexists _, _.
  - eexists. split; [done|]. intros _. by eexists.
Qed.

Lemma edges_refused_is_cooperative : cooperative edges_refused.
Proof. destruct calm_is_cooperative. by constructor. Qed.

Example refused_edges_do_not_fail_the_run :
  Forall (fun e => ~ reports_failure e) (runPipeline edges_refused sample_input).
Proof.
  apply (graph_write_failures_are_not_fatal edges_refused sample_input
           edges_refused_is_cooperative).
Qed.

Ltac not_in_trace H :=
  repeat (apply elem_of_cons in H as [H|H]; [discriminate H|]);
  by apply elem_of_nil in H.

Ltac in_trace :=
  vm_compute; repeat first [apply list_elem_of_here|apply list_elem_of_further].

(** The [console.error] lines of a trace. *)
Definition error_lines (tr : list Event) : list string :=
  omap (fun e => match e with
                 | console_error line => Some line
                 | _ => None
                 end) tr.

(** C8 at a failing input.  In the run over [sample_input] in which both
    edge writes are refused, the refused writes are in the trace and the
    run completes, but no [console.error] line is written: the failure
    is skipped without being logged. *)
Theorem failed_edge_write_is_not_logged :
  let run := runPipeline edges_refused sample_input in
  (exists a, insert_audit_graph_edge a (refused "write failed") ∈ run) /\
  update_audit_session "completed" (Some "completed") ∈ run /\
  error_lines run = [].
Proof.
  split_and!.
  - eexists. in_trace.
  - in_trace.
  - vm_compute. reflexivity.
Qed.

(** The same for a refused concept node: its edges are skipped, nothing
    is logged. *)
Example failed_concept_write_is_not_logged :
  let run := runPipeline concepts_refused sample_input in
  (exists a, upsert_audit_graph_node a (refused "write failed") ∈ run) /\
  (forall a r, insert_audit_graph_edge a r ∉ run) /\
  update_audit_session "completed" (Some "completed") ∈ run /\
  error_lines run = [].
Proof.
  split_and!.
  - eexists. in_trace.
  - intros a r H. vm_compute in H. not_in_trace H.
  - in_trace.
  - vm_compute. reflexivity.
Qed.

(** A refused element node, by contrast, is logged. *)
Example failed_element_write_is_logged :
  error_lines (runPipeline elements_refused sample_input)
  = ["[Pipeline] Error creating D1 node:";
     "[Pipeline] Error creating D2 node:"].
Proof. vm_compute. reflexivity. Qed.

(** *** The edges of a run *)

(** C7 at a failing input.  In the second run the lookup of the element
    [r1] among the session's nodes finds the old concept node first, and
    the run writes a ["defines"] edge whose source is that concept node. *)
Theorem edge_from_stale_concept_node :
  let run := runPipeline rerun sample_input in
  let stale := row "old-concept" "concept" ["r1"; "f1"] in
  find_node (rpc_data (get_nodes_reply rerun 4)) "r1" = Some stale /\
  get_audit_graph_nodes (get_nodes_reply rerun 4) ∈ run /\
  insert_audit_graph_edge
    {| p_source_node_id := node_id stale; p_target_node_id := "node-5";
       p_edge_type := "defines"; p_edge_label := "defines" |}
    (stored tt) ∈ run.
Proof.
  split_and!.
  - vm_compute. reflexivity.
  - in_trace.
  - in_trace.
Qed.

(** An element node, by its type. *)
Definition is_element_row (n : NodeRow) : Prop :=
  node_type n = "d1_element"%string \/ node_type n = "d2_element"%string.

(** The id was returned, in this trace, by an upsert of a concept node. *)
Definition concept_upsert_in (tr : list Event) (target : string) : Prop :=
  exists args res node,
    upsert_audit_graph_node args res ∈ tr /\
    p_node_type args = "concept"%string /\
    rpc_data res = Some node /\ node_id node = target.

(** The element ids that the merge output attributes to each dataset. *)
Definition d1_contributed (v : Vars) (elementId : string) : Prop :=
  (exists c, c ∈ mergedConcepts_ v /\ elementId ∈ d1Ids c) \/
  (exists c, c ∈ unmergedD1Concepts_ v /\ elementId ∈ elementIds c).

Definition d2_contributed (v : Vars) (elementId : string) : Prop :=
  (exists c, c ∈ mergedConcepts_ v /\ elementId ∈ d2Ids c) \/
  (exists c, c ∈ unmergedD2Concepts_ v /\ elementId ∈ elementIds c).

(** ["defines"] goes with an id of Dataset 1, ["implements"] with an id of
    Dataset 2. *)
Definition provenance (v : Vars) (edge_type elementId : string) : Prop :=
  (edge_type = "defines"%string /\ d1_contributed v elementId) \/
  (edge_type = "implements"%string /\ d2_contributed v elementId).

Definition no_edge (e : Event) : Prop :=
  match e with
  | insert_audit_graph_edge _ _ => False
  | _ => True
  end.

Definition edge_free (s : State) : Prop := Forall no_edge (trace s).

Lemma edge_free_stable : stable node_event edge_free.
Proof.
  intros s evs n Hs Hevs. unfold edge_free in *. simpl.
  apply Forall_app. split; [done|].
  eapply Forall_impl; [exact Hevs|]. intros e He. by destruct e.
Qed.

Lemma concept_upsert_in_mono tr tr' target :
  concept_upsert_in tr target -> concept_upsert_in (tr ++ tr') target.
Proof.
  intros (args & res & node & Hin & ?). exists args, res, node.
  split; [|done]. apply elem_of_app. by left.
Qed.

Lemma find_node_spec allNodes elementId n :
  find_node allNodes elementId = Some n ->
  exists nodes ids, allNodes = Some nodes /\ n ∈ nodes /\
                    source_element_ids n = Some ids /\ elementId ∈ ids.
Proof.
  unfold find_node. destruct allNodes as [nodes|]; [|done].
  intros [Hin Htest]%find_some. apply list_elem_of_In in Hin.
  destruct (source_element_ids n) as [ids|]; [|done].
  apply bool_decide_eq_true in Htest. by exists nodes, ids.
Qed.

Section Linking.

Variable env : Env.
Variable v : Vars.
Variable allNodes : option (list NodeRow).

(** What is known of an edge written by the graph construction. *)
Definition edge_ok (tr : list Event) (a : EdgeArgs) : Prop :=
  (exists elementId n,
     find_node allNodes elementId = Some n /\
     p_source_node_id a = node_id n /\
     provenance v (p_edge_type a) elementId) /\
  concept_upsert_in tr (p_target_node_id a).

Definition linked (s : State) : Prop :=
  forall a r, insert_audit_graph_edge a r ∈ trace s -> edge_ok (trace s) a.

Lemma edge_free_linked s : edge_free s -> linked s.
Proof.
  intros Hs a r Hin. unfold edge_free in Hs. rewrite Forall_forall in Hs.
  destruct (Hs _ Hin).
Qed.

Lemma linked_extend s evs n :
  linked s -> Forall no_edge evs ->
  linked {| trace := trace s ++ evs; calls := n |}.
Proof.
  intros Hs Hevs a r [Hin|Hin]%elem_of_app; simpl.
  - destruct (Hs a r Hin) as [Hsrc Htgt]. split; [done|].
    by apply concept_upsert_in_mono.
  - rewrite Forall_forall in Hevs. destruct (Hevs _ Hin).
Qed.

Lemma linked_stable : stable node_event linked.
Proof.
  intros s evs n Hs Hevs. apply linked_extend; [done|].
  eapply Forall_impl; [exact Hevs|]. intros e He. by destruct e.
Qed.

(** The edge loop keeps the edges linked, when its target was upserted as
    a concept node and its ids have the provenance of its edge type. *)
Lemma linked_create_edges ty target ids s :
  linked s -> concept_upsert_in (trace s) (node_id target) ->
  (forall elementId, elementId ∈ ids -> provenance v ty elementId) ->
  exists s', create_edges env allNodes ty target ids s = (inr tt, s') /\
             linked s' /\
             concept_upsert_in (trace s') (node_id target).
Proof.
  unfold create_edges. revert s.
  induction ids as [|x ids IH]; intros s Hs Htgt Hprov; simpl.
  - by exists s.
  - unfold bind at 1.
    destruct (find_node allNodes x) as [n|] eqn:Hfind.
    + unfold bind, call, ret. simpl.
      apply IH; simpl.
      * intros a r [Hin|Hin]%elem_of_app.
        -- destruct (Hs a r Hin) as [Hsrc Ht]. split; [done|].
           by apply concept_upsert_in_mono.
        -- apply list_elem_of_singleton in Hin. injection Hin as -> _.
           split; simpl.
           ++ exists x, n. split_and!; [done|done|]. apply Hprov. by left.
           ++ by apply concept_upsert_in_mono.
      * by apply concept_upsert_in_mono.
      * intros y Hy. apply Hprov. by right.
    + unfold ret. apply IH; [done|done|].
      intros y Hy. apply Hprov. by right.
Qed.

(** After a concept upsert that returned a node, that node is a target. *)
Lemma upsert_gives_target s args res node :
  p_node_type args = "concept"%string -> rpc_data res = Some node ->
  concept_upsert_in (trace s ++ [upsert_audit_graph_node args res])
                    (node_id node).
Proof.
  intros Hty Hdata. exists args, res, node. split; [|done].
  apply elem_of_app. right. by apply list_elem_of_singleton.
Qed.

Lemma linked_create_merged_node c :
  c ∈ mergedConcepts_ v -> steady linked (create_merged_node env allNodes c).
Proof.
  intros Hc s Hs. unfold create_merged_node, bind at 1, call.
  set (args := {| p_label := mergedLabel c; p_description := _ |}).
  set (res := upsert_node_reply env (calls s)).
  set (s1 := {| trace := _; calls := _ |}).
  assert (linked s1) as H1.
  { subst s1. apply linked_extend; [done|]. by repeat constructor. }
  unfold when_created. destruct (rpc_data res) as [node|] eqn:Hdata;
    [|by exists tt, s1].
  destruct (String.eqb (node_id node) EmptyString); [by exists tt, s1|].
  assert (concept_upsert_in (trace s1) (node_id node)) as Htgt
    by by apply upsert_gives_target.
  unfold bind.
  destruct (linked_create_edges "defines" node (d1Ids c) s1 H1 Htgt)
    as (s2 & -> & H2 & Htgt2).
  { intros x Hx. left. split; [done|]. left. by exists c. }
  destruct (linked_create_edges "implements" node (d2Ids c) s2 H2 Htgt2)
    as (s3 & -> & H3 & _).
  { intros x Hx. right. split; [done|]. left. by exists c. }
  by exists tt, s3.
Qed.

Lemma linked_create_unmerged_node ds color meta ty c :
  (forall elementId, elementId ∈ elementIds c -> provenance v ty elementId) ->
  steady linked (create_unmerged_node env allNodes ds color meta ty c).
Proof.
  intros Hprov s Hs. unfold create_unmerged_node, bind at 1, call.
  set (args := {| p_label := label c; p_description := _ |}).
  set (res := upsert_node_reply env (calls s)).
  set (s1 := {| trace := _; calls := _ |}).
  assert (linked s1) as H1.
  { subst s1. apply linked_extend; [done|]. by repeat constructor. }
  unfold when_created. destruct (rpc_data res) as [node|] eqn:Hdata;
    [|by exists tt, s1].
  destruct (String.eqb (node_id node) EmptyString); [by exists tt, s1|].
  assert (concept_upsert_in (trace s1) (node_id node)) as Htgt
    by by apply upsert_gives_target.
  destruct (linked_create_edges ty node (elementIds c) s1 H1 Htgt Hprov)
    as (s2 & -> & H2 & _).
  by exists tt, s2.
Qed.

End Linking.

(** A loop whose body keeps [I] on the members of the list keeps [I]. *)
Lemma steady_for_each_in {A} I (xs : list A) (body : A -> M unit) :
  (forall x, x ∈ xs -> steady I (body x)) -> steady I (for_each xs body).
Proof.
  induction xs as [|x xs IH]; intros Hbody; simpl.
  - apply steady_ret.
  - apply steady_bind; [apply Hbody; by left|].
    intros []. apply IH. intros y Hy. apply Hbody. by right.
Qed.

(** The graph construction, started without edges, links every edge it
    writes, with respect to the nodes its query returned. *)
Lemma linked_build_graph env v s :
  edge_free s ->
  exists s', build_graph env v s = (inr tt, s') /\
             linked v (rpc_data (get_nodes_reply env (calls s))) s'.
Proof.
  intros Hs. unfold build_graph, bind at 1, call.
  set (allNodes := rpc_data (get_nodes_reply env (calls s))).
  set (s1 := {| trace := _; calls := _ |}).
  assert (linked v allNodes s1) as H1.
  { subst s1. apply linked_extend; [by apply edge_free_linked|].
    by repeat constructor. }
  clearbody s1.
  assert (steady (linked v allNodes)
            (for_each (mergedConcepts_ v) (create_merged_node env allNodes) ;;
             for_each (unmergedD1Concepts_ v)
               (create_unmerged_node env allNodes "dataset1" "#ef4444"
                  meta_gap "defines") ;;
             for_each (unmergedD2Concepts_ v)
               (create_unmerged_node env allNodes "dataset2" "#f59e0b"
                  meta_orphan "implements"))) as Hloops.
  { apply steady_bind.
    - apply steady_for_each_in. intros c Hc.
      by apply linked_create_merged_node.
    - intros []. apply steady_bind.
      + apply steady_for_each_in. intros c Hc.
        apply linked_create_unmerged_node. intros x Hx.
        left. split; [done|]. right. by exists c.
      + intros []. apply steady_for_each_in. intros c Hc.
        apply linked_create_unmerged_node. intros x Hx.
        right. split; [done|]. right. by exists c. }
  destruct (Hloops s1 H1) as ([] & s2 & Heq & H2). by exists s2.
Qed.

(** The variables hold what some merge response of this world said. *)
Definition merge_outcome (env : Env) (v : Vars) : Prop :=
  exists k r b,
    merge_reply env k = inr r /\ json r = inr b /\
    mergedConcepts_ v = default [] (mergedConcepts b) /\
    unmergedD1Concepts_ v =
      ((fun c => {| label := u_label c; description := u_description c;
                    elementIds := default [] (u_d1Ids c) |})
         <$> default [] (unmergedD1Concepts b)) /\
    unmergedD2Concepts_ v =
      ((fun c => {| label := u_label c; description := u_description c;
                    elementIds := default [] (u_d2Ids c) |})
         <$> default [] (unmergedD2Concepts b)).

(** Every edge of the trace is linked, for the output of some merge
    response and the nodes of some node query of this world. *)
Definition settled (env : Env) (s : State) : Prop :=
  forall a r, insert_audit_graph_edge a r ∈ trace s ->
    exists v k, merge_outcome env v /\
                edge_ok v (rpc_data (get_nodes_reply env k)) (trace s) a.

Lemma edge_free_settled env s : edge_free s -> settled env s.
Proof.
  intros Hs a r Hin. unfold edge_free in Hs. rewrite Forall_forall in Hs.
  destruct (Hs _ Hin).
Qed.

Lemma linked_settled env v k s :
  merge_outcome env v -> linked v (rpc_data (get_nodes_reply env k)) s ->
  settled env s.
Proof. intros Hv Hs a r Hin. exists v, k. split; [done|]. by apply (Hs a r). Qed.

Ltac no_edges :=
  repeat (apply Forall_cons_2; [exact I|]); apply Forall_nil_2.

Ltac keep_edge_free :=
  unfold outcome, edge_free in *; simpl in *;
  repeat (apply Forall_app; split; [|no_edges]);
  try done.

Section Edges.

Variable env : Env.
Variable input : PipelineInput.

Lemma phase0_edge_free v s :
  edge_free s -> outcome (phase0 env input v s) edge_free edge_free.
Proof.
  intros Hs. unfold phase0, bind at 1, emit at 1.
  set (s1 := {| trace := _; calls := _ |}).
  assert (edge_free s1) as H1 by (subst s1; keep_edge_free).
  clearbody s1. unfold bind at 1.
  destruct (steady_create_elements env _ edge_free_stable "d1_element"
              "dataset1" "#3b82f6" "[Pipeline] Error creating D1 node:"
              (d1Elements input) s1 H1) as ([] & s2 & -> & H2).
  unfold bind at 1.
  destruct (steady_create_elements env _ edge_free_stable "d2_element"
              "dataset2" "#22c55e" "[Pipeline] Error creating D2 node:"
              (d2Elements input) s2 H2) as ([] & s3 & -> & H3).
  run_stage; keep_edge_free.
Qed.

Lemma phase1_edge_free v s :
  edge_free s -> outcome (phase1 env input v s) edge_free edge_free.
Proof. intros Hs. unfold phase1. run_stage; keep_edge_free. Qed.

Lemma phase2_edge_free v s :
  edge_free s -> outcome (phase2 env v s) edge_free edge_free.
Proof. intros Hs. unfold phase2. run_stage; keep_edge_free. Qed.

Lemma phase2_returns v s v' s' :
  phase2 env v s = (inr v', s') -> merge_outcome env v'.
Proof.
  unfold phase2, bind, emit, call, check_abort, throw, ret. simpl.
  destruct (merge_reply env (calls s)) as [msg|r] eqn:Hreply; [done|].
  destruct (ok r); simpl; [|done].
  destruct (json r) as [msg|b] eqn:Hbody; [done|].
  destruct (merge_success b); simpl; [|done].
  destruct (abortRef env _); [done|].
  intros [= <- _]. by exists (calls s), r, b.
Qed.

Lemma phase2_5_links v s :
  edge_free s ->
  outcome (phase2_5 env v s)
          (linked v (rpc_data (get_nodes_reply env (calls s))))
          (linked v (rpc_data (get_nodes_reply env (calls s)))).
Proof.
  intros Hs. unfold phase2_5, bind at 1.
  destruct (linked_build_graph env v s Hs) as (s1 & -> & H1).
  run_stage; unfold outcome; simpl;
    (apply (linked_extend _ _ s1); [done|no_edges]).
Qed.

Lemma phase3_keeps_links v0 allNodes v s :
  linked v0 allNodes s ->
  outcome (phase3 env v s) (linked v0 allNodes) (linked v0 allNodes).
Proof.
  intros Hs. unfold phase3. run_stage; unfold outcome; simpl;
    rewrite <- ?app_assoc; (apply (linked_extend _ _ s); [done|no_edges]).
Qed.

Lemma phase4_keeps_links v0 allNodes v s :
  linked v0 allNodes s ->
  outcome (phase4 env v s) (linked v0 allNodes) (linked v0 allNodes).
Proof.
  intros Hs. unfold phase4. run_stage; unfold outcome; simpl;
    rewrite <- ?app_assoc; (apply (linked_extend _ _ s); [done|no_edges]).
Qed.

Lemma run_settled :
  outcome (run_stages (stages env input) initial_vars start)
          (settled env) (settled env).
Proof.
  unfold stages. simpl. unfold bind.
  assert (edge_free start) as H by (unfold edge_free; simpl; no_edges).
  pose proof (phase0_edge_free initial_vars start H) as H0.
  destruct (phase0 env input initial_vars start) as [[e|v0] s0]; simpl in H0;
    [by apply edge_free_settled|].
  pose proof (phase1_edge_free v0 s0 H0) as H1.
  destruct (phase1 env input v0 s0) as [[e|v1] s1]; simpl in H1;
    [by apply edge_free_settled|].
  pose proof (phase2_edge_free v1 s1 H1) as H2.
  pose proof (phase2_returns v1 s1) as Hv.
  destruct (phase2 env v1 s1) as [[e|v2] s2]; simpl in H2;
    [by apply edge_free_settled|].
  specialize (Hv v2 s2 eq_refl).
  pose proof (phase2_5_links v2 s2 H2) as H3.
  destruct (phase2_5 env v2 s2) as [[e|v3] s3]; simpl in H3;
    [by eapply linked_settled|].
  pose proof (phase3_keeps_links _ _ v3 s3 H3) as H4.
  destruct (phase3 env v3 s3) as [[e|v4] s4]; simpl in H4;
    [by eapply linked_settled|].
  pose proof (phase4_keeps_links _ _ v4 s4 H4) as H5.
  destruct (phase4 env v4 s4) as [[e|v5] s5]; simpl in H5;
    by eapply linked_settled.
Qed.

Lemma settled_extend s evs :
  settled env s -> Forall no_edge evs ->
  forall a r, insert_audit_graph_edge a r ∈ trace s ++ evs ->
    exists v k, merge_outcome env v /\
                edge_ok v (rpc_data (get_nodes_reply env k)) (trace s ++ evs) a.
Proof.
  intros Hs Hevs a r [Hin|Hin]%elem_of_app.
  - destruct (Hs a r Hin) as (v & k & Hv & Hsrc & Htgt).
    exists v, k. split; [done|]. split; [done|].
    by apply concept_upsert_in_mono.
  - rewrite Forall_forall in Hevs. destruct (Hevs _ Hin).
Qed.

(** In a run whose node query returns element nodes only, every edge
    written goes from an element node that carries the element id to a
    node returned by the upsert of a concept node, with edge type
    ["defines"] for an id the merge output attributes to Dataset 1 and
    ["implements"] for one it attributes to Dataset 2. *)
Lemma edges_link_elements_to_concepts a r :
  (forall k nodes, rpc_data (get_nodes_reply env k) = Some nodes ->
                   Forall is_element_row nodes) ->
  insert_audit_graph_edge a r ∈ runPipeline env input ->
  exists v elementId n ids,
    merge_outcome env v /\
    is_element_row n /\
    source_element_ids n = Some ids /\ elementId ∈ ids /\
    p_source_node_id a = node_id n /\
    concept_upsert_in (runPipeline env input) (p_target_node_id a) /\
    provenance v (p_edge_type a) elementId.
Proof.
  intros Hrows Hin.
  assert (exists v k, merge_outcome env v /\
            edge_ok v (rpc_data (get_nodes_reply env k))
                    (runPipeline env input) a) as (v & k & Hv & Hsrc & Htgt).
  { revert Hin. unfold runPipeline. pose proof run_settled as H.
    destruct (run_stages (stages env input) initial_vars start) as [[e|v] s];
      simpl in H.
    - unfold on_error, bind, emit. simpl. rewrite <- !app_assoc. simpl.
      apply settled_extend; [done|no_edges].
    - apply settled_extend; [done|no_edges]. }
  destruct Hsrc as (elementId & n & Hfind & Hid & Hprov).
  destruct (find_node_spec _ _ _ Hfind) as (nodes & ids & Hnodes & Hn & Hids & Hx).
  exists v, elementId, n, ids. split_and!; try done.
  specialize (Hrows k nodes Hnodes). rewrite Forall_forall in Hrows.
  by apply Hrows.
Qed.

End Edges.

Example calm_edges_link_elements_to_concepts a r :
  insert_audit_graph_edge a r ∈ runPipeline calm sample_input ->
  exists n, is_element_row n /\ p_source_node_id a = node_id n /\
            concept_upsert_in (runPipeline calm sample_input) (p_target_node_id a).
Proof.
  intros Hin.
  destruct (edges_link_elements_to_concepts calm sample_input a r)
    as (v & x & n & ids & _ & Hn & _ & _ & Hsrc & Htgt & _); [|done|by exists n].
  intros k nodes [= <-].
  apply Forall_cons_2; [by left|]. apply Forall_cons_2; [by right|].
  apply Forall_nil_2.
Qed.

End PipelineFacts.

(* ===================================================================== *)
(** ** Further properties of the merge reconciliation                     *)
(* ===================================================================== *)

Module MergeMore.

Import Merge MergeFacts.

(** A merge group with the labels that match no concept of [cs] removed
    from its [sourceConcepts]. *)
Definition prune (toLowerCase : string -> string) (cs : list UnifiedConcept)
    (m : MergeGroup) : MergeGroup :=
  {| sourceConcepts :=
       filter (fun l => toLowerCase l ∈ key toLowerCase <$> cs)
         <$> sourceConcepts m;
     mergedLabel := mergedLabel m;
     mergedDescription := mergedDescription m |}.

(** Two groups that differ at most in the letter case of the labels they
    list. *)
Definition same_modulo_case (toLowerCase : string -> string)
    (m m' : MergeGroup) : Prop :=
  toLowerCase <$> orEmpty (sourceConcepts m)
    = toLowerCase <$> orEmpty (sourceConcepts m') /\
  mergedLabel m = mergedLabel m' /\
  mergedDescription m = mergedDescription m'.

Section Shape.

Variable toLowerCase : string -> string.

Local Abbreviation key := (key toLowerCase).
Local Abbreviation conceptByLabel := (conceptByLabel toLowerCase).
Local Abbreviation resolve_label := (resolve_label toLowerCase).
Local Abbreviation resolve := (resolve toLowerCase).
Local Abbreviation process_merge := (process_merge toLowerCase).
Local Abbreviation process_merges := (process_merges toLowerCase).
Local Abbreviation passThrough := (passThrough toLowerCase).
Local Abbreviation reconcile := (reconcile toLowerCase).

(** What the outer loop maintains between its two output lists: one log
    entry per merged concept, under the same label, with at least two
    source labels. *)
Definition log_inv (st : State) : Prop :=
  Forall (fun e => 2 <= length (from e)) (mergeLog st) /\
  to <$> mergeLog st = label <$> outputConcepts st.

Lemma process_merge_log_inv cs B st m :
  well_keyed toLowerCase cs B -> log_inv st -> log_inv (process_merge B st m).
Proof.
  intros HB [Hsz Hto].
  destruct (decide (length (validSources
              (resolve B (mergedLabels st) (orEmpty (sourceConcepts m)))) < 2))
    as [Hlt|Hge].
  - by rewrite (process_merge_discard toLowerCase cs).
  - pose proof (resolve_spec toLowerCase cs B (mergedLabels st)
                  (orEmpty (sourceConcepts m)) HB) as [_ _ _ _ Hlb].
    unfold Merge.process_merge. rewrite bool_decide_eq_true_2 by lia.
    split; simpl.
    + apply Forall_app. split; [done|]. apply Forall_cons_2; [|apply Forall_nil_2].
      simpl. rewrite Hlb, length_fmap. lia.
    + rewrite !fmap_app. simpl. by rewrite Hto.
Qed.

Lemma process_merges_log_inv cs ms : log_inv (process_merges cs ms).
Proof.
  unfold Merge.process_merges.
  assert (log_inv init) as Hinit by (split; [apply Forall_nil_2|done]).
  revert Hinit. generalize init.
  induction ms as [|m ms IH]; intros st Hst; simpl; [done|].
  apply IH. eapply process_merge_log_inv; [apply conceptByLabel_well_keyed|done].
Qed.

(** Every group of consumed sources has two members or more. *)
Lemma consumed_groups_sizes cs ms G :
  process_inv toLowerCase (conceptByLabel cs) (process_merges cs ms) G ->
  Forall (fun g => 2 <= length g) G.
Proof.
  intros [_ _ _ _ Hlog].
  destruct (process_merges_log_inv cs ms) as [Hsz _].
  revert Hsz. induction Hlog as [|e g lg G He _ IH]; intros Hsz;
    [apply Forall_nil_2|].
  apply Forall_cons in Hsz as [Hhd Htl].
  apply Forall_cons_2; [|by apply IH].
  rewrite He, length_fmap in Hhd. done.
Qed.

Lemma length_concat_groups (G : list (list UnifiedConcept)) :
  Forall (fun g => 2 <= length g) G -> 2 * length G <= length (concat G).
Proof.
  induction 1 as [|g G Hg _ IH]; simpl; [lia|]. rewrite length_app. lia.
Qed.

(** The consumed sources are concepts of the input whose key is marked. *)
Lemma consumed_in_input cs ms G :
  process_inv toLowerCase (conceptByLabel cs) (process_merges cs ms) G ->
  forall c, c ∈ concat G ->
    c ∈ filter (fun c => key c ∈ mergedLabels (process_merges cs ms)) cs.
Proof.
  intros [Hm _ Hlk _ _] c Hc. apply list_elem_of_filter. split.
  - rewrite Hm. apply elem_of_list_to_set, list_elem_of_fmap. by exists c.
  - by destruct (conceptByLabel_well_keyed toLowerCase cs _ _ (Hlk c Hc)).
Qed.

Lemma length_filter_split (P : UnifiedConcept -> Prop)
    `{!forall c, Decision (P c)} (cs : list UnifiedConcept) :
  length (filter P cs) + length (filter (fun c => ~ P c) cs) = length cs.
Proof.
  induction cs as [|c cs IH]; simpl; [done|].
  rewrite !filter_cons. destruct (decide (P c)), (decide (~ P c)); simpl;
    try tauto; lia.
Qed.

Lemma elem_of_flat_map {A B} (f : A -> list B) (l : list A) (y : B) :
  y ∈ flat_map f l <-> exists x, x ∈ l /\ y ∈ f x.
Proof.
  rewrite list_elem_of_In, in_flat_map. split.
  - intros (x & Hx & Hy). exists x. by rewrite !list_elem_of_In.
  - intros (x & Hx & Hy). exists x. by rewrite <- !list_elem_of_In.
Qed.

(** The ids of the output come from the input, whatever the groups. *)
Lemma output_ids_from_input f cs merges :
  from_sources f -> flat_map f (reconcile cs merges).1 ⊆ flat_map f cs.
Proof.
  intros Hf x. unfold Merge.reconcile. simpl.
  destruct (process_merges_inv toLowerCase cs (orEmpty merges))
    as [G [_ _ Plk Pout _]].
  pose proof (conceptByLabel_well_keyed toLowerCase cs) as HB.
  rewrite flat_map_app, elem_of_app, !elem_of_flat_map.
  intros [(o & Ho & Hx)|(p & Hp & Hx)].
  - apply list_elem_of_lookup in Ho as [i Hi].
    destruct (Forall2_lookup_l _ _ _ _ _ Pout Hi) as (g & Hg & m & ->).
    apply Hf in Hx as (c & Hc & Hxc). exists c. split; [|done].
    apply (HB (key c)), Plk, elem_of_concat. exists g. split; [done|].
    apply list_elem_of_lookup. by exists i.
  - exists p. split; [|done]. by apply list_elem_of_filter in Hp as [_ ?].
Qed.

(** With distinct keys every id of the input is still in the output,
    also when concepts share ids. *)
Lemma input_ids_in_output f cs merges :
  merged_by_Set f -> NoDup (key <$> cs) ->
  flat_map f cs ⊆ flat_map f (reconcile cs merges).1.
Proof.
  intros Hf Hkeys x. unfold Merge.reconcile. simpl.
  destruct (process_merges_inv toLowerCase cs (orEmpty merges)) as [G HG].
  pose proof (consumed_marked toLowerCase cs _ G Hkeys HG) as Hperm.
  destruct HG as [_ _ _ Pout _].
  set (st := process_merges cs (orEmpty merges)) in *.
  rewrite flat_map_app, elem_of_app, !elem_of_flat_map.
  intros (c & Hc & Hx).
  destruct (decide (key c ∉ mergedLabels st)) as [Hfree|Hmarked].
  - right. exists c. split; [|done]. by apply list_elem_of_filter.
  - left. assert (c ∈ concat G) as Hcons.
    { rewrite Hperm. by apply list_elem_of_filter. }
    apply elem_of_concat in Hcons as (g & Hcg & Hg).
    apply list_elem_of_lookup in Hg as [i Hi].
    destruct (Forall2_lookup_r _ _ _ _ _ Pout Hi) as (o & Ho & m & ->).
    exists (mergedConcept m g). split; [by eapply list_elem_of_lookup_2|].
    rewrite Hf. apply elem_of_Set_from, elem_of_flat_map. by exists c.
Qed.

Lemma length_Set_from (xs : list string) :
  length (Set_from xs) <= length xs.
Proof.
  apply submseteq_length, NoDup_submseteq; [apply Set_from_is_NoDup|].
  intros x. by rewrite elem_of_Set_from.
Qed.

Lemma flat_map_submseteq_length {A B} (f : A -> list B) (l k : list A) :
  l ⊆+ k -> length (flat_map f l) <= length (flat_map f k).
Proof.
  induction 1; simpl; rewrite ?length_app in *; lia.
Qed.

Lemma flat_map_filter_split {B} (f : UnifiedConcept -> list B)
    (P : UnifiedConcept -> Prop) `{!forall c, Decision (P c)}
    (cs : list UnifiedConcept) :
  length (flat_map f (filter P cs))
  + length (flat_map f (filter (fun c => ~ P c) cs))
  = length (flat_map f cs).
Proof.
  induction cs as [|c cs IH]; simpl; [done|].
  rewrite !filter_cons. destruct (decide (P c)), (decide (~ P c)); simpl;
    rewrite ?length_app; try tauto; lia.
Qed.

Lemma merged_ids_length f O G :
  merged_by_Set f ->
  Forall2 (fun o g => exists m, o = mergedConcept m g) O G ->
  length (flat_map f O) <= length (flat_map f (concat G)).
Proof.
  intros Hf HO. induction HO as [|o g O G [m ->] HO IH]; simpl; [done|].
  rewrite flat_map_app, !length_app, Hf.
  pose proof (length_Set_from (flat_map f g)). lia.
Qed.

(** The ids of the output, counted with repetitions, are never more than
    those of the input. *)
Lemma output_ids_length f cs merges :
  merged_by_Set f ->
  length (flat_map f (reconcile cs merges).1) <= length (flat_map f cs).
Proof.
  intros Hf. unfold Merge.reconcile. simpl.
  destruct (process_merges_inv toLowerCase cs (orEmpty merges)) as [G HG].
  pose proof (consumed_in_input cs _ G HG) as Hin.
  pose proof HG as [_ Hnd _ Hout _].
  set (st := process_merges cs (orEmpty merges)) in *.
  assert (concat G ⊆+ filter (fun c => key c ∈ mergedLabels st) cs) as Hsub.
  { apply NoDup_submseteq; [|done]. by apply NoDup_fmap_1 in Hnd. }
  apply (flat_map_submseteq_length f) in Hsub.
  pose proof (merged_ids_length f _ G Hf Hout).
  pose proof (flat_map_filter_split f
                (fun c => key c ∈ mergedLabels st) cs).
  rewrite flat_map_app, length_app. unfold Merge.passThrough. lia.
Qed.

(** The inner loop looks at a label only through its lower-case form. *)
Lemma resolve_fold_case B r ls ls' :
  toLowerCase <$> ls = toLowerCase <$> ls' ->
  foldl (resolve_label B) r ls = foldl (resolve_label B) r ls'.
Proof.
  revert r ls'. induction ls as [|l ls IH]; intros r [|l' ls'] Heq;
    simpl in *; try done.
  injection Heq as Hl Hls. rewrite <- (IH _ ls' Hls). f_equal.
  unfold Merge.resolve_label. by rewrite Hl.
Qed.

(** A label that matches no concept leaves the inner loop where it is. *)
Lemma resolve_fold_unknown cs r ls :
  foldl (resolve_label (conceptByLabel cs)) r
        (filter (fun l => toLowerCase l ∈ key <$> cs) ls)
  = foldl (resolve_label (conceptByLabel cs)) r ls.
Proof.
  revert r. induction ls as [|l ls IH]; intros r; [done|].
  rewrite filter_cons. destruct (decide (toLowerCase l ∈ key <$> cs))
    as [Hin|Hout]; simpl; [apply IH|].
  rewrite IH. f_equal. unfold Merge.resolve_label.
  destruct (decide (toLowerCase l ∈ marked r)); [done|].
  unfold Merge.conceptByLabel.
  by rewrite (table_fold_other toLowerCase cs ∅ _ Hout), lookup_empty.
Qed.

Lemma process_merge_case B st m m' :
  same_modulo_case toLowerCase m m' ->
  process_merge B st m = process_merge B st m'.
Proof.
  intros (Hls & Hl & Hd). unfold Merge.process_merge, Merge.resolve.
  rewrite (resolve_fold_case B _ _ _ Hls).
  unfold mergedConcept. by rewrite Hl, Hd.
Qed.

Lemma process_merge_prune cs st m :
  process_merge (conceptByLabel cs) st (prune toLowerCase cs m)
  = process_merge (conceptByLabel cs) st m.
Proof.
  unfold Merge.process_merge, Merge.resolve.
  assert (orEmpty (sourceConcepts (prune toLowerCase cs m))
          = filter (fun l => toLowerCase l ∈ key <$> cs)
                   (orEmpty (sourceConcepts m))) as ->.
  { unfold prune. simpl. by destruct (sourceConcepts m). }
  by rewrite resolve_fold_unknown.
Qed.

(** Concepts and log entries of the result, against the input. *)
Lemma reconcile_length cs merges :
  length (reconcile cs merges).1 + length (reconcile cs merges).2
  <= length cs.
Proof.
  unfold Merge.reconcile. simpl.
  destruct (process_merges_inv toLowerCase cs (orEmpty merges)) as [G HG].
  pose proof (consumed_groups_sizes cs _ G HG) as Hsz.
  apply length_concat_groups in Hsz.
  pose proof (consumed_in_input cs _ G HG) as Hin.
  pose proof HG as [_ Hnd _ Hout Hlog].
  apply Forall2_length in Hout, Hlog.
  set (st := process_merges cs (orEmpty merges)) in *.
  assert (length (concat G)
          <= length (filter (fun c => key c ∈ mergedLabels st) cs))
    as Hle.
  { apply submseteq_length, NoDup_submseteq; [|done].
    by apply NoDup_fmap_1 in Hnd. }
  pose proof (length_filter_split
                (fun c => key c ∈ mergedLabels st) cs) as Hsplit.
  rewrite length_app. unfold passThrough. lia.
Qed.

(** Without marks every concept passes through. *)
Lemma passThrough_unmarked cs : passThrough ∅ cs = cs.
Proof.
  unfold Merge.passThrough. induction cs as [|c cs IH]; [done|].
  rewrite filter_cons_True by set_solver. by rewrite IH.
Qed.

(** Without groups the input comes back as it is. *)
Lemma reconcile_no_groups cs : reconcile cs None = (cs, []).
Proof. unfold Merge.reconcile. simpl. by rewrite passThrough_unmarked. Qed.

End Shape.

(** *** Size and shape of the result *)

(** X1.  A merge pass never adds concepts, and every recorded merge
    removes one at least: the number of concepts returned plus the number
    of merge log entries is at most the number of concepts received,
    whatever groups the reply proposes.  When the merge log comes back
    empty, the concepts returned are the concepts received, unchanged and
    in their order, also when the reply did propose groups. *)
Theorem merge_pass_never_adds_concepts (toLowerCase : string -> string)
    (cs : list UnifiedConcept) (merges : option (list MergeGroup)) :
  length (reconcile toLowerCase cs merges).1
  + length (reconcile toLowerCase cs merges).2
  <= length cs /\
  ((reconcile toLowerCase cs merges).2 = [] ->
   (reconcile toLowerCase cs merges).1 = cs).
Proof.
  split; [apply reconcile_length|].
  unfold reconcile. simpl. intros Hlog.
  destruct (process_merges_inv toLowerCase cs (orEmpty merges))
    as [G [Hmarked _ _ Hout Hlogs]].
  rewrite Hlog in Hlogs. apply Forall2_nil_inv_l in Hlogs as ->.
  apply Forall2_nil_inv_r in Hout. rewrite Hout, Hmarked. simpl.
  apply passThrough_unmarked.
Qed.

(** X2.  The result lists the merged concepts first, one per merge log
    entry, in the order of the log and under the label the log records;
    every log entry names two source labels or more; the concepts after
    the merged ones are concepts of the input, unchanged and in their
    original order. *)
Theorem merged_first_then_untouched (toLowerCase : string -> string)
    (cs : list UnifiedConcept) (merges : option (list MergeGroup)) :
  let r := reconcile toLowerCase cs merges in
  Forall (fun e => 2 <= length (from e)) r.2 /\
  to <$> r.2 = label <$> take (length r.2) r.1 /\
  drop (length r.2) r.1 `sublist_of` cs.
Proof.
  simpl. unfold reconcile. simpl.
  destruct (process_merges_log_inv toLowerCase cs (orEmpty merges))
    as [Hsz Hto].
  set (st := process_merges toLowerCase cs (orEmpty merges)) in *.
  assert (length (mergeLog st) = length (outputConcepts st)) as Hlen.
  { by rewrite <- (length_fmap to), Hto, length_fmap. }
  split_and!; [done| |].
  - by rewrite Hlen, take_app_length.
  - rewrite Hlen, drop_app_length. apply sublist_filter.
Qed.

(** *** The element ids *)

(** X3.  A merge pass invents no element id: every D1 id of the result is
    a D1 id of the input, and likewise for D2, whatever the reply. *)
Theorem merge_invents_no_id (toLowerCase : string -> string)
    (cs : list UnifiedConcept) (merges : option (list MergeGroup)) :
  flat_map ids1 (reconcile toLowerCase cs merges).1 ⊆ flat_map ids1 cs /\
  flat_map ids2 (reconcile toLowerCase cs merges).1 ⊆ flat_map ids2 cs.
Proof.
  split; apply output_ids_from_input;
    [apply ids1_from_sources|apply ids2_from_sources].
Qed.

(** X4.  When the labels of the input are distinct up to letter case, no
    element id disappears: every D1 id of the input is a D1 id of the
    result, and likewise for D2.  This holds also when concepts share ids,
    where the id counts do change. *)
Theorem distinct_labels_keep_every_id (toLowerCase : string -> string)
    (cs : list UnifiedConcept) (merges : option (list MergeGroup)) :
  NoDup (key toLowerCase <$> cs) ->
  flat_map ids1 cs ⊆ flat_map ids1 (reconcile toLowerCase cs merges).1 /\
  flat_map ids2 cs ⊆ flat_map ids2 (reconcile toLowerCase cs merges).1.
Proof.
  intros Hkeys.
  split; apply input_ids_in_output; auto using ids1_by_Set, ids2_by_Set.
Qed.

Definition overlapping : list UnifiedConcept :=
  [d1Concept "Login" ["x"; "y"]; d1Concept "Session" ["x"];
   d2Concept "Tokens" ["p"]].

Definition overlapping_merges : option (list MergeGroup) :=
  Some [group ["login"; "SESSION"; "Billing"] "Authentication"].

Lemma distinct_labels_keep_every_id_witness :
  NoDup (key toLowerCase_ascii <$> overlapping) /\
  flat_map ids1 overlapping
    ⊆ flat_map ids1 (reconcile toLowerCase_ascii overlapping overlapping_merges).1 /\
  flat_map ids2 overlapping
    ⊆ flat_map ids2 (reconcile toLowerCase_ascii overlapping overlapping_merges).1.
Proof.
  assert (NoDup (key toLowerCase_ascii <$> overlapping)) as Hk
    by (apply (bool_decide_unpack _); vm_compute; exact I).
  split; [exact Hk|].
  exact (distinct_labels_keep_every_id toLowerCase_ascii overlapping
           overlapping_merges Hk).
Defined.

(** X15.  The element counts of a merge pass never grow: the D1 ids of
    the result, counted with repetitions as the verification step counts
    them, are at most those of the input, and likewise for D2.  The
    mismatch the verification can report is therefore always a loss. *)
Theorem element_counts_never_grow (toLowerCase : string -> string)
    (cs : list UnifiedConcept) (merges : option (list MergeGroup)) :
  countD1 (reconcile toLowerCase cs merges).1 <= countD1 cs /\
  countD2 (reconcile toLowerCase cs merges).1 <= countD2 cs.
Proof.
  rewrite !countD1_length, !countD2_length.
  split; apply output_ids_length; auto using ids1_by_Set, ids2_by_Set.
Qed.

(** *** The labels of the reply *)

(** X5.  Labels of the reply that match no concept of the request have no
    effect at all: removing them from every group gives the same concepts
    and the same merge log. *)
Theorem unknown_labels_are_ignored (toLowerCase : string -> string)
    (cs : list UnifiedConcept) (ms : list MergeGroup) :
  reconcile toLowerCase cs (Some (prune toLowerCase cs <$> ms))
  = reconcile toLowerCase cs (Some ms).
Proof.
  unfold reconcile, process_merges. simpl.
  assert (forall st,
    foldl (process_merge toLowerCase (conceptByLabel toLowerCase cs)) st
          (prune toLowerCase cs <$> ms)
    = foldl (process_merge toLowerCase (conceptByLabel toLowerCase cs)) st ms)
    as ->; [|done].
  induction ms as [|m ms IH]; intros st; simpl; [done|].
  by rewrite process_merge_prune, IH.
Qed.

(** X6.  Source labels are matched without regard to letter case: two
    replies whose groups differ only in the case of the source labels
    give the same concepts and the same merge log. *)
Theorem matching_ignores_case (toLowerCase : string -> string)
    (cs : list UnifiedConcept) (ms ms' : list MergeGroup) :
  Forall2 (same_modulo_case toLowerCase) ms ms' ->
  reconcile toLowerCase cs (Some ms) = reconcile toLowerCase cs (Some ms').
Proof.
  intros Hms. unfold reconcile, process_merges. simpl.
  assert (forall st,
    foldl (process_merge toLowerCase (conceptByLabel toLowerCase cs)) st ms
    = foldl (process_merge toLowerCase (conceptByLabel toLowerCase cs)) st ms')
    as ->; [|done].
  induction Hms as [|m m' ms ms' Hm _ IH]; intros st; simpl; [done|].
  by rewrite (process_merge_case toLowerCase _ st m m' Hm), IH.
Qed.

Lemma matching_ignores_case_witness :
  Forall2 (same_modulo_case toLowerCase_ascii)
    [group ["login"; "SESSION"] "Authentication"]
    [group ["LOGIN"; "Session"] "Authentication"] /\
  reconcile toLowerCase_ascii overlapping
    (Some [group ["login"; "SESSION"] "Authentication"])
  = reconcile toLowerCase_ascii overlapping
    (Some [group ["LOGIN"; "Session"] "Authentication"]).
Proof.
  assert (Forall2 (same_modulo_case toLowerCase_ascii)
            [group ["login"; "SESSION"] "Authentication"]
            [group ["LOGIN"; "Session"] "Authentication"]) as H.
  { constructor; [|constructor].
    split; [reflexivity|]. split; reflexivity. }
  split; [exact H|].
  exact (matching_ignores_case toLowerCase_ascii overlapping _ _ H).
Defined.

End MergeMore.

(* ===================================================================== *)
(** ** Further properties of the reply parsing                            *)
(* ===================================================================== *)

Module ReplyMore.

Import Reply ReplyFacts.

Local Open Scope Z_scope.

Lemma lastIndexOf_none c s : lastIndexOf c s = -1 -> includes c s = false.
Proof.
  induction s as [|a s IH]; simpl; [done|].
  pose proof (lastIndexOf_range c s).
  destruct (Z.eqb_spec (lastIndexOf c s) (-1)) as [Hnone|Hsome]; [|lia].
  destruct (Ascii.eqb a c); [lia|]. intros _. by apply IH.
Qed.

(** The text splits at its last occurrence of [c]. *)
Lemma lastIndexOf_split_last c s :
  lastIndexOf c s <> -1 ->
  exists b r, s = b +:+ String c r /\ includes c r = false.
Proof.
  induction s as [|a s IH]; simpl; [done|].
  destruct (Z.eqb_spec (lastIndexOf c s) (-1)) as [Hnone|Hsome].
  - destruct (Ascii.eqb_spec a c) as [->|]; [|done].
    intros _. exists EmptyString, s. split; [done|]. by apply lastIndexOf_none.
  - intros _. destruct (IH Hsome) as (b & r & -> & Hr).
    by exists (String a b), r.
Qed.

(** When the guard of the recovery holds, the text is
    [prefix { body } suffix] with no ['{'] in the prefix and no ['}'] in
    the suffix. *)
Lemma guard_gives_outer_braces s :
  indexOf "{" s <> -1 -> lastIndexOf "}" s > indexOf "{" s ->
  exists a b c, s = a +:+ String "{" (b +:+ "}") +:+ c /\
                includes "{" a = false /\ includes "}" c = false.
Proof.
  induction s as [|x s IH]; simpl; [done|].
  destruct (Ascii.eqb_spec x "{") as [->|Hx].
  - intros _ Hlast. simpl in Hlast.
    destruct (Z.eqb_spec (lastIndexOf "}" s) (-1)) as [Hnone|Hsome]; [lia|].
    destruct (lastIndexOf_split_last _ _ Hsome) as (b & c & -> & Hc).
    exists EmptyString, b, c. split_and!; [|done|done].
    change (String "{" (b +:+ String "}" c)
            = String "{" ((b +:+ "}") +:+ c)).
    by rewrite append_assoc.
  - pose proof (indexOf_range "{" s). pose proof (lastIndexOf_range "}" s).
    destruct (Z.eqb_spec (indexOf "{" s) (-1)) as [Hnone|Hsome]; [done|].
    intros _ Hlast.
    destruct (Z.eqb_spec (lastIndexOf "}" s) (-1)) as [Hl|Hl].
    + destruct (Ascii.eqb x "}"); lia.
    + destruct IH as (a & b & c & -> & Ha & Hc); [done|lia|].
      exists (String x a), b, c. split_and!; [done| |done].
      simpl. rewrite Ha. by destruct (Ascii.eqb_spec x "{").
Qed.

(** X7.  The two copies of the recovery code differ in nothing but the
    message of their own error: the merger's parser returns what the
    extractor's returns, value or [SyntaxError], except that it says
    [Could not parse JSON from LLM response] where the extractor says
    [Failed to parse JSON from LLM response]. *)
Theorem parsers_differ_in_message_only (parse : string -> option json)
    (rawText : string) :
  merger_parse parse rawText =
  match extractor_parse parse rawText with
  | inl (Error _) => inl (Error "Could not parse JSON from LLM response")
  | other => other
  end.
Proof.
  unfold merger_parse, extractor_parse.
  destruct (parse rawText); [done|].
  destruct (_ && _); [|done].
  by destruct (parse _).
Qed.

(** X8.  When a reply does not parse as it stands, the parser either
    gives up with its fixed message, or the reply is [prefix { body }
    suffix] with no ['{'] in the prefix and no ['}'] in the suffix, and
    the answer is that of [JSON.parse] on [{ body }] alone: the second
    attempt always sees a text that starts with the first ['{'] and ends
    with the last ['}'] of the reply. *)
Theorem second_attempt_sees_outer_braces (parse : string -> option json)
    (rawText : string) :
  parse rawText = None ->
  extractor_parse parse rawText
    = inl (Error "Failed to parse JSON from LLM response") \/
  exists prefix body suffix,
    rawText = prefix +:+ String "{" (body +:+ "}") +:+ suffix /\
    includes "{" prefix = false /\ includes "}" suffix = false /\
    extractor_parse parse rawText
      = match parse (String "{" (body +:+ "}")) with
        | Some parsed => inr parsed
        | None => inl SyntaxError
        end.
Proof.
  intros Hparse. unfold extractor_parse. rewrite Hparse.
  destruct (decide (indexOf "{" rawText <> -1)) as [Hfirst|Hfirst];
    [|left; by rewrite (bool_decide_eq_false_2 _ Hfirst)].
  destruct (decide (lastIndexOf "}" rawText > indexOf "{" rawText))
    as [Hlast|Hlast];
    [|left; by rewrite (bool_decide_eq_false_2 _ Hlast), andb_false_r].
  right.
  destruct (guard_gives_outer_braces rawText Hfirst Hlast)
    as (a & b & c & Heq & Ha & Hc).
  exists a, b, c. split_and!; [done..|].
  rewrite !bool_decide_eq_true_2 by done. simpl.
  destruct (brace_slice a b c Ha Hc) as (_ & _ & Hslice).
  rewrite <- Heq in Hslice. by rewrite Hslice.
Qed.

Lemma second_attempt_sees_outer_braces_witness :
  JSON_parse "Sure: {} bye" = None /\
  (extractor_parse JSON_parse "Sure: {} bye"
     = inl (Error "Failed to parse JSON from LLM response") \/
   exists prefix body suffix,
     "Sure: {} bye" = prefix +:+ String "{" (body +:+ "}") +:+ suffix /\
     includes "{" prefix = false /\ includes "}" suffix = false /\
     extractor_parse JSON_parse "Sure: {} bye"
       = match JSON_parse (String "{" (body +:+ "}")) with
         | Some parsed => inr parsed
         | None => inl SyntaxError
         end).
Proof.
  assert (JSON_parse "Sure: {} bye" = None) as H by (vm_compute; reflexivity).
  split; [exact H|].
  exact (second_attempt_sees_outer_braces JSON_parse "Sure: {} bye" H).
Defined.

(** A concept the blackboard entry can be written for: an object whose
    [elementIds] is present and not [null]. *)
Definition has_elementIds (c : json) : Prop :=
  exists ms v, c = JObject ms /\ member "elementIds" ms = Some v /\ v <> JNull.

Lemma loggable_has_elementIds c : loggable c = true -> has_elementIds c.
Proof.
  destruct c as [| | | | |ms]; simpl; try done.
  destruct (member "elementIds" ms) as [v|] eqn:Hv; [|done].
  intros H. exists ms, v. split_and!; [done..|]. by intros ->.
Qed.

(** X9.  The extractor answers with success only when the model call
    itself succeeded with a body, and then every concept it returns is an
    object with an [elementIds] that is neither missing nor [null]; a
    reply with one concept short of that is answered with the failure
    response as a whole. *)
Theorem successful_extraction_is_well_formed (parse : string -> option json)
    (reply : ModelReply) (concepts : list json) :
  extract_concepts parse reply = Success concepts ->
  (exists text, reply = Candidate text) /\ Forall has_elementIds concepts.
Proof.
  unfold extract_concepts, extract_try.
  destruct reply as [status| |text]; [done|done|].
  intros H. split; [by eexists|].
  destruct (extractor_parse parse (rawText_of text)) as [e|parsed]; [done|].
  destruct (concepts_of parsed) as [e|cs]; [done|].
  unfold log_concepts in H. destruct cs as [| | | |items|]; try done.
  destruct (forallb loggable items) eqn:Hall; [|done].
  injection H as <-. apply Forall_forall. intros c Hc.
  apply loggable_has_elementIds.
  rewrite forallb_forall in Hall. apply Hall. by apply list_elem_of_In.
Qed.

Definition one_concept : string :=
  String "{" (quoted "concepts" +:+ ":[{" +:+ quoted "elementIds" +:+ ":[]}]}").

Lemma successful_extraction_is_well_formed_witness :
  extract_concepts JSON_parse (Candidate (Some one_concept))
    = Success [JObject [("elementIds", JArray [])]] /\
  (exists text, Candidate (Some one_concept) = Candidate text) /\
  Forall has_elementIds [JObject [("elementIds", JArray [])]].
Proof.
  assert (extract_concepts JSON_parse (Candidate (Some one_concept))
          = Success [JObject [("elementIds", JArray [])]]) as H
    by (vm_compute; reflexivity).
  split; [exact H|].
  exact (successful_extraction_is_well_formed JSON_parse _ _ H).
Defined.

End ReplyMore.

(* ===================================================================== *)
(** ** Further properties of the orchestrator                             *)
(* ===================================================================== *)

Module PipelineMore.

Import Pipeline PipelineFacts.

(** *** Session updates and requests of a run *)

(** What a run shows to the backend besides graph writes: an update of
    the session row, or a request to an edge function. *)
Inductive Milestone :=
| session (p_status : string)
| request (endpoint : string).

Definition milestones (tr : list Event) : list Milestone :=
  omap (fun e => match e with
                 | update_audit_session st _ => Some (session st)
                 | fetch endpoint => Some (request endpoint)
                 | _ => None
                 end) tr.

(** The milestones of a run that completes. *)
Definition plan : list Milestone :=
  [session "running";
   request "audit-extract-concepts"; request "audit-extract-concepts";
   request "audit-merge-concepts"; request "audit-build-tesseract";
   request "audit-generate-venn";
   session "completed"].

(** The state has passed the first [k] milestones and nothing else. *)
Definition reached (k : nat) (s : State) : Prop :=
  milestones (trace s) = take k plan.

Lemma milestones_app tr evs :
  milestones (tr ++ evs) = milestones tr ++ milestones evs.
Proof. apply omap_app. Qed.

Lemma milestones_graph_events evs :
  Forall graph_event evs -> milestones evs = [].
Proof.
  induction 1 as [|e evs He _ IH]; [done|].
  destruct e; simpl in *; try done.
Qed.

Lemma reached_stable k : stable graph_event (reached k).
Proof.
  intros s evs n Hs Hevs. unfold reached in *. simpl.
  rewrite milestones_app, (milestones_graph_events evs) by done.
  by rewrite app_nil_r.
Qed.

Ltac run_stage :=
  unfold bind, emit, call, check_abort, throw, ret, read_extraction; simpl;
  repeat match goal with
         | |- context [match ?x with _ => _ end] =>
             lazymatch x with
             | context [match _ with _ => _ end] => fail
             | _ => destruct x eqn:?; simpl
             end
         end.

Ltac close_milestone :=
  unfold outcome, reached in *; simpl in *;
  repeat match goal with
         | H : milestones (trace _) = _ |- _ =>
             rewrite ?milestones_app, H; clear H
         end;
  simpl; auto.

Section Milestones.

Variable env : Env.
Variable input : PipelineInput.

Lemma phase0_reaches v s :
  reached 0 s -> outcome (phase0 env input v s) (reached 1) (reached 1).
Proof.
  intros Hs. unfold phase0, bind at 1, emit at 1.
  set (s1 := {| trace := _; calls := _ |}).
  assert (reached 0 s1) as H1.
  { subst s1. unfold reached in *. simpl. by rewrite milestones_app, Hs. }
  clearbody s1. unfold bind at 1.
  pose proof (stable_node_event _ (reached_stable 0)) as Hstable.
  destruct (steady_create_elements env _ Hstable "d1_element"
              "dataset1" "#3b82f6" "[Pipeline] Error creating D1 node:"
              (d1Elements input) s1 H1) as ([] & s2 & -> & H2).
  unfold bind at 1.
  destruct (steady_create_elements env _ Hstable "d2_element"
              "dataset2" "#22c55e" "[Pipeline] Error creating D2 node:"
              (d2Elements input) s2 H2) as ([] & s3 & -> & H3).
  run_stage; close_milestone.
Qed.

Lemma phase1_reaches v s :
  reached 1 s -> outcome (phase1 env input v s) (reached 3) (reached 3).
Proof. intros Hs. unfold phase1. run_stage; close_milestone. Qed.

Lemma phase2_reaches v s :
  reached 3 s -> outcome (phase2 env v s) (reached 4) (reached 4).
Proof. intros Hs. unfold phase2. run_stage; close_milestone. Qed.

Lemma phase2_5_reaches v s :
  reached 4 s -> outcome (phase2_5 env v s) (reached 4) (reached 4).
Proof.
  intros Hs. unfold phase2_5, bind at 1.
  destruct (steady_build_graph env _ (reached_stable 4) v s Hs)
    as ([] & s1 & -> & H1).
  run_stage; close_milestone.
Qed.

Lemma phase3_reaches v s :
  reached 4 s -> outcome (phase3 env v s) (reached 5) (reached 5).
Proof. intros Hs. unfold phase3. run_stage; close_milestone. Qed.

Lemma phase4_reaches v s :
  reached 5 s -> outcome (phase4 env v s) (reached 7) (reached 6).
Proof. intros Hs. unfold phase4. run_stage; close_milestone. Qed.

Lemma run_reaches :
  outcome (run_stages (stages env input) initial_vars start) (reached 7)
          (fun s' => exists k, k ∈ [1; 3; 4; 5; 6] /\ reached k s').
Proof.
  unfold stages. simpl. unfold bind.
  assert (reached 0 start) as H by done.
  pose proof (phase0_reaches initial_vars start H) as H0.
  destruct (phase0 env input initial_vars start) as [[e|v0] s0]; simpl in H0;
    [exists 1; split; [set_solver|done]|].
  pose proof (phase1_reaches v0 s0 H0) as H1.
  destruct (phase1 env input v0 s0) as [[e|v1] s1]; simpl in H1;
    [exists 3; split; [set_solver|done]|].
  pose proof (phase2_reaches v1 s1 H1) as H2.
  destruct (phase2 env v1 s1) as [[e|v2] s2]; simpl in H2;
    [exists 4; split; [set_solver|done]|].
  pose proof (phase2_5_reaches v2 s2 H2) as H3.
  destruct (phase2_5 env v2 s2) as [[e|v3] s3]; simpl in H3;
    [exists 4; split; [set_solver|done]|].
  pose proof (phase3_reaches v3 s3 H3) as H4.
  destruct (phase3 env v3 s3) as [[e|v4] s4]; simpl in H4;
    [exists 5; split; [set_solver|done]|].
  pose proof (phase4_reaches v4 s4 H4) as H5.
  destruct (phase4 env v4 s4) as [[e|v5] s5]; simpl in H5;
    [exists 6; split; [set_solver|done]|].
  done.
Qed.

End Milestones.

(** X10.  Whatever the world answers, the session updates and requests of
    a run are, in order, those of the plan: session running, the two
    extraction requests, the merge request, the tesseract request, the
    Venn request, session completed.  A run that fails stops after the
    first milestone, or after the third, fourth, fifth or sixth, and then
    marks the session failed; so the session is marked running once, and
    then either completed, after all five requests, or failed, never
    both. *)
Theorem milestones_of_a_run (env : Env) (input : PipelineInput) :
  milestones (runPipeline env input) = plan \/
  exists k, k ∈ [1; 3; 4; 5; 6] /\
            milestones (runPipeline env input) = take k plan ++ [session "failed"].
Proof.
  unfold runPipeline. pose proof (run_reaches env input) as H.
  destruct (run_stages (stages env input) initial_vars start) as [[e|v] s];
    simpl in H.
  - right. destruct H as (k & Hk & Hs). exists k. split; [done|].
    unfold on_error, bind, emit. simpl.
    rewrite !milestones_app, Hs. simpl. by rewrite !app_nil_r.
  - left. rewrite milestones_app, H. done.
Qed.

(** *** The element nodes of a run *)

(** Node type and element ids of the upserts of element nodes, in order. *)
Definition element_upserts (tr : list Event) : list (string * list string) :=
  omap (fun e => match e with
                 | upsert_audit_graph_node args _ =>
                     if String.eqb (p_node_type args) "concept" then None
                     else Some (p_node_type args, p_source_element_ids args)
                 | _ => None
                 end) tr.

(** The events of the concept graph: upserts of concept nodes, the node
    query, edge writes, and [console.error] lines. *)
Definition concept_event (e : Event) : Prop :=
  match e with
  | upsert_audit_graph_node args _ => p_node_type args = "concept"%string
  | insert_audit_graph_edge _ _ | get_audit_graph_nodes _ | console_error _ => True
  | _ => False
  end.

Definition upserted (l : list (string * list string)) (s : State) : Prop :=
  element_upserts (trace s) = l.

Lemma element_upserts_app tr evs :
  element_upserts (tr ++ evs) = element_upserts tr ++ element_upserts evs.
Proof. apply omap_app. Qed.

Lemma element_upserts_concept_events evs :
  Forall concept_event evs -> element_upserts evs = [].
Proof.
  induction 1 as [|e evs He _ IH]; [done|].
  destruct e; simpl in *; try done. by rewrite He.
Qed.

Lemma upserted_stable l : stable concept_event (upserted l).
Proof.
  intros s evs n Hs Hevs. unfold upserted in *. simpl.
  rewrite element_upserts_app, (element_upserts_concept_events evs) by done.
  by rewrite app_nil_r.
Qed.

Section ConceptLoops.

Variable env : Env.
Variable I : State -> Prop.
Hypothesis I_stable : stable concept_event I.

Lemma concept_create_edges allNodes ty target ids :
  steady I (create_edges env allNodes ty target ids).
Proof.
  unfold create_edges. apply steady_for_each. intros x.
  destruct (find_node allNodes x); [|apply steady_ret].
  apply steady_bind; [|intros; apply steady_ret].
  apply steady_call. intros s Hs. apply I_stable; [done|].
  by repeat constructor.
Qed.

Lemma concept_when_created r k :
  (forall node, steady I (k node)) -> steady I (when_created r k).
Proof.
  intros Hk. unfold when_created. destruct (rpc_data r); [|apply steady_ret].
  destruct (String.eqb _ _); [apply steady_ret|apply Hk].
Qed.

Lemma concept_create_merged_node allNodes c :
  steady I (create_merged_node env allNodes c).
Proof.
  unfold create_merged_node. apply steady_bind.
  - apply steady_call. intros s Hs. apply I_stable; [done|].
    by repeat constructor.
  - intros r. apply concept_when_created. intros node.
    apply steady_bind; [|intros]; apply concept_create_edges.
Qed.

Lemma concept_create_unmerged_node allNodes ds color meta ty c :
  steady I (create_unmerged_node env allNodes ds color meta ty c).
Proof.
  unfold create_unmerged_node. apply steady_bind.
  - apply steady_call. intros s Hs. apply I_stable; [done|].
    by repeat constructor.
  - intros r. apply concept_when_created. intros node.
    apply concept_create_edges.
Qed.

Lemma concept_build_graph v : steady I (build_graph env v).
Proof.
  unfold build_graph. apply steady_bind.
  - apply steady_call. intros s Hs. apply I_stable; [done|].
    by repeat constructor.
  - intros got. simpl.
    repeat (apply steady_bind; [|intros]);
      apply steady_for_each; intros c;
      auto using concept_create_merged_node, concept_create_unmerged_node.
Qed.

End ConceptLoops.

(** One turn of an element loop never throws, upserts one node and
    makes one external call. *)
Lemma create_element_node_upserts env ty ds color line e s :
  String.eqb ty "concept" = false ->
  exists s', create_element_node env ty ds color line e s = (inr tt, s') /\
             element_upserts (trace s')
             = element_upserts (trace s) ++ [(ty, [id e])] /\
             calls s' = S (calls s).
Proof.
  intros Hty. unfold create_element_node, bind, call, emit, ret. simpl.
  destruct (rpc_error (upsert_node_reply env (calls s))) as [why|];
    eexists; (split; [reflexivity|]); simpl; (split; [|done]);
    rewrite !element_upserts_app; simpl; rewrite Hty; simpl;
    by rewrite ?app_nil_r.
Qed.

(** An element loop of phase 0 never throws and upserts one node per
    element, in the order of the list, with one external call each. *)
Lemma create_elements_upserts env ty ds color line es s :
  String.eqb ty "concept" = false ->
  exists s', for_each es (create_element_node env ty ds color line) s
             = (inr tt, s') /\
             element_upserts (trace s')
             = element_upserts (trace s) ++ ((fun e => (ty, [id e])) <$> es) /\
             calls s' = (calls s + List.length es)%nat.
Proof.
  intros Hty. revert s. induction es as [|e es IH]; intros s; simpl.
  - exists s. rewrite app_nil_r. split_and!; [done|done|lia].
  - destruct (create_element_node_upserts env ty ds color line e s Hty)
      as (s1 & Heq & Hs1 & Hc1).
    destruct (IH s1) as (s' & Heq' & Hs' & Hc').
    exists s'. unfold bind. rewrite Heq. split_and!; [exact Heq'| |lia].
    by rewrite Hs', Hs1, <- app_assoc.
Qed.

(** The element nodes a run asks for. *)
Definition element_nodes (input : PipelineInput) : list (string * list string) :=
  ((fun e => ("d1_element", [id e])) <$> d1Elements input) ++
  ((fun e => ("d2_element", [id e])) <$> d2Elements input).

Ltac close_upserted :=
  unfold outcome, upserted in *; simpl in *;
  repeat match goal with
         | H : element_upserts (trace _) = _ |- _ =>
             rewrite ?element_upserts_app, H; clear H
         end;
  simpl; rewrite ?app_nil_r; auto.

Section ElementNodes.

Variable env : Env.
Variable input : PipelineInput.

Lemma phase0_upserts v s :
  upserted [] s ->
  outcome (phase0 env input v s) (upserted (element_nodes input))
          (upserted (element_nodes input)).
Proof.
  intros Hs. unfold phase0, bind at 1, emit at 1.
  set (s1 := {| trace := _; calls := _ |}).
  assert (upserted [] s1) as H1.
  { subst s1. unfold upserted in *. simpl.
    by rewrite element_upserts_app, Hs. }
  clearbody s1. unfold bind at 1.
  destruct (create_elements_upserts env "d1_element" "dataset1" "#3b82f6"
              "[Pipeline] Error creating D1 node:" (d1Elements input) s1 eq_refl)
    as (s2 & -> & H2 & _).
  unfold bind at 1.
  destruct (create_elements_upserts env "d2_element" "dataset2" "#22c55e"
              "[Pipeline] Error creating D2 node:" (d2Elements input) s2 eq_refl)
    as (s3 & -> & H3 & _).
  rewrite H2, H1 in H3. simpl in H3. fold (element_nodes input) in H3.
  run_stage; close_upserted.
Qed.

Lemma phase1_upserts l v s :
  upserted l s -> outcome (phase1 env input v s) (upserted l) (upserted l).
Proof. intros Hs. unfold phase1. run_stage; close_upserted. Qed.

Lemma phase2_upserts l v s :
  upserted l s -> outcome (phase2 env v s) (upserted l) (upserted l).
Proof. intros Hs. unfold phase2. run_stage; close_upserted. Qed.

Lemma phase2_5_upserts l v s :
  upserted l s -> outcome (phase2_5 env v s) (upserted l) (upserted l).
Proof.
  intros Hs. unfold phase2_5, bind at 1.
  destruct (concept_build_graph env _ (upserted_stable l) v s Hs)
    as ([] & s1 & -> & H1).
  run_stage; close_upserted.
Qed.

Lemma phase3_upserts l v s :
  upserted l s -> outcome (phase3 env v s) (upserted l) (upserted l).
Proof. intros Hs. unfold phase3. run_stage; close_upserted. Qed.

Lemma phase4_upserts l v s :
  upserted l s -> outcome (phase4 env v s) (upserted l) (upserted l).
Proof. intros Hs. unfold phase4. run_stage; close_upserted. Qed.

Lemma run_upserts :
  outcome (run_stages (stages env input) initial_vars start)
          (upserted (element_nodes input)) (upserted (element_nodes input)).
Proof.
  unfold stages. simpl. unfold bind.
  assert (upserted [] start) as H by done.
  pose proof (phase0_upserts initial_vars start H) as H0.
  destruct (phase0 env input initial_vars start) as [[e|v0] s0]; simpl in H0;
    [done|].
  pose proof (phase1_upserts _ v0 s0 H0) as H1.
  destruct (phase1 env input v0 s0) as [[e|v1] s1]; simpl in H1; [done|].
  pose proof (phase2_upserts _ v1 s1 H1) as H2.
  destruct (phase2 env v1 s1) as [[e|v2] s2]; simpl in H2; [done|].
  pose proof (phase2_5_upserts _ v2 s2 H2) as H3.
  destruct (phase2_5 env v2 s2) as [[e|v3] s3]; simpl in H3; [done|].
  pose proof (phase3_upserts _ v3 s3 H3) as H4.
  destruct (phase3 env v3 s3) as [[e|v4] s4]; simpl in H4; [done|].
  pose proof (phase4_upserts _ v4 s4 H4) as H5.
  destruct (phase4 env v4 s4) as [[e|v5] s5]; simpl in H5; done.
Qed.

End ElementNodes.

(** X11.  Every run, whether it completes, fails or is aborted, and
    whatever the node writes answer, asks for exactly one element node
    per input element: one of type [d1_element] for each element of
    Dataset 1, in the order of the input, then one of type [d2_element]
    for each element of Dataset 2, each carrying the id of its element
    alone.  Every other node a run writes has type [concept]. *)
Theorem element_nodes_of_a_run (env : Env) (input : PipelineInput) :
  element_upserts (runPipeline env input) = element_nodes input.
Proof.
  unfold runPipeline. pose proof (run_upserts env input) as H.
  destruct (run_stages (stages env input) initial_vars start) as [[e|v] s];
    simpl in H.
  - unfold on_error, bind, emit. simpl.
    rewrite !element_upserts_app, H. simpl. by rewrite !app_nil_r.
  - rewrite element_upserts_app, H. simpl. by rewrite app_nil_r.
Qed.

(** *** Abort during the element writes *)

Lemma phase0_aborted env input v s :
  abortRef env (calls s + List.length (d1Elements input)
                + List.length (d2Elements input)) = true ->
  exists s', phase0 env input v s = (inl "Aborted", s').
Proof.
  intros Habort. unfold phase0, bind at 1, emit at 1.
  set (s1 := {| trace := _; calls := calls s |}).
  unfold bind at 1.
  destruct (create_elements_upserts env "d1_element" "dataset1" "#3b82f6"
              "[Pipeline] Error creating D1 node:" (d1Elements input) s1 eq_refl)
    as (s2 & -> & _ & H2).
  unfold bind at 1.
  destruct (create_elements_upserts env "d2_element" "dataset2" "#22c55e"
              "[Pipeline] Error creating D2 node:" (d2Elements input) s2 eq_refl)
    as (s3 & -> & _ & H3).
  unfold bind, emit, check_abort, throw. simpl.
  rewrite H3, H2. simpl. rewrite Habort. by eexists.
Qed.

(** X12.  When the abort flag is found set at the first check, which
    comes after one node write per input element, the run makes no
    request to any edge function: it marks the session running, then
    failed, and ends with the error report for the message [Aborted].
    The element nodes have been written by then. *)
Theorem abort_during_element_writes (env : Env) (input : PipelineInput) :
  abortRef env (List.length (d1Elements input)
                + List.length (d2Elements input)) = true ->
  milestones (runPipeline env input) = [session "running"; session "failed"] /\
  exists tr, runPipeline env input = tr ++ failure_report "Aborted".
Proof.
  intros Habort.
  destruct (phase0_aborted env input initial_vars start Habort) as (s' & Heq).
  pose proof (phase0_reaches env input initial_vars start eq_refl) as H0.
  rewrite Heq in H0. simpl in H0.
  assert (runPipeline env input = trace s' ++ failure_report "Aborted") as Hrun.
  { unfold runPipeline, stages. simpl. unfold bind at 1. rewrite Heq. simpl.
    by rewrite <- !app_assoc. }
  split; [|by exists (trace s')].
  rewrite Hrun, milestones_app, H0. done.
Qed.

Lemma abort_during_element_writes_witness :
  milestones (runPipeline aborted_early sample_input)
    = [session "running"; session "failed"] /\
  exists tr, runPipeline aborted_early sample_input
             = tr ++ failure_report "Aborted".
Proof.
  apply (abort_during_element_writes aborted_early sample_input).
  reflexivity.
Defined.

(** *** Runs in which only graph writes go wrong *)

(** X13.  Failures of the graph writes never fail a run.  In a world
    where no abort is requested, the two extractions and the merge answer
    successfully, the tesseract request is answered (with any status) and
    the Venn request resolves, every run passes all milestones of the
    plan and ends with the session marked completed, and no event of it
    reports a failure, whatever the node writes, the node query and the
    edge writes answer. *)
Theorem only_requests_can_fail_a_run (env : Env) (input : PipelineInput) :
  cooperative env ->
  milestones (runPipeline env input) = plan /\
  Forall (fun e => ~ reports_failure e) (runPipeline env input).
Proof.
  intros Hcoop.
  destruct (graph_write_failures_are_not_fatal env input Hcoop)
    as [_ Hclean].
  split; [|done]. revert Hclean.
  unfold runPipeline. pose proof (run_reaches env input) as H.
  destruct (run_stages (stages env input) initial_vars start) as [[e|v] s];
    simpl in H.
  - intros Hclean. exfalso. rewrite Forall_forall in Hclean.
    apply (Hclean (update_audit_session "failed" None)); [|done].
    unfold on_error, bind, emit. simpl.
    rewrite !elem_of_app, !list_elem_of_singleton. auto.
  - intros _. rewrite milestones_app, H. done.
Qed.

Lemma only_requests_can_fail_a_run_witness :
  milestones (runPipeline elements_refused sample_input) = plan /\
  Forall (fun e => ~ reports_failure e)
         (runPipeline elements_refused sample_input).
Proof.
  apply (only_requests_can_fail_a_run elements_refused sample_input).
  destruct calm_is_cooperative. by constructor.
Defined.




End PipelineMore.

(* ===================================================================== *)
(** ** Properties of one round of the merge function                      *)
(* ===================================================================== *)

Module MergerFacts.

Import Merge Reply Merger MergeFacts MergeMore.

(** The prefix that routes a model name to a provider, and the
    environment variable that holds the provider's key. *)
Definition provider_prefix (t : ApiType) : string :=
  match t with
  | anthropic => "claude"
  | gemini => "gemini"
  | xai => "grok"
  end.

Definition provider_key (t : ApiType) : string :=
  match t with
  | anthropic => "ANTHROPIC_API_KEY"
  | gemini => "GEMINI_API_KEY"
  | xai => "XAI_API_KEY"
  end.

(** X16.  Whatever model the project selects, the configuration chosen
    is consistent: the model name sent to a provider starts with that
    provider's prefix, also when the selection is not recognised and the
    default takes its place; the key is read from that provider's
    variable; and routing the chosen model name again gives the same
    configuration. *)
Theorem model_routing_is_consistent (selectedModel : string) :
  let config := getModelConfig selectedModel in
  startsWith (modelName config) (provider_prefix (apiType config)) = true /\
  apiKeyEnv config = provider_key (apiType config) /\
  getModelConfig (modelName config) = config.
Proof.
  unfold getModelConfig.
  destruct (startsWith selectedModel "claude") eqn:Hc; simpl.
  { by rewrite Hc. }
  destruct (startsWith selectedModel "gemini") eqn:Hg; simpl.
  { by rewrite Hc, Hg. }
  destruct (startsWith selectedModel "grok") eqn:Hx; simpl.
  { by rewrite Hc, Hg, Hx. }
  done.
Qed.

(** X17.  [callLLM] returns a text only when the provider's key is set
    to a non-empty value and the provider answered with a good status,
    and the text it returns is never empty: a missing or empty model text
    has been replaced by the empty object. *)
Theorem callLLM_text_is_never_empty (getenv : string -> option string)
    (config : ModelConfig) (reply : Thrown + LlmResponse) (text : string) :
  callLLM getenv config reply = inr text ->
  text <> EmptyString /\
  (exists apiKey, getenv (apiKeyEnv config) = Some apiKey /\
                  apiKey <> EmptyString) /\
  (exists response, reply = inr response /\ llm_ok response = true).
Proof.
  unfold callLLM.
  destruct (getenv (apiKeyEnv config)) as [apiKey|]; [|done].
  destruct (String.eqb_spec apiKey EmptyString) as [|Hkey]; [done|].
  destruct reply as [e|response]; [done|].
  destruct (llm_ok response) eqn:Hok; [|done]. simpl.
  destruct (llm_body response) as [body|]; [|done].
  intros [= <-]. split_and!.
  - unfold rawText_of. destruct body as [t|]; [|done].
    by destruct (String.eqb_spec t EmptyString).
  - by exists apiKey.
  - by exists response.
Qed.

Definition with_key (name : string) : option string := Some "secret".

Definition silent : LlmResponse :=
  {| llm_ok := true; llm_status := 200; llm_errorText := EmptyString;
     llm_body := Some None |}.

Lemma callLLM_text_is_never_empty_witness :
  callLLM with_key (getModelConfig "grok-4") (inr silent) = inr "{}" /\
  "{}" <> EmptyString /\
  (exists apiKey, with_key (apiKeyEnv (getModelConfig "grok-4")) = Some apiKey /\
                  apiKey <> EmptyString) /\
  (exists response, (inr silent : Thrown + LlmResponse) = inr response /\
                    llm_ok response = true).
Proof.
  assert (callLLM with_key (getModelConfig "grok-4")
            (inr silent : Thrown + LlmResponse) = inr "{}") as H
    by reflexivity.
  split; [exact H|].
  exact (callLLM_text_is_never_empty with_key _ _ _ H).
Defined.

(** *** The stream of a round *)

Ltac not_in_stream H :=
  repeat (apply elem_of_cons in H as [H|H]; [discriminate H|]);
  by apply elem_of_nil in H.

Section RoundFacts.

Variable toLowerCase : string -> string.
Variable parse : string -> option json.
Variable merges_of : json -> Thrown + option (list MergeGroup).
Variable getenv : string -> option string.

Local Abbreviation serve := (serve toLowerCase parse merges_of getenv).

(** The events of a round: two progress events, then an error, or a
    third progress event and an error, or four progress events, the
    result and the closing event. *)
Lemma serve_cases project concepts round totalRounds reply :
  let stream := serve project concepts round totalRounds reply in
  (exists m1 m2 e, stream = [progress m1 10; progress m2 30; error e]) \/
  (exists m1 m2 m3 e,
     stream = [progress m1 10; progress m2 30; progress m3 60; error e]) \/
  (exists m1 m2 m3 m4 merges,
     stream = [progress m1 10; progress m2 30; progress m3 60; progress m4 90;
               result
                 {| res_concepts := (reconcile toLowerCase concepts merges).1;
                    res_mergeLog := (reconcile toLowerCase concepts merges).2;
                    inputCount := length concepts;
                    outputCount := length (reconcile toLowerCase concepts merges).1;
                    d1ElementCount :=
                      countD1 (reconcile toLowerCase concepts merges).1;
                    d2ElementCount :=
                      countD2 (reconcile toLowerCase concepts merges).1 |};
               done]).
Proof.
  simpl. unfold Merger.serve.
  destruct (callLLM _ _ _) as [e|rawText]; [left; by eexists _, _, _|].
  right.
  destruct (merger_parse parse rawText) as [e|parsed];
    [left; by eexists _, _, _, _|].
  destruct (merges_of parsed) as [e|merges]; [left; by eexists _, _, _, _|].
  right. by eexists _, _, _, _, merges.
Qed.

End RoundFacts.

(** X18.  A round answers with a result or with an error, never both.
    When it sends a result, the stream ends with the closing event and
    the result is consistent with the request: [inputCount] is the number
    of concepts received, [outputCount] the number returned, the two
    element counts are those of the concepts returned, and, whatever the
    model replied, [outputCount] plus the number of merge log entries is
    at most [inputCount] and neither element count exceeds that of the
    request. *)
Theorem result_of_a_round (toLowerCase : string -> string)
    (parse : string -> option json)
    (merges_of : json -> Thrown + option (list MergeGroup))
    (getenv : string -> option string)
    (project : option ProjectSettings) (concepts : list UnifiedConcept)
    (round totalRounds : Z) (reply : Thrown + LlmResponse)
    (r : MergeResponse) :
  let stream := serve toLowerCase parse merges_of getenv
                      project concepts round totalRounds reply in
  result r ∈ stream ->
  (forall e, error e ∉ stream) /\ last stream = Some done /\
  inputCount r = length concepts /\
  outputCount r = length (res_concepts r) /\
  outputCount r + length (res_mergeLog r) <= inputCount r /\
  d1ElementCount r = countD1 (res_concepts r) /\
  d2ElementCount r = countD2 (res_concepts r) /\
  d1ElementCount r <= countD1 concepts /\
  d2ElementCount r <= countD2 concepts.
Proof.
  intros stream.
  pose proof (serve_cases toLowerCase parse merges_of getenv
                project concepts round totalRounds reply) as Hcases.
  cbv zeta in Hcases. fold stream in Hcases. clearbody stream.
  destruct Hcases as [(m1 & m2 & e & ->)|[(m1 & m2 & m3 & e & ->)
                                       |(m1 & m2 & m3 & m4 & merges & ->)]];
    intros Hin; [not_in_stream Hin|not_in_stream Hin|].
  do 4 (apply elem_of_cons in Hin as [Hin|Hin]; [discriminate Hin|]).
  apply elem_of_cons in Hin as [Hin|Hin]; [|not_in_stream Hin].
  injection Hin as ->. simpl.
  split_and!; try done.
  - intros e He. not_in_stream He.
  - apply reconcile_length.
  - rewrite !countD1_length. apply output_ids_length, ids1_by_Set.
  - rewrite !countD2_length. apply output_ids_length, ids2_by_Set.
Qed.

(** A reply that merges two of the three concepts of [overlapping]. *)
Definition merging_text : string :=
  String "{" (ReplyFacts.quoted "merges" +:+ ":[{" +:+
              ReplyFacts.quoted "sourceConcepts" +:+ ":[" +:+
              ReplyFacts.quoted "Login" +:+ "," +:+
              ReplyFacts.quoted "Session" +:+ "]," +:+
              ReplyFacts.quoted "mergedLabel" +:+ ":" +:+
              ReplyFacts.quoted "Auth" +:+ "," +:+
              ReplyFacts.quoted "mergedDescription" +:+ ":" +:+
              ReplyFacts.quoted "signing in" +:+ "}]}").

Definition merging : LlmResponse :=
  {| llm_ok := true; llm_status := 200; llm_errorText := EmptyString;
     llm_body := Some (Some merging_text) |}.

Definition sample_round (response : LlmResponse) : list SSE :=
  serve toLowerCase_ascii JSON_parse typed_merges with_key
        None overlapping 1 3 (inr response).

Example sample_round_merges :
  exists m1 m2 m3 m4,
    sample_round merging =
    [progress m1 10; progress m2 30; progress m3 60; progress m4 90;
     result {| res_concepts :=
                 [{| label := "Auth"; description := "signing in";
                     d1Ids := Some ["x"; "y"]; d2Ids := Some [];
                     elementLabels := Some [] |};
                  d2Concept "Tokens" ["p"]];
               res_mergeLog := [{| from := ["Login"; "Session"]; to := "Auth" |}];
               inputCount := 3; outputCount := 2;
               d1ElementCount := 2; d2ElementCount := 1 |};
     done].
Proof. eexists _, _, _, _. vm_compute. reflexivity. Qed.

Lemma result_of_a_round_witness :
  exists r,
    result r ∈ sample_round merging /\
    (forall e, error e ∉ sample_round merging) /\
    last (sample_round merging) = Some done /\
    inputCount r = length overlapping /\
    outputCount r = length (res_concepts r) /\
    outputCount r + length (res_mergeLog r) <= inputCount r /\
    d1ElementCount r = countD1 (res_concepts r) /\
    d2ElementCount r = countD2 (res_concepts r) /\
    d1ElementCount r <= countD1 overlapping /\
    d2ElementCount r <= countD2 overlapping.
Proof.
  assert (exists r, result r ∈ sample_round merging) as [r Hr].
  { eexists. vm_compute.
    repeat first [apply list_elem_of_here|apply list_elem_of_further]. }
  exists r. split; [exact Hr|].
  exact (result_of_a_round toLowerCase_ascii JSON_parse typed_merges with_key
           None overlapping 1 3 (inr merging) r Hr).
Defined.

(** X19.  A model that answers with a good status but without text, or
    with the empty text, changes nothing: the round returns the concepts
    of the request as they are, in their order, with an empty merge log
    and the counts of the request. *)
Theorem silent_model_changes_nothing (toLowerCase : string -> string)
    (parse : string -> option json)
    (merges_of : json -> Thrown + option (list MergeGroup))
    (getenv : string -> option string)
    (project : option ProjectSettings) (concepts : list UnifiedConcept)
    (round totalRounds : Z) (response : LlmResponse) (apiKey : string) :
  getenv (apiKeyEnv (getModelConfig (selectedModel_of project))) = Some apiKey ->
  apiKey <> EmptyString ->
  llm_ok response = true ->
  llm_body response = Some None \/ llm_body response = Some (Some EmptyString) ->
  parse "{}" = Some (JObject []) ->
  merges_of (JObject []) = inr None ->
  result {| res_concepts := concepts; res_mergeLog := [];
            inputCount := length concepts; outputCount := length concepts;
            d1ElementCount := countD1 concepts;
            d2ElementCount := countD2 concepts |}
    ∈ serve toLowerCase parse merges_of getenv
            project concepts round totalRounds (inr response).
Proof.
  intros Hkey Hne Hok Hbody Hparse Hmerges.
  assert (callLLM getenv (getModelConfig (selectedModel_of project))
                  (inr response) = inr "{}") as Hcall.
  { unfold callLLM. rewrite Hkey.
    destruct (String.eqb_spec apiKey EmptyString) as [|_]; [done|].
    rewrite Hok. simpl. by destruct Hbody as [-> | ->]. }
  unfold serve. rewrite Hcall. unfold merger_parse.
  rewrite Hparse, Hmerges, reconcile_no_groups. simpl.
  repeat first [apply list_elem_of_here|apply list_elem_of_further].
Qed.

Lemma silent_model_changes_nothing_witness :
  result {| res_concepts := overlapping; res_mergeLog := [];
            inputCount := length overlapping;
            outputCount := length overlapping;
            d1ElementCount := countD1 overlapping;
            d2ElementCount := countD2 overlapping |}
    ∈ sample_round silent.
Proof.
  apply (silent_model_changes_nothing toLowerCase_ascii JSON_parse
           typed_merges with_key None overlapping 1 3 silent "secret").
  - reflexivity.
  - discriminate.
  - reflexivity.
  - left. reflexivity.
  - vm_compute. reflexivity.
  - reflexivity.
Defined.

End MergerFacts.

(* ===================================================================== *)
(** ** Properties of the creation of standards                            *)
(* ===================================================================== *)

Module StandardsFacts.

Import Reply Standards.

(** *** Induction over the entries of a reply *)

Section StandardInduction.

Variable P : Standard -> Prop.
Hypothesis P_null : P SNull.
Hypothesis P_leaf : forall fields, P (SNode fields None).
Hypothesis P_node : forall fields cs, Forall P cs -> P (SNode fields (Some cs)).

Fixpoint Standard_nested_ind (standard : Standard) : P standard :=
  match standard with
  | SNull => P_null
  | SNode fields None => P_leaf fields
  | SNode fields (Some cs) =>
      P_node fields cs
        ((fix all (l : list Standard) : Forall P l :=
            match l with
            | [] => @List.Forall_nil _ P
            | c :: r => @List.Forall_cons _ P c r (Standard_nested_ind c) (all r)
            end) cs)
  end.

End StandardInduction.

(** *** The rows of a trace *)

(** The ids returned by the successful inserts of a trace, in order. *)
Definition ok_ids (tr : list Event) : list string :=
  omap (fun e => match e with
                 | insert_standard _ (inr id) => Some id
                 | _ => None
                 end) tr.

Definition successes (tr : list Event) : nat := length (ok_ids tr).

(** An event is in order after the events [pre]: an insert carries as
    [order_index] the number of successful inserts so far, and as
    [parent_id], if any, an id that one of them returned. *)
Definition row_ok (pre : list Event) (e : Event) : Prop :=
  match e with
  | insert_standard args _ =>
      order_index args = successes pre /\
      forall p, parent_id args = Some p -> p ∈ ok_ids pre
  | _ => True
  end.

Inductive well_formed : list Event -> Prop :=
| wf_nil : well_formed []
| wf_snoc tr e : well_formed tr -> row_ok tr e -> well_formed (tr ++ [e]).

Lemma ok_ids_app tr evs : ok_ids (tr ++ evs) = ok_ids tr ++ ok_ids evs.
Proof. apply omap_app. Qed.

Lemma well_formed_split tr pre e post :
  well_formed tr -> tr = pre ++ e :: post -> row_ok pre e.
Proof.
  intros Hwf. revert pre e post.
  induction Hwf as [|tr e' Hwf IH Hrow]; intros pre e post Heq.
  - by destruct pre.
  - destruct post as [|x post _] using rev_ind.
    + apply app_inj_tail in Heq as [-> ->]. done.
    + change (tr ++ [e'] = pre ++ (e :: post) ++ [x]) in Heq.
      rewrite app_assoc in Heq. apply app_inj_tail in Heq as [-> _].
      by eapply IH.
Qed.

(** What the inserting loop maintains. *)
Definition inv (s : State) : Prop :=
  createdCount s = successes (trace s) /\ well_formed (trace s).

Definition knows (parentId : option string) (s : State) : Prop :=
  forall p, parentId = Some p -> p ∈ ok_ids (trace s).

Definition grows (s s' : State) : Prop :=
  forall x, x ∈ ok_ids (trace s) -> x ∈ ok_ids (trace s').

Section Rows.

Variable env : Env.

(** A step from [s] to [s'] keeps [I] and forgets no id. *)
Definition kept (I : State -> Prop) (s s' : State) : Prop :=
  I s' /\ grows s s'.

Lemma for_each_inv {A} (body : A -> M unit) (xs : list A) (I : State -> Prop) s :
  Forall (fun x => forall s, I s -> kept I s (body x s).2) xs ->
  I s -> kept I s (for_each body xs s).2.
Proof.
  intros Hxs. revert s. induction Hxs as [|x xs Hx _ IH]; intros s Hs; simpl.
  - split; [done|]. by intros x Hx.
  - unfold bind. pose proof (Hx s Hs) as Hstep.
    destruct (body x s) as [[e|[]] s1]; simpl in *; [done|].
    destruct Hstep as [H1 Hg1].
    destruct (IH s1 H1) as [H2 Hg2]. split; [done|].
    intros y Hy. by apply Hg2, Hg1.
Qed.

Lemma inv_failed_insert s args err :
  inv s -> order_index args = createdCount s -> knows (parent_id args) s ->
  kept inv s {| createdCount := createdCount s;
                trace := trace s ++ [insert_standard args (inl err)];
                calls := S (calls s) |}.
Proof.
  intros [Hcount Hwf] Hidx Hparent. unfold kept, inv, grows, successes in *.
  simpl. rewrite ok_ids_app. simpl. rewrite app_nil_r.
  split_and!; [done| |done].
  constructor; [done|]. split; [|done]. unfold successes. congruence.
Qed.

Lemma inv_good_insert s args id :
  inv s -> order_index args = createdCount s -> knows (parent_id args) s ->
  let s2 := {| createdCount := S (createdCount s);
               trace := trace s ++ [insert_standard args (inr id)];
               calls := S (calls s) |} in
  kept inv s s2 /\ id ∈ ok_ids (trace s2).
Proof.
  intros [Hcount Hwf] Hidx Hparent. unfold kept, inv, grows, successes in *.
  simpl. rewrite ok_ids_app, length_app. simpl. split_and!.
  - lia.
  - constructor; [done|]. split; [|done]. unfold successes. congruence.
  - intros x Hx. apply elem_of_app. by left.
  - apply elem_of_app. right. by left.
Qed.

Lemma insertStandard_inv standard :
  forall parentId s, inv s -> knows parentId s ->
    kept inv s (insertStandard env standard parentId s).2.
Proof.
  induction standard as [|fields|fields cs IH] using Standard_nested_ind;
    intros parentId s Hinv Hparent; simpl.
  - split; [done|]. by intros x Hx.
  - unfold bind, insert, count_created, ret. simpl.
    set (args := {| row_code := _ |}).
    destruct (insert_reply env (calls s) args) as [err|id]; simpl.
    + by apply (inv_failed_insert s args err).
    + by destruct (inv_good_insert s args id) as [? ?].
  - unfold bind at 1, insert. simpl.
    set (args := {| row_code := _ |}).
    destruct (insert_reply env (calls s) args) as [err|id]; simpl.
    + by apply (inv_failed_insert s args err).
    + unfold bind, count_created. simpl.
      pose proof (inv_good_insert s args id Hinv eq_refl Hparent) as Hgood.
      cbv zeta in Hgood.
      set (s2 := {| createdCount := _ |}) in *. clearbody s2.
      destruct Hgood as ([H2 Hg2] & Hid).
      destruct (for_each_inv (fun child => insertStandard env child (Some id))
                  cs (fun s => inv s /\ id ∈ ok_ids (trace s)) s2) as [[H3 _] Hg3].
      * eapply Forall_impl; [exact IH|]. intros c Hc s0 [Hinv0 Hin].
        destruct (Hc (Some id) s0 Hinv0) as [H' Hg'].
        { by intros p [= <-]. }
        split; [split|]; [done|by apply Hg'|done].
      * by split.
      * split; [done|]. intros x Hx. by apply Hg3, Hg2.
Qed.

Lemma insertAll_inv standards s :
  inv s -> inv (insertAll env standards s).2.
Proof.
  intros Hs. unfold insertAll.
  apply (for_each_inv (fun standard => insertStandard env standard None)
           standards inv s); [|done].
  apply Forall_forall. intros c _ s0 H0.
  by apply insertStandard_inv.
Qed.

End Rows.

(** The trace of the function is in order, and a count it reports is the
    number of successful inserts. *)
Lemma serve_well_formed env trim parse standard_of req secrets ai :
  well_formed (serve env trim parse standard_of req secrets ai).2 /\
  forall n, (serve env trim parse standard_of req secrets ai).1 = Created n ->
            n = successes (serve env trim parse standard_of req secrets ai).2.
Proof.
  assert (well_formed [select_standards; ai_request]) as Hasked.
  { apply (wf_snoc [select_standards]); [|done].
    apply (wf_snoc []); [constructor|done]. }
  unfold serve.
  destruct (_ || _); simpl; [split; [constructor|done]|].
  destruct (missing _); simpl; [split; [constructor|done]|].
  destruct (_ || _); simpl; [split; [constructor|done]|].
  destruct ai as [e|aiResponse]; simpl; [by split|].
  destruct (ai_ok aiResponse); simpl; [|by split].
  destruct (ai_content aiResponse) as [e|generatedText]; simpl; [by split|].
  destruct (parse _) as [[| | | |standardsData|]|]; simpl; try by split.
  pose proof (insertAll_inv env (standard_of <$> standardsData)
                {| createdCount := 0; trace := [select_standards; ai_request];
                   calls := 0 |}) as Hinv.
  destruct (insertAll env _ _) as [[e|[]] s]; simpl in *.
  - destruct Hinv as [_ Hwf]; [by split|]. by split.
  - destruct Hinv as [Hcount Hwf]; [by split|]. split; [done|].
    by intros n [= <-].
Qed.

(** *** A sample reply *)

(** ASCII instance of [trim] for the examples. *)
Fixpoint trim_start (s : string) : string :=
  match s with
  | EmptyString => EmptyString
  | String c r => if is_space c then trim_start r else s
  end.

Fixpoint trim_end (s : string) : string :=
  match s with
  | EmptyString => EmptyString
  | String c r =>
      match trim_end r with
      | EmptyString => if is_space c then EmptyString else String c EmptyString
      | t => String c t
      end
  end.

Definition trim_ascii (s : string) : string := trim_end (trim_start s).

(** The text of one entry with the given code and children. *)
Definition entry (c children : string) : string :=
  String "{" (ReplyFacts.quoted "code" +:+ ":" +:+ ReplyFacts.quoted c +:+ "," +:+
              ReplyFacts.quoted "title" +:+ ":" +:+
              ReplyFacts.quoted ("Standard " +:+ c) +:+ "," +:+
              ReplyFacts.quoted "children" +:+ ":[" +:+ children +:+ "]}").

(** A fenced reply with the entries A (with children A1, itself with a
    child A11, and A2) and B. *)
Definition fenced_reply : string :=
  "```json
[" +:+ entry "A" (entry "A1" (entry "A11" EmptyString) +:+ "," +:+
                  entry "A2" EmptyString) +:+ "," +:+
       entry "B" EmptyString +:+ "]
```".

(** A database that refuses the second insert and stores the others under
    the id [row-n] for the [n]-th call. *)
Definition fussy : Env :=
  {| insert_reply := fun n _ =>
       if bool_decide (n = 1%nat) then inl "duplicate key"
       else inr ("row-" +:+ pretty n) |}.

Definition sample_request : Request :=
  {| input := Some "security rules"; categoryId := Some "category" |}.

Definition sample_secrets : Secrets :=
  {| LOVABLE_API_KEY := Some "key"; SUPABASE_URL := Some "url";
     SUPABASE_SERVICE_ROLE_KEY := Some "role" |}.

Definition sample_creation : Response * list Event :=
  serve fussy trim_ascii JSON_parse standard_of_json sample_request
        sample_secrets
        (inr {| ai_ok := true; ai_status := 200;
                ai_content := inr fenced_reply |}).

Definition sample_row (c : string) (parent : option string) (i : nat)
  : InsertArgs :=
  {| row_code := Some c; row_title := Some ("Standard " +:+ c);
     row_description := None; row_content := None;
     parent_id := parent; order_index := i |}.

(** The refused entry A1 keeps its child A11 out, and its index goes to
    the next entry that is stored. *)
Example sample_creation_result :
  sample_creation =
  (Created 3,
   [select_standards; ai_request;
    insert_standard (sample_row "A" None 0) (inr "row-0");
    insert_standard (sample_row "A1" (Some "row-0") 1) (inl "duplicate key");
    insert_standard (sample_row "A2" (Some "row-0") 1) (inr "row-2");
    insert_standard (sample_row "B" None 2) (inr "row-3")]).
Proof. vm_compute. reflexivity. Qed.


(** *** Numbering and parents of the rows *)

(** X20.  Whatever the reply and the database answer, the rows are
    numbered by success: every insert, stored or refused, carries as
    [order_index] the number of inserts stored before it, so the rows
    stored carry 0, 1, 2, ... in the order of their creation and a
    refused insert leaves its index to the next one; and a response that
    reports [createdCount] reports the number of inserts stored. *)
Theorem rows_are_numbered_by_success (env : Env) (trim : string -> string)
    (parse : string -> option json) (standard_of : json -> Standard)
    (req : Request) (secrets : Secrets) (ai : Thrown + AiResponse) :
  let out := serve env trim parse standard_of req secrets ai in
  (forall pre args reply post,
     out.2 = pre ++ insert_standard args reply :: post ->
     order_index args = successes pre) /\
  (forall n, out.1 = Created n -> n = successes out.2).
Proof.
  simpl.
  destruct (serve_well_formed env trim parse standard_of req secrets ai)
    as [Hwf Hcount].
  split; [|done]. intros pre args reply post Heq.
  by destruct (well_formed_split _ _ _ _ Hwf Heq).
Qed.

(** X21.  A row is written under a parent only after the insert of that
    parent was stored: the [parent_id] of every insert is an id returned
    by an earlier successful insert of the same run.  So no entry below a
    refused entry is ever written. *)
Theorem children_follow_their_parent (env : Env) (trim : string -> string)
    (parse : string -> option json) (standard_of : json -> Standard)
    (req : Request) (secrets : Secrets) (ai : Thrown + AiResponse)
    (pre post : list Event) (args : InsertArgs) (reply : string + string)
    (p : string) :
  (serve env trim parse standard_of req secrets ai).2
    = pre ++ insert_standard args reply :: post ->
  parent_id args = Some p ->
  p ∈ ok_ids pre.
Proof.
  intros Heq Hp.
  destruct (serve_well_formed env trim parse standard_of req secrets ai)
    as [Hwf _].
  destruct (well_formed_split _ _ _ _ Hwf Heq) as [_ Hparent]. by apply Hparent.
Qed.

Lemma children_follow_their_parent_witness :
  let pre := [select_standards; ai_request;
              insert_standard (sample_row "A" None 0) (inr "row-0");
              insert_standard (sample_row "A1" (Some "row-0") 1)
                              (inl "duplicate key")] in
  "row-0" ∈ ok_ids pre.
Proof.
  intros pre.
  apply (children_follow_their_parent fussy trim_ascii JSON_parse
           standard_of_json sample_request sample_secrets
           (inr {| ai_ok := true; ai_status := 200;
                   ai_content := inr fenced_reply |})
           pre [insert_standard (sample_row "B" None 2) (inr "row-3")]
           (sample_row "A2" (Some "row-0") 1) (inr "row-2") "row-0").
  - vm_compute. reflexivity.
  - reflexivity.
Defined.

(** *** A null entry *)

Lemma for_each_app {A} (body : A -> M unit) (xs ys : list A) (s : State) :
  for_each body (xs ++ ys) s =
  match for_each body xs s with
  | (inr _, s') => for_each body ys s'
  | (inl e, s') => (inl e, s')
  end.
Proof.
  revert s. induction xs as [|x xs IH]; intros s; simpl; [done|].
  unfold bind. destruct (body x s) as [[e|[]] s1]; [done|]. apply IH.
Qed.

(** X22.  A [null] entry in the reply stops the inserting loop with a
    [TypeError], and nothing is undone: the entries before it are
    inserted as if the reply ended there, their rows stay, and no entry
    after it is attempted. *)
Theorem null_entry_stops_the_inserts (env : Env)
    (before after : list Standard) (s : State) :
  insertAll env (before ++ SNull :: after) s =
  match insertAll env before s with
  | (inr _, s') => (inl TypeError, s')
  | (inl e, s') => (inl e, s')
  end.
Proof.
  unfold insertAll. rewrite for_each_app.
  by destruct (for_each _ before s) as [[e|[]] s'].
Qed.

(** *** A database that stores every row *)

(** The entries of a reply in the order of a pre-order walk, parents
    before children and children in the order of the reply. *)
Fixpoint preorder (standard : Standard) : list StandardFields :=
  match standard with
  | SNull => []
  | SNode fields None => [fields]
  | SNode fields (Some cs) => fields :: flat_map preorder cs
  end.

Fixpoint null_free (standard : Standard) : bool :=
  match standard with
  | SNull => false
  | SNode _ None => true
  | SNode _ (Some cs) => forallb null_free cs
  end.

(** Code and title of the rows stored, in order. *)
Definition stored (tr : list Event) : list (option string * option string) :=
  omap (fun e => match e with
                 | insert_standard args (inr _) =>
                     Some (row_code args, row_title args)
                 | _ => None
                 end) tr.

Definition named (fields : StandardFields) : option string * option string :=
  (code fields, title fields).

(** [m] returns, having stored one row for each of [fs], in order. *)
Definition stores (m : M unit) (fs : list StandardFields) : Prop :=
  forall s, exists s',
    m s = (inr tt, s') /\
    createdCount s' = (createdCount s + length fs)%nat /\
    stored (trace s') = stored (trace s) ++ (named <$> fs).

Lemma stores_for_each {A} (body : A -> M unit) (g : A -> list StandardFields)
    (xs : list A) :
  Forall (fun x => stores (body x) (g x)) xs ->
  stores (for_each body xs) (flat_map g xs).
Proof.
  induction 1 as [|x xs Hx _ IH]; intros s; simpl.
  - exists s. rewrite app_nil_r. split_and!; [done|lia|done].
  - destruct (Hx s) as (s1 & Heq1 & Hc1 & Ht1).
    destruct (IH s1) as (s2 & Heq2 & Hc2 & Ht2).
    exists s2. unfold bind. rewrite Heq1. split_and!; [done| |].
    + rewrite length_app. lia.
    + by rewrite Ht2, Ht1, fmap_app, app_assoc.
Qed.

Section Storing.

Variable env : Env.
Hypothesis always_stored : forall n args, exists id, insert_reply env n args = inr id.

Lemma stores_insertStandard standard :
  null_free standard = true ->
  forall parentId, stores (insertStandard env standard parentId) (preorder standard).
Proof.
  induction standard as [|fields|fields cs IH] using Standard_nested_ind;
    intros Hfree parentId s; simpl in *; [done| |].
  - unfold bind, insert, count_created, ret. simpl.
    set (args := {| row_code := _ |}).
    destruct (always_stored (calls s) args) as [id ->].
    eexists. split; [reflexivity|]. simpl. split; [lia|].
    unfold stored. by rewrite omap_app.
  - unfold bind at 1, insert. simpl.
    set (args := {| row_code := _ |}).
    destruct (always_stored (calls s) args) as [id Hid].
    rewrite Hid. unfold bind, count_created. simpl.
    match goal with |- context [for_each _ cs ?s2] => set (s2' := s2) end.
    destruct (stores_for_each (fun child => insertStandard env child (Some id))
                preorder cs) with (s := s2') as (s3 & Heq & Hc & Ht).
    + rewrite forallb_forall in Hfree. rewrite Forall_forall in IH.
      apply Forall_forall. intros c Hc. apply IH; [done|].
      apply Hfree. by apply list_elem_of_In.
    + exists s3. split; [exact Heq|]. subst s2'. simpl in *. split; [lia|].
      rewrite Ht. unfold stored at 1. rewrite omap_app. simpl.
      by rewrite <- app_assoc.
Qed.

End Storing.

(** X23.  When the database stores every row and the reply has no [null]
    entry, the inserting loop returns having stored exactly one row for
    every entry of the reply, at every depth, parents before their
    children and siblings in the order of the reply, and [createdCount]
    has grown by the number of entries. *)
Theorem every_entry_is_stored_in_preorder (env : Env)
    (standards : list Standard) (s : State) :
  (forall n args, exists id, insert_reply env n args = inr id) ->
  forallb null_free standards = true ->
  exists s',
    insertAll env standards s = (inr tt, s') /\
    createdCount s' = (createdCount s + length (flat_map preorder standards))%nat /\
    stored (trace s') = stored (trace s) ++ (named <$> flat_map preorder standards).
Proof.
  intros Hdb Hfree.
  apply (stores_for_each (fun standard => insertStandard env standard None)
           preorder standards).
  apply Forall_forall. intros c Hc. apply stores_insertStandard; [done|].
  rewrite forallb_forall in Hfree. apply Hfree. by apply list_elem_of_In.
Qed.

(** A database that stores every row, and a reply of three entries. *)
Definition patient : Env :=
  {| insert_reply := fun n _ => inr ("row-" +:+ pretty n) |}.

Definition titled (c : string) : StandardFields :=
  {| code := Some c; title := Some ("Standard " +:+ c);
     description := None; content := None |}.

Definition small_reply : list Standard :=
  [SNode (titled "A") (Some [SNode (titled "A1") None]); SNode (titled "B") None].

Lemma every_entry_is_stored_in_preorder_witness :
  exists s',
    insertAll patient small_reply {| createdCount := 0; trace := []; calls := 0 |}
      = (inr tt, s') /\
    createdCount s' = 3%nat /\
    stored (trace s') = named <$> [titled "A"; titled "A1"; titled "B"].
Proof.
  apply (every_entry_is_stored_in_preorder patient small_reply
           {| createdCount := 0; trace := []; calls := 0 |}).
  - intros n args. eexists. reflexivity.
  - reflexivity.
Defined.

(** *** The code fences *)

(** [s.includes(pat)]. *)
Fixpoint contains (pat s : string) : bool :=
  match strip_prefix pat s with
  | Some _ => true
  | None =>
      match s with
      | EmptyString => false
      | String _ r => contains pat r
      end
  end.

(** The number of backticks a text starts with. *)
Fixpoint ticks (s : string) : nat :=
  match s with
  | String c r => if Ascii.eqb c "`" then S (ticks r) else 0%nat
  | EmptyString => 0%nat
  end.

Lemma strip_prefix_cons a p c r :
  strip_prefix (String a p) (String c r)
  = if Ascii.eqb c a then strip_prefix p r else None.
Proof. simpl. by rewrite Ascii.eqb_sym. Qed.

Lemma fence_ticks s :
  match strip_prefix "```" s with
  | Some _ => (3 <= ticks s)%nat
  | None => (ticks s < 3)%nat
  end.
Proof.
  destruct s as [|a [|b [|c r]]];
    rewrite ?strip_prefix_cons; cbn [ticks strip_prefix];
    rewrite ?strip_prefix_cons;
    repeat match goal with
           | |- context [Ascii.eqb ?x "`"] => destruct (Ascii.eqb x "`")
           end; cbn [ticks strip_prefix]; lia.
Qed.

(** After the second replacement no fence is left, and a text that
    starts with fewer than three backticks keeps them. *)
Lemma remove_fences_spec s :
  forall skip,
    contains "```" (remove_all "```" skip s) = false /\
    (skip = 0%nat -> (ticks s < 3)%nat ->
     ticks (remove_all "```" 0 s) = ticks s).
Proof.
  induction s as [|c r IH]; intros skip; [by split|].
  destruct skip as [|k].
  - pose proof (fence_ticks (String c r)) as Hticks.
    change (remove_all "```" 0 (String c r)) with
      (match strip_prefix "```" (String c r) with
       | Some rest =>
           remove_all "```"
             (String.length "```" - 1 +
              match rest with String "010" _ => 1 | _ => 0 end)%nat r
       | None => String c (remove_all "```" 0 r)
       end).
    destruct (strip_prefix "```" (String c r)) as [rest|] eqn:Hmatch.
    + split; [apply IH|]. intros _ Hlt. lia.
    + destruct (IH 0%nat) as [Hnone Hkeep].
      assert ((ticks (String c r) < 3)%nat ->
              ticks (String c (remove_all "```" 0 r)) = ticks (String c r))
        as Hsame.
      { simpl. destruct (Ascii.eqb c "`"); [|done].
        intros Hlt. rewrite Hkeep; [done|done|lia]. }
      split; [|by intros _].
      pose proof (fence_ticks (String c (remove_all "```" 0 r))) as Hout.
      rewrite (Hsame Hticks) in Hout.
      change (contains "```" (String c (remove_all "```" 0 r))) with
        (match strip_prefix "```" (String c (remove_all "```" 0 r)) with
         | Some _ => true
         | None => contains "```" (remove_all "```" 0 r)
         end).
      destruct (strip_prefix "```" (String c (remove_all "```" 0 r)));
        [lia|done].
  - split; [apply IH|done].
Qed.

(** X24.  The clean-up of the reply leaves no code fence: after the two
    replacements the text contains no run of three backticks, whatever
    the model wrote, also where removing one fence brings backticks
    together. *)
Theorem no_fence_survives_the_cleanup (generatedText : string) :
  contains "```" (strip_fences generatedText) = false.
Proof.
  unfold strip_fences.
  destruct (remove_fences_spec (remove_all "```json" 0 generatedText) 0)
    as [Hnone _].
  exact Hnone.
Qed.

Example cleanup_samples :
  strip_fences fenced_reply
    = String "[" (entry "A" (entry "A1" (entry "A11" EmptyString) +:+ "," +:+
                             entry "A2" EmptyString) +:+ "," +:+
                  entry "B" EmptyString +:+ "]
") /\
  strip_fences "``````json`" = "`" /\
  strip_fences "`` ```json`" = "`` `".
Proof. vm_compute. done. Qed.

End StandardsFacts.

(* ===================================================================== *)
(** ** Properties of the checks of decompose-requirements                 *)
(* ===================================================================== *)

Module DecomposeFacts.

Import Reply Decompose.

(** *** The format of a project id *)

Lemma hex_run_length n s r :
  hex_run n s = Some r -> String.length s = (n + String.length r)%nat.
Proof.
  revert s. induction n as [|n IH]; intros s; simpl.
  - by intros [= ->].
  - destruct s as [|c s]; [done|]. destruct (is_hex c); [|done].
    intros H. simpl. by rewrite (IH _ H).
Qed.

Lemma dash_length s r :
  dash s = Some r -> String.length s = S (String.length r).
Proof.
  destruct s as [|c s]; simpl; [done|].
  destruct (Ascii.eqb c "-"); [|done]. by intros [= ->].
Qed.

Lemma uuid_length s : uuidRegex_test s = true -> String.length s = 36%nat.
Proof.
  unfold uuidRegex_test.
  destruct (hex_run 8 s) as [s1|] eqn:H1; cbn [mbind option_bind fmap option_fmap option_map]; [|done].
  destruct (dash s1) as [s2|] eqn:H2; cbn [mbind option_bind fmap option_fmap option_map]; [|done].
  destruct (hex_run 4 s2) as [s3|] eqn:H3; cbn [mbind option_bind fmap option_fmap option_map]; [|done].
  destruct (dash s3) as [s4|] eqn:H4; cbn [mbind option_bind fmap option_fmap option_map]; [|done].
  destruct (hex_run 4 s4) as [s5|] eqn:H5; cbn [mbind option_bind fmap option_fmap option_map]; [|done].
  destruct (dash s5) as [s6|] eqn:H6; cbn [mbind option_bind fmap option_fmap option_map]; [|done].
  destruct (hex_run 4 s6) as [s7|] eqn:H7; cbn [mbind option_bind fmap option_fmap option_map]; [|done].
  destruct (dash s7) as [s8|] eqn:H8; cbn [mbind option_bind fmap option_fmap option_map]; [|done].
  destruct (hex_run 12 s8) as [[|c r]|] eqn:H9; [|done|done]. intros _.
  apply hex_run_length in H1, H3, H5, H7, H9.
  apply dash_length in H2, H4, H6, H8. simpl in H9. lia.
Qed.

Lemma is_hex_lower c : is_hex (Merge.lower_ascii c) = is_hex c.
Proof. by destruct c as [[] [] [] [] [] [] [] []]. Qed.

Lemma is_dash_lower c : Ascii.eqb (Merge.lower_ascii c) "-" = Ascii.eqb c "-".
Proof. by destruct c as [[] [] [] [] [] [] [] []]. Qed.

Lemma hex_run_lower n s :
  hex_run n (Merge.toLowerCase_ascii s)
  = Merge.toLowerCase_ascii <$> hex_run n s.
Proof.
  revert s. induction n as [|n IH]; intros s; simpl; [done|].
  destruct s as [|c s]; simpl; [done|].
  rewrite is_hex_lower. destruct (is_hex c); [apply IH|done].
Qed.

Lemma dash_lower s :
  dash (Merge.toLowerCase_ascii s) = Merge.toLowerCase_ascii <$> dash s.
Proof.
  destruct s as [|c s]; simpl; [done|].
  rewrite is_dash_lower. by destruct (Ascii.eqb c "-").
Qed.

(** X25.  The format check of the project id does not depend on letter
    case: an id is accepted exactly when its lower-case form is. *)
Theorem uuid_check_ignores_case (projectId : string) :
  uuidRegex_test (Merge.toLowerCase_ascii projectId) = uuidRegex_test projectId.
Proof.
  unfold uuidRegex_test.
  rewrite hex_run_lower. destruct (hex_run 8 projectId) as [s1|]; cbn [mbind option_bind fmap option_fmap option_map]; [|done].
  rewrite dash_lower. destruct (dash s1) as [s2|]; cbn [mbind option_bind fmap option_fmap option_map]; [|done].
  rewrite hex_run_lower. destruct (hex_run 4 s2) as [s3|]; cbn [mbind option_bind fmap option_fmap option_map]; [|done].
  rewrite dash_lower. destruct (dash s3) as [s4|]; cbn [mbind option_bind fmap option_fmap option_map]; [|done].
  rewrite hex_run_lower. destruct (hex_run 4 s4) as [s5|]; cbn [mbind option_bind fmap option_fmap option_map]; [|done].
  rewrite dash_lower. destruct (dash s5) as [s6|]; cbn [mbind option_bind fmap option_fmap option_map]; [|done].
  rewrite hex_run_lower. destruct (hex_run 4 s6) as [s7|]; cbn [mbind option_bind fmap option_fmap option_map]; [|done].
  rewrite dash_lower. destruct (dash s7) as [s8|]; cbn [mbind option_bind fmap option_fmap option_map]; [|done].
  rewrite hex_run_lower. by destruct (hex_run 12 s8) as [[|c r]|].
Qed.

(** *** What gets past the checks *)

(** X26.  A request gets past the checks only if its body has a [text]
    field, which may be empty when project context is attached, a
    project id of exactly 36 characters in the UUID format, and the API
    key is configured. *)
Theorem checks_pass_only_with_text (body : Body) (key tokenError : option string) :
  checks body key tokenError = inr tt ->
  exists t p,
    text body = Some t /\
    (t <> EmptyString \/ hasAttachedContext (attachedContext body) = true) /\
    projectId body = Some p /\
    uuidRegex_test p = true /\ String.length p = 36%nat /\
    missing key = false.
Proof.
  unfold checks.
  destruct (missing (projectId body)) eqn:Hp; [done|].
  destruct (missing (text body) && _) eqn:Htext; [done|].
  destruct (uuidRegex_test _) eqn:Huuid; [|done]. simpl.
  destruct (missing key) eqn:Hkey; [done|].
  destruct (negb (missing (shareToken body)) && _); [done|].
  destruct (text body) as [t|]; [|done]. intros _.
  destruct (projectId body) as [p|]; [|done]. simpl in *.
  exists t, p. split_and!; try done.
  - destruct t as [|c t]; [|by left].
    right. simpl in Htext. by destruct (hasAttachedContext _).
  - by apply uuid_length.
Qed.

Definition sample_body : Body :=
  {| text := Some EmptyString;
     projectId := Some "0F8FAD5B-d9cb-469f-a165-70867728950e";
     shareToken := None;
     attachedContext :=
       Some {| projectMetadata := false; artifacts := Some 2%nat;
               requirements := None; standards := None; techStacks := None;
               canvasNodes := None; chatSessions := None; files := None |} |}.

Lemma checks_pass_only_with_text_witness :
  exists t p,
    text sample_body = Some t /\
    (t <> EmptyString \/ hasAttachedContext (attachedContext sample_body) = true) /\
    projectId sample_body = Some p /\
    uuidRegex_test p = true /\ String.length p = 36%nat /\
    missing (Some "key") = false.
Proof.
  apply (checks_pass_only_with_text sample_body (Some "key") None).
  vm_compute. reflexivity.
Defined.

(** X27.  A request that attaches project context but has no [text]
    field is not served, although the check for input accepts it: with a
    well-formed project id, the key configured and the share token
    accepted, it is answered with the 500 response for the [TypeError]
    thrown where the length of the text is logged, whatever the rest of
    the function would have answered. *)
Theorem context_without_text_fails {A} (body : Body)
    (key tokenError : option string) (rest : A) (p : string) :
  text body = None ->
  hasAttachedContext (attachedContext body) = true ->
  projectId body = Some p -> uuidRegex_test p = true ->
  missing key = false ->
  missing (shareToken body) = true \/ tokenError = None ->
  serve body key tokenError rest = Failed TypeError.
Proof.
  intros Htext Hctx Hp Huuid Hkey Htoken. unfold serve, checks.
  rewrite Htext, Hctx, Hp, Hkey. simpl. rewrite Huuid. simpl.
  assert (p <> EmptyString) as Hne by (by intros ->).
  destruct (String.eqb_spec p EmptyString) as [|_]; [done|]. simpl.
  by destruct Htoken as [-> | ->]; rewrite ?andb_false_r.
Qed.

Definition context_only : Body :=
  {| text := None;
     projectId := projectId sample_body;
     shareToken := None;
     attachedContext := attachedContext sample_body |}.

Lemma context_without_text_fails_witness :
  serve context_only (Some "key") None "saved" = Failed TypeError.
Proof.
  apply (context_without_text_fails context_only (Some "key") None "saved"
           "0F8FAD5B-d9cb-469f-a165-70867728950e").
  - reflexivity.
  - reflexivity.
  - reflexivity.
  - vm_compute. reflexivity.
  - reflexivity.
  - left. reflexivity.
Defined.

End DecomposeFacts.
